(** * Page-interaction layer (script.js): a shallow embedding and its properties

    The script wires DOM elements to events.  Each controller of the script is
    embedded below in a module of its own:

    - [Time]        the [formatTime] helper;
    - [Spotlight]   the easing step of [updateMask];
    - [Json]        the host's [JSON.parse], as far as [initTypewriter] needs it;
    - [Typewriter]  [initTypewriter] and its self-rescheduling [tick];
    - [Player]      [musicPlayerController]: the audio heap, the cards, the
                    handlers and the timers they schedule;
    - [Overlay]     [profileOverlayController]: [memberData], [openOverlay] and
                    the click listener of a member;
    - [Motto]       the observer set up by the last lines of the script;
    - [Observers]   [createObserver] and the callbacks of the observers of the
                    visibility and animation controllers.

    Conventions.  A JavaScript string whose code units are all below 256 is a
    Rocq [string], one [ascii] per code unit.  A DOM element that
    [getElementById] or [querySelector] may fail to find is an [option]: [None]
    is JavaScript's [null].  An exception is a result of its own, carrying the
    state reached when it was thrown, since the mutations made before a throw
    persist. *)

From Stdlib Require Import ZArith QArith Qabs Lqa Floats String Ascii DecimalString Lia List.
From Stdlib Require DecimalPos DecimalZ.
From stdpp Require Import gmap strings list.

Local Open Scope Z_scope.

(* [set_solver] may clear a hypothesis twice; the warning carries no
   information. *)
#[local] Set Warnings "-clear-no-such-hyp".

(* ===================================================================== *)
(** * Time formatter *)
(* ===================================================================== *)

Module Time.

(** The numbers [formatTime] is called on: durations and positions in whole
    seconds (every integer below 2^53 is a double, and the operations below
    are exact on them), and [NaN], the duration of a track whose metadata is
    not loaded yet. *)
Inductive jsnum : Type :=
| Num (z : Z)
| NaN.

(** [Math.floor(x / d)] for an integer [x] and a positive integer [d]. *)
Definition Math_floor_div (x : jsnum) (d : Z) : jsnum :=
  match x with
  | Num z => Num (z / d)
  | NaN => NaN
  end.

(** [Math.floor(x % d)]: JavaScript's remainder takes the sign of the
    dividend, as [Z.rem] does, and is an integer already. *)
Definition Math_floor_rem (x : jsnum) (d : Z) : jsnum :=
  match x with
  | Num z => Num (Z.rem z d)
  | NaN => NaN
  end.

(** [Number.prototype.toString] on an integer or NaN. *)
Definition toString (x : jsnum) : string :=
  match x with
  | Num z => NilZero.string_of_int (Z.to_int z)
  | NaN => "NaN"
  end.

Fixpoint repeat_string (pad : string) (n : nat) : string :=
  match n with
  | O => EmptyString
  | S k => pad +:+ repeat_string pad k
  end.

(** [String.prototype.padStart(target, pad)]. *)
Definition padStart (target : nat) (pad s : string) : string :=
  let len := String.length s in
  if ((target <=? len)%nat || (String.length pad =? 0)%nat)%bool then s
  else substring 0 (target - len) (repeat_string pad (target - len)) +:+ s.

(** <<
    const formatTime = (seconds) => {
      const min = Math.floor(seconds / 60);
      const sec = Math.floor(seconds % 60);
      return `${min}:${sec.toString().padStart(2, "0")}`;
    };
    >> *)
Definition formatTime (seconds : jsnum) : string :=
  let min := Math_floor_div seconds 60 in
  let sec := Math_floor_rem seconds 60 in
  toString min +:+ ":" +:+ padStart 2 "0" (toString sec).



End Time.

(* ===================================================================== *)
(** * Spotlight easing *)
(* ===================================================================== *)

Module Spotlight.

(** ** The code's arithmetic: IEEE 754 binary64 *)

(** The doubles nearest to the literals [0.08] and [0.1]. *)
Definition CENTER_FACTOR : float := 0x1.47ae147ae147bp-4%float.
Definition RADIUS_FACTOR : float := 0x1.999999999999ap-4%float.

(** The closure variables of [gridController]. *)
Record Spot : Type := mkSpot {
  mouseX : float;
  mouseY : float;
  spotX : float;
  spotY : float;
  radius : float;
  targetRadius : float
}.

(** [smoothed += (target - smoothed) * factor]. *)
Definition smooth (factor smoothed target : float) : float :=
  (smoothed + (target - smoothed) * factor)%float.

(** One animation frame of [updateMask] (the three custom properties it
    writes are [spotX], [spotY] and [radius] themselves).  [handleMouse], which
    sets [mouseX], [mouseY] and [targetRadius], is not needed below: the
    pointer rests. *)
Definition updateMask (s : Spot) : Spot :=
  let spotX' := smooth CENTER_FACTOR (spotX s) (mouseX s) in
  let spotY' := smooth CENTER_FACTOR (spotY s) (mouseY s) in
  let radius' := smooth RADIUS_FACTOR (radius s) (targetRadius s) in
  mkSpot (mouseX s) (mouseY s) spotX' spotY' radius' (targetRadius s).

Fixpoint frames (n : nat) (s : Spot) : Spot :=
  match n with
  | O => s
  | S k => frames k (updateMask s)
  end.



(** ** The same step in exact arithmetic *)



End Spotlight.

(* ===================================================================== *)
(** * The host's JSON.parse *)
(* ===================================================================== *)

Module Json.

(** A parsed JSON value.  A number keeps its lexeme: nothing here computes
    with it. *)
#[local] Unset Elimination Schemes.
Inductive json : Type :=
| JNull
| JBool (b : bool)
| JNum (lexeme : string)
| JStr (s : string)
| JArr (items : list json)
| JObj (members : list (string * json)).
#[local] Set Elimination Schemes.

(** What a parsing function does with its input: a value and the text left
    over, or a [SyntaxError].  [BeyondLatin1] marks a <<\uXXXX>> escape of a
    code unit above 255, which a [string] cannot hold, and [OutOfFuel] the
    exhaustion of the recursion budget. *)
Inductive outcome (A : Type) : Type :=
| Parsed (a : A) (rest : string)
| SyntaxError
| BeyondLatin1
| OutOfFuel.
Arguments Parsed {A} a rest.
Arguments SyntaxError {A}.
Arguments BeyondLatin1 {A}.
Arguments OutOfFuel {A}.

Definition omap {A B : Type} (f : A -> B) (o : outcome A) : outcome B :=
  match o with
  | Parsed a rest => Parsed (f a) rest
  | SyntaxError => SyntaxError
  | BeyondLatin1 => BeyondLatin1
  | OutOfFuel => OutOfFuel
  end.

(** The double quote, character 34. *)
Definition dquote : ascii := "034"%char.

Definition is_ws (c : ascii) : bool :=
  let n := nat_of_ascii c in
  ((n =? 32) || (n =? 9) || (n =? 10) || (n =? 13))%nat.

Fixpoint skip_ws (s : string) : string :=
  match s with
  | String c rest => if is_ws c then skip_ws rest else s
  | EmptyString => s
  end.

Definition is_digit (c : ascii) : bool :=
  let n := nat_of_ascii c in ((48 <=? n) && (n <=? 57))%nat.

Definition hex_value (c : ascii) : option nat :=
  let n := nat_of_ascii c in
  if ((48 <=? n) && (n <=? 57))%nat then Some (n - 48)%nat
  else if ((65 <=? n) && (n <=? 70))%nat then Some (n - 55)%nat
  else if ((97 <=? n) && (n <=? 102))%nat then Some (n - 87)%nat
  else None.

Definition hex4 (h1 h2 h3 h4 : ascii) : option nat :=
  match hex_value h1, hex_value h2, hex_value h3, hex_value h4 with
  | Some a, Some b, Some c, Some d => Some (((a * 16 + b) * 16 + c) * 16 + d)%nat
  | _, _, _, _ => None
  end.

(** The longest run of digits at the head of [s], and what follows it. *)
Fixpoint take_digits (s : string) : string * string :=
  match s with
  | String c rest =>
      if is_digit c
      then let '(d, r) := take_digits rest in (String c d, r)
      else (EmptyString, s)
  | EmptyString => (EmptyString, EmptyString)
  end.

(** The optional fraction: a dot and at least one digit. *)
Definition parse_frac (s : string) : option (string * string) :=
  match s with
  | String c r =>
      if Ascii.eqb c "." then
        let '(d, r') := take_digits r in
        if (String.length d =? 0)%nat then None else Some (String c d, r')
      else Some (EmptyString, s)
  | EmptyString => Some (EmptyString, s)
  end.

(** The optional exponent: e or E, an optional sign, at least one digit. *)
Definition parse_exp (s : string) : option (string * string) :=
  match s with
  | String e r =>
      if (Ascii.eqb e "e" || Ascii.eqb e "E")%bool then
        let '(sign, r1) :=
          match r with
          | String c r1 =>
              if (Ascii.eqb c "+" || Ascii.eqb c "-")%bool
              then (String c EmptyString, r1) else (EmptyString, r)
          | EmptyString => (EmptyString, r)
          end in
        let '(d, r2) := take_digits r1 in
        if (String.length d =? 0)%nat then None
        else Some (String e (sign +:+ d), r2)
      else Some (EmptyString, s)
  | EmptyString => Some (EmptyString, s)
  end.

(** A number: an optional minus sign, then 0 or a digit from 1 to 9 and
    more digits, then an optional fraction and an optional exponent. *)
Definition parse_number (s : string) : outcome string :=
  let '(sign, s1) :=
    match s with
    | String c r =>
        if Ascii.eqb c "-" then (String c EmptyString, r) else (EmptyString, s)
    | EmptyString => (EmptyString, s)
    end in
  match s1 with
  | String c r1 =>
      if is_digit c then
        let '(int, s2) :=
          if Ascii.eqb c "0" then (String c EmptyString, r1)
          else let '(d, r) := take_digits r1 in (String c d, r) in
        match parse_frac s2 with
        | Some (frac, s3) =>
            match parse_exp s3 with
            | Some (exp, s4) => Parsed (sign +:+ int +:+ frac +:+ exp) s4
            | None => SyntaxError
            end
        | None => SyntaxError
        end
      else SyntaxError
  | EmptyString => SyntaxError
  end.

(** The characters of a string literal after its opening quote, decoded. *)
Fixpoint parse_string_body (s : string) : outcome string :=
  match s with
  | EmptyString => SyntaxError
  | String c rest =>
      if Ascii.eqb c dquote then Parsed EmptyString rest
      else if Ascii.eqb c "\" then
        match rest with
        | EmptyString => SyntaxError
        | String e rest1 =>
            if (Ascii.eqb e dquote || Ascii.eqb e "\" || Ascii.eqb e "/")%bool
            then omap (String e) (parse_string_body rest1)
            else if Ascii.eqb e "b" then omap (String "008") (parse_string_body rest1)
            else if Ascii.eqb e "f" then omap (String "012") (parse_string_body rest1)
            else if Ascii.eqb e "n" then omap (String "010") (parse_string_body rest1)
            else if Ascii.eqb e "r" then omap (String "013") (parse_string_body rest1)
            else if Ascii.eqb e "t" then omap (String "009") (parse_string_body rest1)
            else if Ascii.eqb e "u" then
              match rest1 with
              | String h1 (String h2 (String h3 (String h4 rest2))) =>
                  match hex4 h1 h2 h3 h4 with
                  | Some n =>
                      if (n <? 256)%nat
                      then omap (String (ascii_of_nat n)) (parse_string_body rest2)
                      else BeyondLatin1
                  | None => SyntaxError
                  end
              | _ => SyntaxError
              end
            else SyntaxError
        end
      else if (nat_of_ascii c <? 32)%nat then SyntaxError
      else omap (String c) (parse_string_body rest)
  end.

Definition parse_literal (word : string) (v : json) (s : string) : outcome json :=
  if String.prefix word s
  then Parsed v (substring (String.length word) (String.length s - String.length word) s)
  else SyntaxError.

(** The recursive descent: a value; the rest of an array after "[" or ",";
    the rest of an object after "{" or ",".  Every call spends one unit of
    fuel. *)
Fixpoint parse_value (fuel : nat) (s : string) : outcome json :=
  match fuel with
  | O => OutOfFuel
  | S fuel' =>
      match skip_ws s with
      | EmptyString => SyntaxError
      | String c rest =>
          if Ascii.eqb c "[" then
            match skip_ws rest with
            | String c' rest' =>
                if Ascii.eqb c' "]" then Parsed (JArr []) rest'
                else parse_elements fuel' rest []
            | EmptyString => parse_elements fuel' rest []
            end
          else if Ascii.eqb c "{" then
            match skip_ws rest with
            | String c' rest' =>
                if Ascii.eqb c' "}" then Parsed (JObj []) rest'
                else parse_members fuel' rest []
            | EmptyString => parse_members fuel' rest []
            end
          else if Ascii.eqb c dquote then omap JStr (parse_string_body rest)
          else if Ascii.eqb c "t" then parse_literal "true" (JBool true) (String c rest)
          else if Ascii.eqb c "f" then parse_literal "false" (JBool false) (String c rest)
          else if Ascii.eqb c "n" then parse_literal "null" JNull (String c rest)
          else omap JNum (parse_number (String c rest))
      end
  end
with parse_elements (fuel : nat) (s : string) (acc : list json) : outcome json :=
  match fuel with
  | O => OutOfFuel
  | S fuel' =>
      match parse_value fuel' s with
      | Parsed v rest =>
          match skip_ws rest with
          | String c rest' =>
              if Ascii.eqb c "," then parse_elements fuel' rest' (v :: acc)
              else if Ascii.eqb c "]" then Parsed (JArr (rev (v :: acc))) rest'
              else SyntaxError
          | EmptyString => SyntaxError
          end
      | SyntaxError => SyntaxError
      | BeyondLatin1 => BeyondLatin1
      | OutOfFuel => OutOfFuel
      end
  end
with parse_members (fuel : nat) (s : string) (acc : list (string * json)) : outcome json :=
  match fuel with
  | O => OutOfFuel
  | S fuel' =>
      match skip_ws s with
      | String c rest =>
          if negb (Ascii.eqb c dquote) then SyntaxError else
          match parse_string_body rest with
          | Parsed key rest1 =>
              match skip_ws rest1 with
              | String colon rest2 =>
                  if negb (Ascii.eqb colon ":") then SyntaxError else
                  match parse_value fuel' rest2 with
                  | Parsed v rest3 =>
                      match skip_ws rest3 with
                      | String c' rest' =>
                          if Ascii.eqb c' ","
                          then parse_members fuel' rest' ((key, v) :: acc)
                          else if Ascii.eqb c' "}"
                          then Parsed (JObj (rev ((key, v) :: acc))) rest'
                          else SyntaxError
                      | EmptyString => SyntaxError
                      end
                  | SyntaxError => SyntaxError
                  | BeyondLatin1 => BeyondLatin1
                  | OutOfFuel => OutOfFuel
                  end
              | EmptyString => SyntaxError
              end
          | SyntaxError => SyntaxError
          | BeyondLatin1 => BeyondLatin1
          | OutOfFuel => OutOfFuel
          end
      | EmptyString => SyntaxError
      end
  end.

(** [JSON.parse(text)]: one value, and nothing but white space after it. *)
Definition JSON_parse (text : string) : outcome json :=
  match parse_value (S (2 * String.length text)) text with
  | Parsed v rest =>
      match skip_ws rest with
      | EmptyString => Parsed v EmptyString
      | String _ _ => SyntaxError
      end
  | SyntaxError => SyntaxError
  | BeyondLatin1 => BeyondLatin1
  | OutOfFuel => OutOfFuel
  end.

End Json.

(* ===================================================================== *)
(** * Typewriter *)
(* ===================================================================== *)

Module Typewriter.

Import Json.

(** What [initTypewriter] reads of an element: its two attributes
    ([getAttribute] gives [null] for a missing one), the text of its first
    <<span>> descendant when it has one, and its own text. *)
Record Element : Type := mkElement {
  data_texts : option string;
  data_loop : option string;
  span : option string;
  own_text : string
}.

(** The closure of one [initTypewriter] call: the variables [tick] reads and
    writes, the [textContent] of [textDisplayEl], and the delay of the
    [setTimeout(tick, _)] that is pending, if one is. *)
Record Machine : Type := mkMachine {
  texts : list string;
  loop : bool;
  textIndex : nat;
  charIndex : nat;
  isTyping : bool;
  textContent : string;
  timer : option nat
}.

Definition TYPING_SPEED : nat := 120.
Definition DELETING_SPEED : nat := 60.
Definition PAUSE_AFTER_TYPE : nat := 1200.
Definition PAUSE_AFTER_DELETE : nat := 500.

(** [s.charAt(i)]: the empty string when [i] is out of range. *)
Definition charAt (i : nat) (s : string) : string :=
  match String.get i s with
  | Some c => String c EmptyString
  | None => EmptyString
  end.

(** [texts[textIndex] || ""]. *)
Definition currentText (m : Machine) : string :=
  nth (textIndex m) (texts m) EmptyString.

(** <<
    const tick = () => {
      const currentText = texts[textIndex] || "";
      if (isTyping) {
        if (charIndex < currentText.length) {
          textDisplayEl.textContent += currentText.charAt(charIndex++);
          setTimeout(tick, TYPING_SPEED);
        } else {
          isTyping = false;
          setTimeout(tick, PAUSE_AFTER_TYPE);
        }
      } else {
        if (charIndex > 0) {
          textDisplayEl.textContent = currentText.substring(0, --charIndex);
          setTimeout(tick, DELETING_SPEED);
        } else {
          isTyping = true;
          textIndex = (textIndex + 1) % texts.length;
          if (!loop && textIndex === 0) return;
          setTimeout(tick, PAUSE_AFTER_DELETE);
        }
      }
    };
    >>
    The timer that called [tick] has fired, so [timer] is overwritten in
    every branch. *)
Definition tick (m : Machine) : Machine :=
  let cur := currentText m in
  if isTyping m then
    if (charIndex m <? String.length cur)%nat then
      mkMachine (texts m) (loop m) (textIndex m) (S (charIndex m)) true
                (textContent m +:+ charAt (charIndex m) cur)
                (Some TYPING_SPEED)
    else
      mkMachine (texts m) (loop m) (textIndex m) (charIndex m) false
                (textContent m) (Some PAUSE_AFTER_TYPE)
  else
    if (0 <? charIndex m)%nat then
      mkMachine (texts m) (loop m) (textIndex m) (charIndex m - 1) false
                (substring 0 (charIndex m - 1) cur)
                (Some DELETING_SPEED)
    else
      let textIndex' := ((textIndex m + 1) mod List.length (texts m))%nat in
      mkMachine (texts m) (loop m) textIndex' (charIndex m) true
                (textContent m)
                (if (negb (loop m) && (textIndex' =? 0)%nat)%bool
                 then None else Some PAUSE_AFTER_DELETE).

(** The host runs a pending timer's callback; without one, nothing runs. *)
Definition fire (m : Machine) : Machine :=
  match timer m with
  | Some _ => tick m
  | None => m
  end.

Fixpoint run (k : nat) (m : Machine) : Machine :=
  match k with
  | O => m
  | S k' => run k' (fire m)
  end.

(** The contents the element shows after each of the next [k] timers. *)
Fixpoint shown (k : nat) (m : Machine) : list string :=
  match k with
  | O => []
  | S k' => textContent (fire m) :: shown k' (fire m)
  end.

(** Whether the next timer deletes a character (the branch that assigns
    [textContent]). *)
Definition deletes_next (m : Machine) : bool :=
  match timer m with
  | Some _ => (negb (isTyping m) && (0 <? charIndex m)%nat)%bool
  | None => false
  end.

(** Whether one of the next [k] timers deletes a character. *)
Fixpoint deleted_within (k : nat) (m : Machine) : bool :=
  match k with
  | O => false
  | S k' => (deletes_next m || deleted_within k' (fire m))%bool
  end.

(** The machine [m] on an element showing [c] instead. *)
Definition with_text (c : string) (m : Machine) : Machine :=
  mkMachine (texts m) (loop m) (textIndex m) (charIndex m) (isTyping m) c (timer m).

(** The machine [e], had the element shown [c0] in front of its text. *)
Definition after_initial (c0 : string) (e : Machine) : Machine :=
  with_text (c0 +:+ textContent e) e.

(** The closure right after the direct call [tick()] that ends
    [initTypewriter]. *)
Definition start (texts : list string) (loop : bool) (content : string) : Machine :=
  tick (mkMachine texts loop 0 0 true content None).

Inductive Error : Type :=
| SyntaxError_thrown
| TypeError_thrown.

(** How a call of [initTypewriter] ends.  [Disabled] is the early [return]:
    no closure, no timer, the element untouched.  [NotModelled] covers the
    values of [texts] for which [tick] is not embedded here: valid JSON that
    is not an array of strings. *)
Inductive init_result : Type :=
| Threw (e : Error)
| Disabled
| Started (m : Machine)
| NotModelled.

Fixpoint strings_of (items : list json) : option (list string) :=
  match items with
  | [] => Some []
  | JStr s :: rest =>
      match strings_of rest with
      | Some l => Some (s :: l)
      | None => None
      end
  | _ :: _ => None
  end.

(** [el.getAttribute("data-texts") || "[]"]: [null] and the empty string
    are the falsy cases. *)
Definition texts_source (el : Element) : string :=
  match data_texts el with
  | Some (String c t) => String c t
  | Some EmptyString | None => "[]"
  end.

(** [el.querySelector('span') || el], as the text it holds. *)
Definition display_text (el : Element) : string :=
  match span el with
  | Some t => t
  | None => own_text el
  end.

(** <<
    const initTypewriter = (el) => {
      const texts = JSON.parse(el.getAttribute("data-texts") || "[]");
      const loop = el.getAttribute("data-loop") === "true";
      if (texts.length === 0) return;
      const textDisplayEl = el.querySelector('span') || el;
      ...
      tick();
    };
    >> *)
Definition initTypewriter (el : Element) : init_result :=
  match JSON_parse (texts_source el) with
  | Json.SyntaxError => Threw SyntaxError_thrown
  | Parsed JNull _ => Threw TypeError_thrown
  | Parsed (JArr items) _ =>
      let loop :=
        match data_loop el with
        | Some v => String.eqb v "true"
        | None => false
        end in
      match strings_of items with
      | Some [] => Disabled
      | Some (t :: ts) => Started (start (t :: ts) loop (display_text el))
      | None => NotModelled
      end
  | Parsed _ _ | BeyondLatin1 | OutOfFuel => NotModelled
  end.

(** The text the element shows once [initTypewriter] is over, however it
    ended. *)
Definition text_after_init (el : Element) : string :=
  match initTypewriter el with
  | Started m => textContent m
  | _ => display_text el
  end.

(** <<
    document.addEventListener("DOMContentLoaded", () => {
      document.querySelectorAll(".typewriter").forEach(initTypewriter);
    });
    >>
    An exception thrown by one call ends the [forEach]: the elements after it
    are never initialised, and the exception leaves the listener. *)
Fixpoint onDOMContentLoaded (els : list Element) : list init_result * option Error :=
  match els with
  | [] => ([], None)
  | el :: rest =>
      match initTypewriter el with
      | Threw e => ([], Some e)
      | r => let '(rs, e) := onDOMContentLoaded rest in (r :: rs, e)
      end
  end.

(** Sample elements. *)
Definition quoted (s : string) : string :=
  String dquote s +:+ String dquote EmptyString.

Definition el_malformed : Element :=
  mkElement (Some "[Hi, there]") (Some "true") None "".

Definition el_hi : Element :=
  mkElement (Some ("[" +:+ quoted "Hi" +:+ "]")) (Some "false") None "".

Definition el_hello : Element :=
  mkElement (Some ("[" +:+ quoted "lo" +:+ "]")) (Some "false") (Some "Hel") "".

(** ** One pass over the text list *)

(** The ticks one string takes: its characters typed, a pause, its
    characters deleted, and the tick that moves on. *)
Definition text_ticks (t : string) : nat := 2 * String.length t + 2.

Definition cycle_ticks (ts : list string) : nat :=
  fold_right (fun t n => (text_ticks t + n)%nat) 0%nat ts.

(** What the element shows once [t] has been typed and deleted, when it
    showed [c] before: nothing, unless [t] is empty and nothing was typed. *)
Definition after_text (c t : string) : string :=
  match String.length t with
  | O => c
  | S _ => EmptyString
  end.

Definition after_texts (c : string) (ts : list string) : string :=
  fold_left after_text ts c.

(** What the element shows after each tick spent on [t]. *)
Definition text_trace (c t : string) : list string :=
  let n := String.length t in
  (map (fun j => c +:+ substring 0 j t) (seq 1 n)
   ++ [c +:+ t]
   ++ map (fun j => substring 0 (n - j) t) (seq 1 n)
   ++ [after_text c t])%list.

Fixpoint texts_trace (c : string) (ts : list string) : list string :=
  match ts with
  | [] => []
  | t :: rest => (text_trace c t ++ texts_trace (after_text c t) rest)%list
  end.

(** The element shows the first [charIndex] characters of the current
    string, and both indices are in range. *)
Definition shows_prefix (m : Machine) : Prop :=
  (textIndex m < List.length (texts m))%nat
  /\ (charIndex m <= String.length (currentText m))%nat
  /\ textContent m = substring 0 (charIndex m) (currentText m).

End Typewriter.

(* ===================================================================== *)
(** * Music player and team cards *)
(* ===================================================================== *)

Module Player.

Import Time.

(** Cards are numbered in document order, [Audio] objects in the order of
    their creation. *)
Abbreviation CardId := nat (only parsing).
Abbreviation AudioId := nat (only parsing).

(** A <<.card>> element: its class list and its <<data-music>> attribute. *)
Record Card : Type := mkCard {
  classList : gset string;
  data_music : option string
}.

(** An [Audio] object of the host.  Positions are whole seconds; the
    duration is [NaN] until the metadata is loaded.  [listening] tells whether
    [playCardMusic] got as far as attaching its two listeners. *)
Record Audio : Type := mkAudio {
  src : string;
  volume : Q;
  paused : bool;
  currentTime : Z;
  duration : jsnum;
  listening : bool
}.

(** The <<#progress-bar>> range input. *)
Record ProgressBar : Type := mkProgressBar {
  max : Z;
  value : Q
}.

(** What a [setTimeout] callback of this controller does. *)
Inductive TimerAction : Type :=
| AddClass (card : CardId) (cls : string)
| RemoveClass (card : CardId) (cls : string).

Inductive Error : Type :=
| TypeError (what : string)
| OutOfFuel.

(** The glyphs of the play/pause button, kept as the bytes of their UTF-8
    encoding. *)
Definition GLYPH_PLAY : string := "▶".
Definition GLYPH_PAUSE : string := "⏸".

(** Everything the handlers read and write: the elements looked up when the
    controller starts, the three closure variables, and the host's side: the
    heap of [Audio] objects, the autoplay policy, the clock with the pending
    timers, the pending animation frames, the console and the exceptions no
    handler caught. *)
Record State : Type := mkState {
  musicPlayer : gset string;
  playPauseBtn : string;
  progressBar : option ProgressBar;
  timeDisplay : option string;
  songTitle : option string;
  cards : gmap CardId Card;
  currentAudio : option AudioId;
  isPlaying : bool;
  activeCard : option CardId;
  audios : list Audio;
  autoplay : bool;
  clock : nat;
  timers : list (nat * TimerAction);
  frames : nat;
  console : list string;
  uncaught : list Error
}.

Definition set_musicPlayer (v : gset string) (s : State) : State :=
  mkState v (playPauseBtn s) (progressBar s) (timeDisplay s) (songTitle s)
    (cards s) (currentAudio s) (isPlaying s) (activeCard s) (audios s)
    (autoplay s) (clock s) (timers s) (frames s) (console s) (uncaught s).

Definition set_playPauseBtn (v : string) (s : State) : State :=
  mkState (musicPlayer s) v (progressBar s) (timeDisplay s) (songTitle s)
    (cards s) (currentAudio s) (isPlaying s) (activeCard s) (audios s)
    (autoplay s) (clock s) (timers s) (frames s) (console s) (uncaught s).

Definition set_progressBar (v : option ProgressBar) (s : State) : State :=
  mkState (musicPlayer s) (playPauseBtn s) v (timeDisplay s) (songTitle s)
    (cards s) (currentAudio s) (isPlaying s) (activeCard s) (audios s)
    (autoplay s) (clock s) (timers s) (frames s) (console s) (uncaught s).

Definition set_timeDisplay (v : option string) (s : State) : State :=
  mkState (musicPlayer s) (playPauseBtn s) (progressBar s) v (songTitle s)
    (cards s) (currentAudio s) (isPlaying s) (activeCard s) (audios s)
    (autoplay s) (clock s) (timers s) (frames s) (console s) (uncaught s).

Definition set_songTitle (v : option string) (s : State) : State :=
  mkState (musicPlayer s) (playPauseBtn s) (progressBar s) (timeDisplay s) v
    (cards s) (currentAudio s) (isPlaying s) (activeCard s) (audios s)
    (autoplay s) (clock s) (timers s) (frames s) (console s) (uncaught s).

Definition set_cards (v : gmap CardId Card) (s : State) : State :=
  mkState (musicPlayer s) (playPauseBtn s) (progressBar s) (timeDisplay s)
    (songTitle s) v (currentAudio s) (isPlaying s) (activeCard s) (audios s)
    (autoplay s) (clock s) (timers s) (frames s) (console s) (uncaught s).

Definition set_currentAudio (v : option AudioId) (s : State) : State :=
  mkState (musicPlayer s) (playPauseBtn s) (progressBar s) (timeDisplay s)
    (songTitle s) (cards s) v (isPlaying s) (activeCard s) (audios s)
    (autoplay s) (clock s) (timers s) (frames s) (console s) (uncaught s).

Definition set_isPlaying (v : bool) (s : State) : State :=
  mkState (musicPlayer s) (playPauseBtn s) (progressBar s) (timeDisplay s)
    (songTitle s) (cards s) (currentAudio s) v (activeCard s) (audios s)
    (autoplay s) (clock s) (timers s) (frames s) (console s) (uncaught s).

Definition set_activeCard (v : option CardId) (s : State) : State :=
  mkState (musicPlayer s) (playPauseBtn s) (progressBar s) (timeDisplay s)
    (songTitle s) (cards s) (currentAudio s) (isPlaying s) v (audios s)
    (autoplay s) (clock s) (timers s) (frames s) (console s) (uncaught s).

Definition set_audios (v : list Audio) (s : State) : State :=
  mkState (musicPlayer s) (playPauseBtn s) (progressBar s) (timeDisplay s)
    (songTitle s) (cards s) (currentAudio s) (isPlaying s) (activeCard s) v
    (autoplay s) (clock s) (timers s) (frames s) (console s) (uncaught s).

Definition set_clock (v : nat) (s : State) : State :=
  mkState (musicPlayer s) (playPauseBtn s) (progressBar s) (timeDisplay s)
    (songTitle s) (cards s) (currentAudio s) (isPlaying s) (activeCard s)
    (audios s) (autoplay s) v (timers s) (frames s) (console s) (uncaught s).

Definition set_timers (v : list (nat * TimerAction)) (s : State) : State :=
  mkState (musicPlayer s) (playPauseBtn s) (progressBar s) (timeDisplay s)
    (songTitle s) (cards s) (currentAudio s) (isPlaying s) (activeCard s)
    (audios s) (autoplay s) (clock s) v (frames s) (console s) (uncaught s).

Definition set_frames (v : nat) (s : State) : State :=
  mkState (musicPlayer s) (playPauseBtn s) (progressBar s) (timeDisplay s)
    (songTitle s) (cards s) (currentAudio s) (isPlaying s) (activeCard s)
    (audios s) (autoplay s) (clock s) (timers s) v (console s) (uncaught s).

Definition set_console (v : list string) (s : State) : State :=
  mkState (musicPlayer s) (playPauseBtn s) (progressBar s) (timeDisplay s)
    (songTitle s) (cards s) (currentAudio s) (isPlaying s) (activeCard s)
    (audios s) (autoplay s) (clock s) (timers s) (frames s) v (uncaught s).

Definition set_uncaught (v : list Error) (s : State) : State :=
  mkState (musicPlayer s) (playPauseBtn s) (progressBar s) (timeDisplay s)
    (songTitle s) (cards s) (currentAudio s) (isPlaying s) (activeCard s)
    (audios s) (autoplay s) (clock s) (timers s) (frames s) (console s) v.

(** ** Handlers as state transformers that may throw *)

Inductive Result (A : Type) : Type :=
| Return (a : A) (s : State)
| Throw (e : Error) (s : State).
Arguments Return {A} a s.
Arguments Throw {A} e s.

Definition M (A : Type) : Type := State -> Result A.

Definition ret {A : Type} (a : A) : M A := fun s => Return a s.

Definition bind {A B : Type} (m : M A) (k : A -> M B) : M B :=
  fun s =>
    match m s with
    | Return a s' => k a s'
    | Throw e s' => Throw e s'
    end.

Definition throw {A : Type} (e : Error) : M A := fun s => Throw e s.

(** A step that cannot throw. *)
Definition modify (f : State -> State) : M unit := fun s => Return tt (f s).

Notation "m1 >>> m2" := (bind m1 (fun _ => m2))
  (at level 100, m2 at level 200, right associativity).

Definition state_of {A : Type} (r : Result A) : State :=
  match r with
  | Return _ s => s
  | Throw _ s => s
  end.

(** ** The DOM and the host *)

Definition HIDDEN : string := "hidden".
Definition ANIMATE : string := "animate".
Definition SHOW_TEXT : string := "show-text".
Definition CLOSING : string := "closing".

(** [card.classList] of a card of the page. *)
Definition classes (card : CardId) (s : State) : gset string :=
  match cards s !! card with
  | Some k => classList k
  | None => ∅
  end.

Definition contains (card : CardId) (cls : string) (s : State) : bool :=
  bool_decide (cls ∈ classes card s).

(** [card.getAttribute("data-music")]. *)
Definition getAttribute_data_music (card : CardId) (s : State) : option string :=
  match cards s !! card with
  | Some k => data_music k
  | None => None
  end.

Definition classList_add (card : CardId) (cls : string) (s : State) : State :=
  set_cards
    (alter (fun k => mkCard ({[cls]} ∪ classList k) (data_music k)) card (cards s)) s.

Definition classList_remove (card : CardId) (cls : string) (s : State) : State :=
  set_cards
    (alter (fun k => mkCard (classList k ∖ {[cls]}) (data_music k)) card (cards s)) s.

(** [setTimeout]: the callback joins the queue behind every timer that is
    due no later than it. *)
Fixpoint enqueue (entry : nat * TimerAction) (queue : list (nat * TimerAction))
  : list (nat * TimerAction) :=
  match queue with
  | [] => [entry]
  | e :: queue' =>
      if (fst e <=? fst entry)%nat then e :: enqueue entry queue'
      else entry :: e :: queue'
  end.

Definition setTimeout (action : TimerAction) (delay : nat) (s : State) : State :=
  set_timers (enqueue ((clock s + delay)%nat, action) (timers s)) s.

Definition run_timer (s : State) (entry : nat * TimerAction) : State :=
  match snd entry with
  | AddClass card cls => classList_add card cls s
  | RemoveClass card cls => classList_remove card cls s
  end.

(** [dt] milliseconds go by: the timers due by then run, in order. *)
Definition elapse (dt : nat) (s : State) : State :=
  let now := (clock s + dt)%nat in
  let due := filter (fun e => fst e <=? now)%nat (timers s) in
  let later := filter (fun e => negb (fst e <=? now)%nat) (timers s) in
  fold_left run_timer due (set_clock now (set_timers later s)).

(** Assignments to the fields of one [Audio] object of the heap. *)
Definition update_audio (i : AudioId) (f : Audio -> Audio) (s : State) : State :=
  set_audios (alter f i (audios s)) s.

Definition audio_pause (a : Audio) : Audio :=
  mkAudio (src a) (volume a) true (currentTime a) (duration a) (listening a).

Definition audio_set_currentTime (t : Z) (a : Audio) : Audio :=
  mkAudio (src a) (volume a) (paused a) t (duration a) (listening a).

Definition audio_set_volume (v : Q) (a : Audio) : Audio :=
  mkAudio (src a) v (paused a) (currentTime a) (duration a) (listening a).

Definition audio_set_duration (d : jsnum) (a : Audio) : Audio :=
  mkAudio (src a) (volume a) (paused a) (currentTime a) d (listening a).

Definition audio_listen (a : Audio) : Audio :=
  mkAudio (src a) (volume a) (paused a) (currentTime a) (duration a) true.

(** [audio.play()]: playback starts if the host's autoplay policy allows
    it; otherwise the object stays paused and the promise is rejected. *)
Definition audio_play (allowed : bool) (a : Audio) : Audio :=
  mkAudio (src a) (volume a) (if allowed then false else paused a)
    (currentTime a) (duration a) (listening a).

(** [new Audio(src)]: a fresh object at the end of the heap. *)
Definition new_Audio (musicSrc : string) : Audio :=
  mkAudio musicSrc 1 true 0 NaN false.

(** [musicSrc.split("/").pop()]: what follows the last slash. *)
Fixpoint last_segment_from (acc s : string) : string :=
  match s with
  | EmptyString => acc
  | String c rest =>
      if Ascii.eqb c "/" then last_segment_from EmptyString rest
      else last_segment_from (acc +:+ String c EmptyString) rest
  end.

Definition last_segment (s : string) : string := last_segment_from EmptyString s.

(** ** The controller *)

(** <<
    const stopAndHidePlayer = () => {
      if (currentAudio) {
        currentAudio.pause();
        currentAudio.currentTime = 0;
        currentAudio = null;
      }
      musicPlayer.classList.add("hidden");
      isPlaying = false;
      playPauseBtn.textContent = "▶";
      activeCard = null;
    };
    >> *)
Definition stopAndHidePlayer (s : State) : State :=
  let s1 :=
    match currentAudio s with
    | Some i =>
        set_currentAudio None
          (update_audio i (audio_set_currentTime 0)
             (update_audio i audio_pause s))
    | None => s
    end in
  set_activeCard None
    (set_playPauseBtn GLYPH_PLAY
       (set_isPlaying false
          (set_musicPlayer ({[HIDDEN]} ∪ musicPlayer s1) s1))).

(** [(currentAudio.currentTime / currentAudio.duration) * 100 || 0]. *)
Definition progress_or_0 (a : Audio) : Q :=
  match duration a with
  | Num d => if d =? 0 then 0%Q else ((100 * currentTime a) # 1) / (d # 1)
  | NaN => 0%Q
  end.

(** <<
    const updateProgress = () => {
      if (currentAudio && isPlaying) {
        const progress = (currentAudio.currentTime / currentAudio.duration) * 100;
        progressBar.value = progress || 0;
        timeDisplay.textContent =
          `${formatTime(currentAudio.currentTime)} / ${formatTime(currentAudio.duration)}`;
        window.requestAnimationFrame(updateProgress);
      }
    };
    >>
    Assigning to a property of [null] throws a [TypeError]. *)
Definition updateProgress : M unit :=
  fun s =>
    match currentAudio s with
    | Some i =>
        if isPlaying s then
          match audios s !! i with
          | Some a =>
              match progressBar s with
              | None => Throw (TypeError "progressBar is null") s
              | Some bar =>
                  let s1 := set_progressBar
                              (Some (mkProgressBar (max bar) (progress_or_0 a))) s in
                  match timeDisplay s1 with
                  | None => Throw (TypeError "timeDisplay is null") s1
                  | Some _ =>
                      let label := formatTime (Num (currentTime a)) +:+ " / "
                                   +:+ formatTime (duration a) in
                      Return tt
                        (set_frames (S (frames s1))
                           (set_timeDisplay (Some label) s1))
                  end
              end
          | None => Return tt s
          end
        else Return tt s
    | None => Return tt s
    end.

(** Lines 349 to 355 of [playCardMusic]:
    <<
      currentAudio = new Audio(musicSrc);
      currentAudio.volume = 0.5;
      currentAudio.play().catch(err => console.error("Autoplay blocked:", err));
      isPlaying = true;
      musicPlayer.classList.remove("hidden");
    >>
    The rejection of [play()] is logged here rather than a moment later. *)
Definition start_track (musicSrc : string) (s : State) : State :=
  let i := List.length (audios s) in
  let s1 := set_currentAudio (Some i)
              (set_audios (audios s ++ [new_Audio musicSrc]) s) in
  let s2 := update_audio i (audio_set_volume (1 # 2)) s1 in
  let s3 := update_audio i (audio_play (autoplay s2)) s2 in
  let s4 := if autoplay s3 then s3
            else set_console (console s3 ++ ["Autoplay blocked:"]) s3 in
  let s5 := set_isPlaying true s4 in
  set_musicPlayer (musicPlayer s5 ∖ {[HIDDEN]}) s5.

(** [songTitle.textContent = text]: a [TypeError] when [songTitle] is
    [null]. *)
Definition set_songTitle_text (text : string) : M unit :=
  fun s =>
    match songTitle s with
    | None => Throw (TypeError "songTitle is null") s
    | Some _ => Return tt (set_songTitle (Some text) s)
    end.

(** The two [currentAudio.addEventListener] calls. *)
Definition attach_listeners (s : State) : State :=
  match currentAudio s with
  | Some i => update_audio i audio_listen s
  | None => s
  end.

(** Lines 356 to 370 of [playCardMusic]: the title, the glyph, the
    listeners and the first [updateProgress]. *)
Definition finish_track (musicSrc : string) : M unit :=
  set_songTitle_text (last_segment musicSrc) >>>
  modify (set_playPauseBtn GLYPH_PAUSE) >>>
  modify attach_listeners >>>
  updateProgress.

(** <<
    const playCardMusic = (card, musicSrc) => {
      stopAndHidePlayer();
      activeCard = card;
      currentAudio = new Audio(musicSrc);
      currentAudio.volume = 0.5;
      currentAudio.play().catch(err => console.error("Autoplay blocked:", err));
      isPlaying = true;
      musicPlayer.classList.remove("hidden");
      songTitle.textContent = musicSrc.split("/").pop();
      playPauseBtn.textContent = "⏸";
      currentAudio.addEventListener("loadedmetadata", ...);
      currentAudio.addEventListener("ended", ...);
      updateProgress();
    };
    >> *)
Definition playCardMusic (card : CardId) (musicSrc : string) : M unit :=
  fun s =>
    finish_track musicSrc
      (start_track musicSrc
         (set_activeCard (Some card)
            (stopAndHidePlayer s))).

(** The else branch of [handleCardClick]: what the spec calls [closeCard].
    <<
      stopAndHidePlayer();
      card.classList.remove("show-text");
      card.classList.remove("animate");
      card.classList.add("closing");
      setTimeout(() => { card.classList.remove("closing"); }, 1000);
    >> *)
Definition closeCard (card : CardId) (s : State) : State :=
  setTimeout (RemoveClass card CLOSING) 1000
    (classList_add card CLOSING
       (classList_remove card ANIMATE
          (classList_remove card SHOW_TEXT
             (stopAndHidePlayer s)))).

(** What [closeCard] does to the classes of its card. *)
Definition closed (k : Card) : Card :=
  mkCard ({[CLOSING]} ∪ ((classList k ∖ {[SHOW_TEXT]}) ∖ {[ANIMATE]}))
    (data_music k).

(** A [data-music] value that passes [if (musicSrc)]. *)
Definition truthy (attr : option string) : option string :=
  match attr with
  | Some (String c rest) => Some (String c rest)
  | Some EmptyString | None => None
  end.

(** The open branch of [handleCardClick] after the previous card is dealt
    with:
    <<
      if (musicSrc) { playCardMusic(card, musicSrc); }
      card.classList.add("animate");
      setTimeout(() => { card.classList.add("show-text"); }, 1200);
    >> *)
Definition openBranch (card : CardId) (musicSrc : option string) : M unit :=
  (match truthy musicSrc with
   | Some m => playCardMusic card m
   | None => ret tt
   end) >>>
  modify (classList_add card ANIMATE) >>>
  modify (setTimeout (AddClass card SHOW_TEXT) 1200).

(** <<
    const handleCardClick = (card) => {
      const musicSrc = card.getAttribute("data-music");
      if (!card.classList.contains("animate")) {
        if (activeCard && activeCard !== card) {
          handleCardClick(activeCard);
        }
        (the rest of the open branch, [openBranch])
      } else {
        (the close branch, [closeCard])
      }
    };
    >>
    The function calls itself, so the embedding takes the depth it may
    reach. *)
Fixpoint handleCardClick_depth (depth : nat) (card : CardId) : M unit :=
  match depth with
  | O => throw OutOfFuel
  | S depth' =>
      fun s =>
        let musicSrc := getAttribute_data_music card s in
        if negb (contains card ANIMATE s) then
          match activeCard s with
          | Some active =>
              if negb (active =? card)%nat
              then (handleCardClick_depth depth' active >>> openBranch card musicSrc) s
              else openBranch card musicSrc s
          | None => openBranch card musicSrc s
          end
        else
          modify (closeCard card) s
  end.

(** The inner call is on [activeCard], for which the test
    [activeCard !== card] fails: depth 2 is all the recursion can use. *)
Definition handleCardClick (card : CardId) : M unit :=
  handleCardClick_depth 2 card.

(** The click listener of <<#play-pause>>.
    <<
      if (!currentAudio) return;
      if (isPlaying) {
        currentAudio.pause(); isPlaying = false; playPauseBtn.textContent = "▶";
      } else {
        currentAudio.play(); isPlaying = true; playPauseBtn.textContent = "⏸";
        updateProgress();
      }
    >> *)
Definition onPlayPauseClick : M unit :=
  fun s =>
    match currentAudio s with
    | None => Return tt s
    | Some i =>
        if isPlaying s then
          Return tt
            (set_playPauseBtn GLYPH_PLAY
               (set_isPlaying false (update_audio i audio_pause s)))
        else
          updateProgress
            (set_playPauseBtn GLYPH_PAUSE
               (set_isPlaying true
                  (update_audio i (audio_play (autoplay s)) s)))
    end.

(** The <<loadedmetadata>> listener of an audio object, once the host knows
    its duration [d].
    <<
      progressBar.max = 100;
      timeDisplay.textContent = `0:00 / ${formatTime(currentAudio.duration)}`;
    >>
    It reads the variable [currentAudio], not the object it was attached
    to. *)
Definition onLoadedMetadata (i : AudioId) (d : Z) : M unit :=
  fun s =>
    let s1 := update_audio i (audio_set_duration (Num d)) s in
    match audios s1 !! i with
    | Some a =>
        if listening a then
          match progressBar s1 with
          | None => Throw (TypeError "progressBar is null") s1
          | Some bar =>
              let s2 := set_progressBar (Some (mkProgressBar 100 (value bar))) s1 in
              match currentAudio s2 with
              | None => Throw (TypeError "currentAudio is null") s2
              | Some j =>
                  match audios s2 !! j, timeDisplay s2 with
                  | Some b, Some _ =>
                      Return tt
                        (set_timeDisplay
                           (Some ("0:00 / " +:+ formatTime (duration b))) s2)
                  | Some _, None => Throw (TypeError "timeDisplay is null") s2
                  | None, _ => Return tt s2
                  end
              end
          end
        else Return tt s1
    | None => Return tt s
    end.

(** The <<ended>> listener: [isPlaying = false; playPauseBtn.textContent = "▶"]. *)
Definition onEnded (i : AudioId) : M unit :=
  fun s =>
    match audios s !! i with
    | Some a =>
        if listening a
        then Return tt (set_playPauseBtn GLYPH_PLAY (set_isPlaying false s))
        else Return tt s
    | None => Return tt s
    end.

(** The host moves the position of an object that is playing. *)
Definition playback (i : AudioId) (t : Z) (s : State) : State :=
  match audios s !! i with
  | Some a => if paused a then s else update_audio i (audio_set_currentTime t) s
  | None => s
  end.

(** A pending animation frame calls [updateProgress]. *)
Definition onAnimationFrame : M unit :=
  fun s =>
    match frames s with
    | O => Return tt s
    | S n => updateProgress (set_frames n s)
    end.

(** What the page and the host can do to the controller.  The <<input>>
    listener of the progress bar, which seeks to a fraction of the duration, is
    left out: positions are whole seconds here. *)
Inductive Event : Type :=
| CardClick (card : CardId)
| PlayPauseClick
| LoadedMetadata (i : AudioId) (d : Z)
| Ended (i : AudioId)
| Playback (i : AudioId) (t : Z)
| AnimationFrame
| Elapse (dt : nat).

Definition handler (e : Event) : M unit :=
  match e with
  | CardClick card => handleCardClick card
  | PlayPauseClick => onPlayPauseClick
  | LoadedMetadata i d => onLoadedMetadata i d
  | Ended i => onEnded i
  | Playback i t => modify (playback i t)
  | AnimationFrame => onAnimationFrame
  | Elapse dt => modify (elapse dt)
  end.

(** One turn of the event loop: the handler runs to its end or to an
    exception, which the host reports; the mutations stay either way. *)
Definition dispatch (e : Event) (s : State) : State :=
  match handler e s with
  | Return _ s' => s'
  | Throw err s' => set_uncaught (uncaught s' ++ [err]) s'
  end.

Definition run (events : list Event) (s : State) : State :=
  fold_left (fun s e => dispatch e s) events s.

(** ** Start-up *)

(** The elements the controller looks up when the script is loaded. *)
Record Page : Type := mkPage {
  page_musicPlayer : option (gset string);
  page_playPauseBtn : option string;
  page_progressBar : option ProgressBar;
  page_timeDisplay : option string;
  page_songTitle : option string;
  page_cards : gmap CardId Card;
  page_autoplay : bool
}.

(** How the body of [musicPlayerController] ends: at the early [return],
    with no listener attached; or after attaching the listeners, unless
    [progressBar.addEventListener] threw on [null]: then the card and button
    listeners are attached and the exception leaves the script. *)
Inductive Startup : Type :=
| NotInstalled
| Installed (s : State) (thrown : option Error).

Definition musicPlayerController (p : Page) : Startup :=
  match page_musicPlayer p, page_playPauseBtn p with
  | Some mp, Some btn =>
      Installed
        (mkState mp btn (page_progressBar p) (page_timeDisplay p)
           (page_songTitle p) (page_cards p) None false None [] (page_autoplay p)
           0 [] 0 [] [])
        (match page_progressBar p with
         | Some _ => None
         | None => Some (TypeError "progressBar is null")
         end)
  | _, _ => NotInstalled
  end.

(** ** Track handles *)

(** A handle is released once it is paused, rewound and no longer referenced
    by [currentAudio]; until then it is live. *)
Definition released (s : State) (i : AudioId) : bool :=
  match audios s !! i with
  | Some a =>
      (paused a && (currentTime a =? 0)
       && negb (bool_decide (currentAudio s = Some i)))%bool
  | None => true
  end.

Definition live_handles (s : State) : list AudioId :=
  filter (fun i => negb (released s i)) (seq 0 (List.length (audios s))).

(** ** What every reachable state satisfies *)

(** Every object of the heap other than the one [currentAudio] refers to is
    paused and rewound; [currentAudio] refers into the heap; no track is
    referenced while no card is active; and the active card has a track. *)
Record coherent (s : State) : Prop := mkCoherent {
  coh_released :
    forall i a, audios s !! i = Some a -> currentAudio s <> Some i ->
                paused a = true /\ currentTime a = 0;
  coh_current :
    forall i, currentAudio s = Some i -> (i < List.length (audios s))%nat;
  coh_active : activeCard s = None -> currentAudio s = None;
  coh_music :
    forall card, activeCard s = Some card ->
                 truthy (getAttribute_data_music card s) <> None
}.

(** Nothing is playing and nothing is referenced. *)
Definition quiet (s : State) : Prop :=
  currentAudio s = None /\ activeCard s = None
  /\ forall i a, audios s !! i = Some a -> paused a = true /\ currentTime a = 0.

(** The track of a handle, and what makes it live or released. *)
Definition track_state (a : Audio) : string * bool * Z :=
  (src a, paused a, currentTime a).

(** [s'] differs from [s] in nothing the audio side depends on. *)
Definition same_audio (s s' : State) : Prop :=
  currentAudio s' = currentAudio s /\ activeCard s' = activeCard s
  /\ track_state <$> audios s' = track_state <$> audios s
  /\ forall card, getAttribute_data_music card s' = getAttribute_data_music card s.

(** Every handle that existed in a heap of [n] objects is released in [s]. *)
Definition released_below (n : nat) (s : State) : Prop :=
  forall i, (i < n)%nat -> released s i = true.

(** What a handler leaves behind, from a coherent state [s]: a coherent
    state in which every handle of [s] is released, a heap that has only
    grown, and the same [data-music] attributes. *)
Definition tidy (s s' : State) : Prop :=
  coherent s'
  /\ released_below (List.length (audios s)) s'
  /\ (List.length (audios s) <= List.length (audios s'))%nat
  /\ forall card, getAttribute_data_music card s' = getAttribute_data_music card s.

(** ** Sample pages *)

(** Three cards: two with a track, one without a [data-music] attribute. *)
Definition sample_cards : gmap nat Card :=
  <[0%nat := mkCard ∅ (Some "music/anthem.mp3")]>
    (<[1%nat := mkCard ∅ (Some "music/ballad.mp3")]>
       (<[2%nat := mkCard ∅ None]> ∅)).

(** A page with every element the controller looks up. *)
Definition page_full : Page :=
  mkPage (Some {[HIDDEN]}) (Some GLYPH_PLAY) (Some (mkProgressBar 100 0))
    (Some "0:00 / 0:00") (Some "") sample_cards true.

(** The same page without <<#song-title>>. *)
Definition page_no_title : Page :=
  mkPage (Some {[HIDDEN]}) (Some GLYPH_PLAY) (Some (mkProgressBar 100 0))
    (Some "0:00 / 0:00") None sample_cards true.

(** The same page without <<#progress-bar>>. *)
Definition page_no_bar : Page :=
  mkPage (Some {[HIDDEN]}) (Some GLYPH_PLAY) None
    (Some "0:00 / 0:00") (Some "") sample_cards true.

(** The state the listeners start from, when they are attached. *)
Definition installed (p : Page) : State :=
  match musicPlayerController p with
  | Installed s _ => s
  | NotInstalled =>
      mkState ∅ EmptyString None None None ∅ None false None [] false 0 [] 0 [] []
  end.

(** ** The panel, the button and the timers *)

(** The elements [playCardMusic] and [updateProgress] assign to are on the
    page. *)
Definition widgets (s : State) : Prop :=
  songTitle s <> None /\ progressBar s <> None /\ timeDisplay s <> None.

(** The panel is shown while a track is referenced, [isPlaying] is set only
    then, and a card is active only then. *)
Definition panel (s : State) : Prop :=
  (currentAudio s <> None -> HIDDEN ∉ musicPlayer s)
  /\ (isPlaying s = true -> currentAudio s <> None)
  /\ (currentAudio s = None -> activeCard s = None).

(** The glyph the button shows for a value of [isPlaying]. *)
Definition glyph_of (playing : bool) : string :=
  if playing then GLYPH_PAUSE else GLYPH_PLAY.

(** The two callbacks the controller passes to [setTimeout]: line 406 adds
    <<show-text>>, line 419 removes <<closing>>. *)
Definition known_timer (e : nat * TimerAction) : bool :=
  match snd e with
  | AddClass _ cls => String.eqb cls SHOW_TEXT
  | RemoveClass _ cls => String.eqb cls CLOSING
  end.

Definition known_timers (s : State) : Prop :=
  Forall (fun e => known_timer e = true) (timers s).

(** The active card carries the class <<animate>>. *)
Definition active_is_open (s : State) : Prop :=
  forall c, activeCard s = Some c -> contains c ANIMATE s = true.

(** A card with the class <<closing>> has a timer that removes it, due
    within a second. *)
Definition closing_is_pending (s : State) : Prop :=
  forall c, contains c CLOSING s = true ->
    exists t, (t, RemoveClass c CLOSING) ∈ timers s /\ (t <= clock s + 1000)%nat.

(** A slash occurs in the string. *)
Fixpoint has_slash (s : string) : bool :=
  match s with
  | EmptyString => false
  | String c rest => (Ascii.eqb c "/" || has_slash rest)%bool
  end.

(** [s'] has the controls of [s]: a handler that only draws (the progress
    bar, the time label, the pending frames, the audio objects, the console)
    leaves the panel, the button, the title, the cards, the closure variables
    and the timers as they are, and removes no element. *)
Definition same_controls (s s' : State) : Prop :=
  musicPlayer s' = musicPlayer s /\ playPauseBtn s' = playPauseBtn s
  /\ songTitle s' = songTitle s /\ cards s' = cards s
  /\ currentAudio s' = currentAudio s /\ isPlaying s' = isPlaying s
  /\ activeCard s' = activeCard s /\ clock s' = clock s /\ timers s' = timers s
  /\ (progressBar s <> None -> progressBar s' <> None)
  /\ (timeDisplay s <> None -> timeDisplay s' <> None).

(** The button shows the glyph of [isPlaying], on a page with a title
    element. *)
Definition button_shows_state (s : State) : Prop :=
  songTitle s <> None /\ playPauseBtn s = glyph_of (isPlaying s).

End Player.

(* ===================================================================== *)
(** * Profile overlay *)
(* ===================================================================== *)

Module Overlay.

Record Stats : Type := mkStats {
  gender : string;
  age : string;
  height : string;
  weight : string
}.

Record Member : Type := mkMember {
  model : string;
  role : string;
  Bday : string;
  Contact : string;
  Specialty : string;
  stats : Stats
}.

(** The own properties of the object literal [memberData]. *)
Definition memberData : gmap string Member :=
  list_to_map
    [ ("Angelo Jesus Y. Caballero",
       mkMember "model/source/Caballero.glb" "| FULL STACK DEVELOPER |"
         "03/18/2006" "ajcaballero@kld.edu.ph" "FullStack"
         (mkStats "Male" "19" "175cm" "60kg"));
      ("Alexandra Lykemae T. Concepcion",
       mkMember "model/source/Concepcion.glb" "| PROJECT MANAGER |"
         "09/08/2005" "alconcepcion@kld.edu.ph" "Support specialist"
         (mkStats "Female" "20" "150cm" "50kg"));
      ("Shairil Kriztel O. Capungcol",
       mkMember "model/source/Capungcol.glb" "| BACK END DEVELOPER |"
         "03/18/2006" "skcapungcol@kld.edu.ph" "Back-end"
         (mkStats "Female" "20" "149cm" "49kg"));
      ("Kurt Andrew F. Dapat",
       mkMember "model/source/Dapat.glb" "| DESIGNER |"
         "03/18/2006" "kadapat@kld.edu.ph" "UI/UX Design"
         (mkStats "Male" "18" "154cm" "43kg"));
      ("Jovan C. Certifico",
       mkMember "model/source/Certifico.glb" "| FRONT END DEVELOPER |"
         "03/18/2006" "jcertifico@kld.edu.ph" "Front-end"
         (mkStats "Male" "19" "162cm" "53kg")) ].

(** [memberData] is a plain object: a property it does not own is looked up
    on [Object.prototype], whose properties are these. *)
Definition Object_prototype : list string :=
  [ "constructor"; "toString"; "toLocaleString"; "valueOf"; "hasOwnProperty";
    "isPrototypeOf"; "propertyIsEnumerable"; "__proto__";
    "__defineGetter__"; "__defineSetter__"; "__lookupGetter__";
    "__lookupSetter__" ].

(** The value of [memberData[name]]: a record of the table; or a function or
    object inherited from [Object.prototype], which is truthy and has none of
    the record's fields; or [undefined]. *)
Inductive Property : Type :=
| Own (m : Member)
| Inherited
| Undefined.

Definition memberData_get (name : string) : Property :=
  match memberData !! name with
  | Some m => Own m
  | None =>
      if bool_decide (name ∈ Object_prototype) then Inherited else Undefined
  end.

(** The elements the controller looks up, each with the text (or class
    list, or <<src>> attribute) it holds; [None] for an element that is not on
    the page. *)
Record State : Type := mkState {
  overlay : option (gset string);
  profileModel : option string;
  profileName : option string;
  profileRole : option string;
  bioBday : option string;
  bioContact : option string;
  bioSpecialty : option string;
  statGender : option string;
  statAge : option string;
  statHeight : option string;
  statWeight : option string
}.

Inductive Error : Type :=
| TypeError (what : string).

Inductive Result : Type :=
| Return (s : State)
| Throw (e : Error) (s : State).

Definition state_of (r : Result) : State :=
  match r with
  | Return s => s
  | Throw _ s => s
  end.

Definition ACTIVE : string := "active".

(** [if (el) el.textContent = text]. *)
Definition set_if_present (el : option string) (text : string) : option string :=
  match el with
  | Some _ => Some text
  | None => None
  end.

(** <<
    const openOverlay = (name) => {
      const data = memberData[name];
      if (!data || !overlay) return;
      profileName.textContent = name;
      profileRole.textContent = data.role;
      if (profileModel) profileModel.setAttribute("src", data.model);
      if (bioBday) bioBday.textContent = data.Bday;
      if (bioContact) bioContact.textContent = data.Contact;
      if (bioSpecialty) bioSpecialty.textContent = data.Specialty;
      const stats = data.stats;
      if (statGender) statGender.textContent = stats.gender;
      if (statAge) statAge.textContent = stats.age;
      if (statHeight) statHeight.textContent = stats.height;
      if (statWeight) statWeight.textContent = stats.weight;
      overlay.classList.add("active");
    };
    >>
    On an inherited value every field read is [undefined]: [textContent]
    takes it as the empty string, [setAttribute] as the text "undefined", and
    reading a field of [stats] throws. *)
Definition openOverlay (name : string) (s : State) : Result :=
  match memberData_get name, overlay s with
  | Undefined, _ | _, None => Return s
  | Own data, Some classes =>
      match profileName s with
      | None => Throw (TypeError "profileName is null") s
      | Some _ =>
          let s1 := mkState (overlay s) (profileModel s) (Some name)
                      (profileRole s) (bioBday s) (bioContact s) (bioSpecialty s)
                      (statGender s) (statAge s) (statHeight s) (statWeight s) in
          match profileRole s1 with
          | None => Throw (TypeError "profileRole is null") s1
          | Some _ =>
              Return
                (mkState (Some ({[ACTIVE]} ∪ classes))
                   (set_if_present (profileModel s1) (model data))
                   (profileName s1)
                   (Some (role data))
                   (set_if_present (bioBday s1) (Bday data))
                   (set_if_present (bioContact s1) (Contact data))
                   (set_if_present (bioSpecialty s1) (Specialty data))
                   (set_if_present (statGender s1) (gender (stats data)))
                   (set_if_present (statAge s1) (age (stats data)))
                   (set_if_present (statHeight s1) (height (stats data)))
                   (set_if_present (statWeight s1) (weight (stats data))))
          end
      end
  | Inherited, Some classes =>
      match profileName s with
      | None => Throw (TypeError "profileName is null") s
      | Some _ =>
          let s1 := mkState (overlay s) (profileModel s) (Some name)
                      (profileRole s) (bioBday s) (bioContact s) (bioSpecialty s)
                      (statGender s) (statAge s) (statHeight s) (statWeight s) in
          match profileRole s1 with
          | None => Throw (TypeError "profileRole is null") s1
          | Some _ =>
              let s2 := mkState (overlay s1)
                          (set_if_present (profileModel s1) "undefined")
                          (profileName s1)
                          (Some EmptyString)
                          (set_if_present (bioBday s1) EmptyString)
                          (set_if_present (bioContact s1) EmptyString)
                          (set_if_present (bioSpecialty s1) EmptyString)
                          (statGender s1) (statAge s1) (statHeight s1)
                          (statWeight s1) in
              match statGender s2, statAge s2, statHeight s2, statWeight s2 with
              | None, None, None, None =>
                  Return
                    (mkState (Some ({[ACTIVE]} ∪ classes)) (profileModel s2)
                       (profileName s2) (profileRole s2) (bioBday s2)
                       (bioContact s2) (bioSpecialty s2) None None None None)
              | _, _, _, _ => Throw (TypeError "stats is undefined") s2
              end
          end
      end
  end.

(** [if (overlay) overlay.classList.remove("active")]. *)
Definition closeOverlay (s : State) : State :=
  match overlay s with
  | Some classes =>
      mkState (Some (classes ∖ {[ACTIVE]})) (profileModel s) (profileName s)
        (profileRole s) (bioBday s) (bioContact s) (bioSpecialty s)
        (statGender s) (statAge s) (statHeight s) (statWeight s)
  | None => s
  end.

(** ** The click listener of a member *)

(** The white space and line terminators [String.prototype.trim] strips,
    among the code units below 256: tab, line feed, vertical tab, form feed,
    carriage return, space and no-break space. *)
Definition is_space (c : ascii) : bool :=
  let n := nat_of_ascii c in
  ((9 <=? n)%nat && (n <=? 13)%nat || (n =? 32)%nat || (n =? 160)%nat)%bool.

Fixpoint trim_start (s : string) : string :=
  match s with
  | EmptyString => EmptyString
  | String c rest => if is_space c then trim_start rest else s
  end.

Fixpoint trim_end (s : string) : string :=
  match s with
  | EmptyString => EmptyString
  | String c rest =>
      match trim_end rest with
      | EmptyString => if is_space c then EmptyString else String c EmptyString
      | String d rest' => String c (String d rest')
      end
  end.

(** [text.trim()]. *)
Definition trim (s : string) : string := trim_end (trim_start s).

(** <<
    member.addEventListener("click", (e) => {
      const nameElement = member.querySelector("h3");
      if (nameElement) {
        openOverlay(nameElement.textContent.trim());
      }
    });
    >>
    [h3] is the text of the heading of the member, if it has one. *)
Definition onMemberClick (h3 : option string) (s : State) : Result :=
  match h3 with
  | Some text => openOverlay (trim text) s
  | None => Return s
  end.

(** Every character of the string is white space. *)
Fixpoint all_space (s : string) : bool :=
  match s with
  | EmptyString => true
  | String c rest => (is_space c && all_space rest)%bool
  end.

(** ** Sample pages *)

(** Every element on the page, the overlay closed and blank. *)
Definition page_blank : State :=
  mkState (Some ∅) (Some "") (Some "") (Some "") (Some "") (Some "") (Some "")
    (Some "") (Some "") (Some "") (Some "").

(** The same page without <<#profileName>>. *)
Definition page_no_name : State :=
  mkState (Some ∅) (Some "") None (Some "") (Some "") (Some "") (Some "")
    (Some "") (Some "") (Some "") (Some "").

End Overlay.

(* ===================================================================== *)
(** * The end of the script *)
(* ===================================================================== *)

Module Motto.

(** <<
    const mottoWords = document.querySelectorAll(".motto-word");
    ...
    if (mottoWords.length > 0) {
      mottoObs.observe(document.querySelector(".motto"));
    }
    >>
    [observe(null)] throws a [TypeError].  The result is the exception that
    leaves the script, if one does. *)
Definition observe_motto (mottoWords : nat) (motto : bool) : option string :=
  if (0 <? mottoWords)%nat
  then if motto then None else Some "TypeError: observe(null)"
  else None.

End Motto.

(* ===================================================================== *)
(** * Intersection observers *)
(* ===================================================================== *)

Module Observers.

(** The observed elements and the elements the callbacks touch are numbered. *)
Abbreviation ElementId := nat (only parsing).

(** An [IntersectionObserverEntry], as far as the callbacks read it. *)
Record Entry : Type := mkEntry {
  target : ElementId;
  isIntersecting : bool
}.

(** The class list of every element, and the host's clock with the pending
    timers.  Every callback these observers pass to [setTimeout] adds one
    class to one element. *)
Record State : Type := mkState {
  classLists : gmap ElementId (gset string);
  clock : nat;
  timers : list (nat * (ElementId * string))
}.

Definition VISIBLE : string := "visible".
Definition HIDDEN : string := "hidden".
Definition ACTIVE : string := "active".
Definition HIGHLIGHT : string := "highlight".

(** [el.classList]; an element the map does not list has no class. *)
Definition classes (el : ElementId) (s : State) : gset string :=
  match classLists s !! el with
  | Some c => c
  | None => ∅
  end.

Definition contains (el : ElementId) (cls : string) (s : State) : bool :=
  bool_decide (cls ∈ classes el s).

Definition classList_add (el : ElementId) (cls : string) (s : State) : State :=
  mkState (<[el := {[cls]} ∪ classes el s]> (classLists s)) (clock s) (timers s).

Definition classList_remove (el : ElementId) (cls : string) (s : State) : State :=
  mkState (<[el := classes el s ∖ {[cls]}]> (classLists s)) (clock s) (timers s).

(** [setTimeout]: the callback joins the queue behind every timer that is
    due no later than it. *)
Fixpoint enqueue {A : Type} (entry : nat * A) (queue : list (nat * A))
  : list (nat * A) :=
  match queue with
  | [] => [entry]
  | e :: queue' =>
      if (fst e <=? fst entry)%nat then e :: enqueue entry queue'
      else entry :: e :: queue'
  end.

(** [setTimeout(() => el.classList.add(cls), delay)]. *)
Definition setTimeout (el : ElementId) (cls : string) (delay : nat) (s : State)
  : State :=
  mkState (classLists s) (clock s)
    (enqueue ((clock s + delay)%nat, (el, cls)) (timers s)).

Definition run_timer (s : State) (entry : nat * (ElementId * string)) : State :=
  classList_add (fst (snd entry)) (snd (snd entry)) s.

(** [dt] milliseconds go by: the timers due by then run, in order. *)
Definition elapse (dt : nat) (s : State) : State :=
  let now := (clock s + dt)%nat in
  let due := filter (fun e => fst e <=? now)%nat (timers s) in
  let later := filter (fun e => negb (fst e <=? now)%nat) (timers s) in
  fold_left run_timer due (mkState (classLists s) now later).

(** [entries.forEach(callback)]. *)
Definition forEach_entry (callback : Entry -> State -> State)
    (entries : list Entry) (s : State) : State :=
  fold_left (fun s entry => callback entry s) entries s.

(** <<
    const createObserver = (className, options, removeClassOnExit = true) => {
      return new IntersectionObserver(entries => {
        entries.forEach(entry => {
          if (entry.isIntersecting) {
            entry.target.classList.add(className);
          } else if (removeClassOnExit) {
            entry.target.classList.remove(className);
          }
        });
      }, options);
    };
    >>
    The observer is its callback; the options only tell the host when to call
    it. *)
Definition createObserver (className : string) (removeClassOnExit : bool)
  : list Entry -> State -> State :=
  forEach_entry (fun entry s =>
    if isIntersecting entry then classList_add (target entry) className s
    else if removeClassOnExit then classList_remove (target entry) className s
    else s).

(** <<
    const fadeObs = new IntersectionObserver((entries) => {
      entries.forEach((entry) => {
        if (entry.isIntersecting) {
          entry.target.classList.add("visible");
          entry.target.classList.remove("hidden");
        } else {
          entry.target.classList.remove("visible");
          entry.target.classList.add("hidden");
        }
      });
    }, { threshold: 0.25 });
    >> *)
Definition fadeObs : list Entry -> State -> State :=
  forEach_entry (fun entry s =>
    if isIntersecting entry
    then classList_remove (target entry) HIDDEN
           (classList_add (target entry) VISIBLE s)
    else classList_add (target entry) HIDDEN
           (classList_remove (target entry) VISIBLE s)).

(** [createObserver("visible", { threshold: 0.2 }, false)], twice. *)
Definition memberObs : list Entry -> State -> State :=
  createObserver VISIBLE false.

Definition teamObs : list Entry -> State -> State :=
  createObserver VISIBLE false.

(** [els.forEach((el, i) => setTimeout(() => el.classList.add(cls), i * delay))],
    from index [i] on. *)
Fixpoint schedule_from (i : nat) (cls : string) (delay : nat)
    (els : list ElementId) (s : State) : State :=
  match els with
  | [] => s
  | el :: rest =>
      schedule_from (S i) cls delay rest (setTimeout el cls (i * delay) s)
  end.

Definition schedule_each (cls : string) (delay : nat) (els : list ElementId)
  : State -> State :=
  schedule_from 0 cls delay els.

(** [els.forEach(el => el.classList.remove(cls))]. *)
Definition remove_each (cls : string) (els : list ElementId) (s : State) : State :=
  fold_left (fun s el => classList_remove el cls s) els s.

(** <<
    const letterObserver = new IntersectionObserver((entries) => {
      entries.forEach(entry => {
        if (entry.isIntersecting) {
          letters.forEach((span, i) => {
            setTimeout(() => span.classList.add("active"), i * 100);
          });
        } else {
          letters.forEach(span => span.classList.remove("active"));
        }
      });
    }, { threshold: 0.5 });
    >> *)
Definition letterObserver (letters : list ElementId)
  : list Entry -> State -> State :=
  forEach_entry (fun entry s =>
    if isIntersecting entry then schedule_each ACTIVE 100 letters s
    else remove_each ACTIVE letters s).

(** <<
    const boxObserver = new IntersectionObserver((entries) => {
      entries.forEach(entry => {
        if (entry.isIntersecting) {
          entry.target.classList.add("active");
          if (coreValuesTitle) coreValuesTitle.classList.add("highlight");
        } else {
          entry.target.classList.remove("active");
          if (coreValuesTitle) coreValuesTitle.classList.remove("highlight");
        }
      });
    }, { threshold: 0.3 });
    >> *)
Definition boxObserver (coreValuesTitle : option ElementId)
  : list Entry -> State -> State :=
  forEach_entry (fun entry s =>
    if isIntersecting entry then
      let s1 := classList_add (target entry) ACTIVE s in
      match coreValuesTitle with
      | Some title => classList_add title HIGHLIGHT s1
      | None => s1
      end
    else
      let s1 := classList_remove (target entry) ACTIVE s in
      match coreValuesTitle with
      | Some title => classList_remove title HIGHLIGHT s1
      | None => s1
      end).

(** <<
    const mvObserver = new IntersectionObserver((entries) => {
      entries.forEach(entry => {
        if (entry.isIntersecting) {
          entry.target.classList.add("active");
          entry.target.querySelectorAll(".mv-title span").forEach((span, i) => {
            setTimeout(() => span.classList.add("active"), i * 100);
          });
        } else {
          entry.target.classList.remove("active");
          entry.target.querySelectorAll(".mv-title span")
            .forEach(span => span.classList.remove("active"));
        }
      });
    }, { threshold: 0.3 });
    >>
    [spans box] is what [box.querySelectorAll(".mv-title span")] returns. *)
Definition mvObserver (spans : ElementId -> list ElementId)
  : list Entry -> State -> State :=
  forEach_entry (fun entry s =>
    if isIntersecting entry then
      schedule_each ACTIVE 100 (spans (target entry))
        (classList_add (target entry) ACTIVE s)
    else
      remove_each ACTIVE (spans (target entry))
        (classList_remove (target entry) ACTIVE s)).

(** <<
    const mottoObs = new IntersectionObserver((entries) => {
      entries.forEach(entry => {
        if (entry.isIntersecting) {
          mottoWords.forEach((word, i) => {
            setTimeout(() => { word.classList.add("visible"); }, i * 400);
          });
        } else {
          mottoWords.forEach(word => word.classList.remove("visible"));
        }
      });
    }, { threshold: 0.5 });
    >> *)
Definition mottoObs (mottoWords : list ElementId)
  : list Entry -> State -> State :=
  forEach_entry (fun entry s =>
    if isIntersecting entry then schedule_each VISIBLE 400 mottoWords s
    else remove_each VISIBLE mottoWords s).

(** The last entry of a forEach that concerns element [el]. *)
Definition last_entry_of (el : ElementId) (entries : list Entry) : option Entry :=
  last (filter (fun e => bool_decide (target e = el)) entries).

End Observers.

(* ===================================================================== *)
(** * Theorems *)
(* ===================================================================== *)

(** ** Time formatter *)



(** ** Spotlight easing *)






(** ** JSON.parse: the recursion budget is enough *)

Section JsonFuel.

Import Json.

Lemma string_length_ind (P : string -> Prop) :
  (forall s, (forall t, (String.length t < String.length s)%nat -> P t) -> P s) ->
  forall s, P s.
Proof.
  intros H s. remember (String.length s) as n eqn:Hn. revert s Hn.
  induction n as [n IH] using lt_wf_ind. intros s ->.
  apply H. intros t Ht. exact (IH _ Ht t eq_refl).
Qed.

Lemma skip_ws_length (s : string) : (String.length (skip_ws s) <= String.length s)%nat.
Proof.
  induction s as [|c s IH]; cbn [skip_ws]; [lia|].
  destruct (is_ws c); cbn [String.length]; lia.
Qed.

Lemma skip_ws_cons (s : string) (c : ascii) (r : string) :
  skip_ws s = String c r -> (String.length r < String.length s)%nat.
Proof.
  intros H. pose proof (skip_ws_length s) as Hle. rewrite H in Hle.
  cbn [String.length] in Hle. lia.
Qed.

Lemma omap_parsed {A B : Type} (f : A -> B) (o : outcome A) (b : B) (r : string) :
  omap f o = Parsed b r -> exists a, o = Parsed a r /\ b = f a.
Proof. destruct o; cbn; intros H; try discriminate. injection H as <- <-. eauto. Qed.

Lemma omap_fuel {A B : Type} (f : A -> B) (o : outcome A) :
  omap f o = OutOfFuel -> o = OutOfFuel.
Proof. destruct o; cbn; intros H; try discriminate. reflexivity. Qed.

Lemma parse_string_body_length (s : string) :
  forall v r, parse_string_body s = Parsed v r ->
              (String.length r < String.length s)%nat.
Proof.
  induction s as [s IH] using string_length_ind.
  intros v r. destruct s as [|c rest]; cbn [parse_string_body]; [discriminate|].
  destruct (Ascii.eqb c dquote).
  { intros [= _ <-]. cbn [String.length]. lia. }
  destruct (Ascii.eqb c "\").
  - destruct rest as [|e rest1]; [discriminate|].
    assert (Hstep : forall a v r,
               omap (String a) (parse_string_body rest1) = Parsed v r ->
               (String.length r < String.length (String c (String e rest1)))%nat).
    { intros a v' r' H. apply omap_parsed in H as (x & H & _).
      apply IH in H; cbn [String.length] in *; lia. }
    repeat match goal with
           | |- context [if ?b then _ else _] => destruct b; [now apply Hstep|]
           end.
    destruct (Ascii.eqb e "u"); [|discriminate].
    destruct rest1 as [|h1 [|h2 [|h3 [|h4 rest2]]]]; try discriminate.
    destruct (hex4 h1 h2 h3 h4) as [n|]; [|discriminate].
    destruct (n <? 256)%nat; [|discriminate].
    intros H. apply omap_parsed in H as (x & H & _).
    apply IH in H; cbn [String.length] in *; lia.
  - destruct (nat_of_ascii c <? 32)%nat; [discriminate|].
    intros H. apply omap_parsed in H as (x & H & _).
    apply IH in H; cbn [String.length] in *; lia.
Qed.

Lemma parse_string_body_fuel (s : string) : parse_string_body s <> OutOfFuel.
Proof.
  induction s as [s IH] using string_length_ind.
  destruct s as [|c rest]; cbn [parse_string_body]; [discriminate|].
  destruct (Ascii.eqb c dquote); [discriminate|].
  destruct (Ascii.eqb c "\").
  - destruct rest as [|e rest1]; [discriminate|].
    assert (Hstep : forall a, omap (String a) (parse_string_body rest1) <> OutOfFuel).
    { intros a H. apply omap_fuel in H. revert H. apply IH. cbn [String.length]. lia. }
    repeat match goal with
           | |- context [if ?b then _ else _] => destruct b; [now apply Hstep|]
           end.
    destruct (Ascii.eqb e "u"); [|discriminate].
    destruct rest1 as [|h1 [|h2 [|h3 [|h4 rest2]]]]; try discriminate.
    destruct (hex4 h1 h2 h3 h4) as [n|]; [|discriminate].
    destruct (n <? 256)%nat; [|discriminate].
    intros H. apply omap_fuel in H. revert H. apply IH. cbn [String.length]. lia.
  - destruct (nat_of_ascii c <? 32)%nat; [discriminate|].
    intros H. apply omap_fuel in H. revert H. apply IH. cbn [String.length]. lia.
Qed.

Lemma take_digits_length (s : string) :
  (String.length (snd (take_digits s)) <= String.length s)%nat.
Proof.
  induction s as [|c s IH]; cbn [take_digits]; [cbn; lia|].
  destruct (is_digit c); [|cbn; lia].
  destruct (take_digits s) as [d r]. cbn [snd String.length] in *. lia.
Qed.

Lemma parse_frac_length (s f r : string) :
  parse_frac s = Some (f, r) -> (String.length r <= String.length s)%nat.
Proof.
  unfold parse_frac. destruct s as [|c s]; [intros [= _ <-]; lia|].
  destruct (Ascii.eqb c "."); [|intros [= _ <-]; lia].
  pose proof (take_digits_length s) as Hd.
  destruct (take_digits s) as [d r']. cbn [snd] in Hd.
  destruct (String.length d =? 0)%nat; [discriminate|].
  intros [= _ <-]. cbn [String.length]. lia.
Qed.

Lemma parse_exp_length (s f r : string) :
  parse_exp s = Some (f, r) -> (String.length r <= String.length s)%nat.
Proof.
  unfold parse_exp. destruct s as [|e s]; [intros [= _ <-]; lia|].
  destruct (Ascii.eqb e "e" || Ascii.eqb e "E")%bool; [|intros [= _ <-]; lia].
  assert (Hsign : forall sign r1,
             (String.length r1 <= String.length s)%nat ->
             (let '(d, r2) := take_digits r1 in
              if (String.length d =? 0)%nat then None
              else Some (String e (sign +:+ d), r2)) = Some (f, r) ->
             (String.length r <= String.length (String e s))%nat).
  { intros sign r1 Hr1. pose proof (take_digits_length r1) as Hd.
    destruct (take_digits r1) as [d r2]. cbn [snd] in Hd.
    destruct (String.length d =? 0)%nat; [discriminate|].
    intros [= _ <-]. cbn [String.length]. lia. }
  destruct s as [|c s1]; [apply (Hsign EmptyString); lia|].
  destruct (Ascii.eqb c "+" || Ascii.eqb c "-")%bool.
  - apply (Hsign (String c EmptyString)). cbn [String.length]. lia.
  - apply (Hsign EmptyString). lia.
Qed.

Lemma parse_number_length (s v r : string) :
  parse_number s = Parsed v r -> (String.length r < String.length s)%nat.
Proof.
  unfold parse_number.
  assert (Hsign : exists sign s1,
             match s with
             | String c r0 =>
                 if Ascii.eqb c "-" then (String c EmptyString, r0)
                 else (EmptyString, s)
             | EmptyString => (EmptyString, s)
             end = (sign, s1)
             /\ (String.length s1 <= String.length s)%nat).
  { destruct s as [|c r0]; [eauto|].
    destruct (Ascii.eqb c "-"); eexists _, _; split; try reflexivity;
      cbn [String.length]; lia. }
  destruct Hsign as (sign & s1 & -> & Hs1).
  destruct s1 as [|c r1]; [discriminate|].
  destruct (is_digit c); [|discriminate].
  assert (Hint : exists int s2,
             (if Ascii.eqb c "0" then (String c EmptyString, r1)
              else let '(d, r0) := take_digits r1 in (String c d, r0)) = (int, s2)
             /\ (String.length s2 <= String.length r1)%nat).
  { destruct (Ascii.eqb c "0"); [eauto|].
    pose proof (take_digits_length r1) as Hd.
    destruct (take_digits r1) as [d r0]. eauto. }
  destruct Hint as (int & s2 & -> & Hs2).
  destruct (parse_frac s2) as [[frac s3]|] eqn:Hf; [|discriminate].
  apply parse_frac_length in Hf.
  destruct (parse_exp s3) as [[ex s4]|] eqn:He; [|discriminate].
  apply parse_exp_length in He.
  intros [= _ <-]. cbn [String.length] in Hs1. lia.
Qed.

Lemma parse_number_fuel (s : string) : parse_number s <> OutOfFuel.
Proof.
  unfold parse_number.
  destruct (match s with
            | String c r0 =>
                if Ascii.eqb c "-" then (String c EmptyString, r0)
                else (EmptyString, s)
            | EmptyString => (EmptyString, s)
            end) as [sign s1].
  destruct s1 as [|c r1]; [discriminate|].
  destruct (is_digit c); [|discriminate].
  destruct (if Ascii.eqb c "0" then (String c EmptyString, r1)
            else let '(d, r0) := take_digits r1 in (String c d, r0)) as [int s2].
  destruct (parse_frac s2) as [[frac s3]|]; [|discriminate].
  destruct (parse_exp s3) as [[ex s4]|]; discriminate.
Qed.

Lemma substring_length (n m : nat) (s : string) :
  (String.length (substring n m s) <= String.length s - n)%nat.
Proof.
  revert n m. induction s as [|c s IH]; intros [|n] [|m]; cbn; try lia.
  - specialize (IH 0%nat m). lia.
  - specialize (IH n 0%nat). lia.
  - specialize (IH n (S m)). lia.
Qed.

Lemma parse_literal_length (word : string) (j v : json) (s r : string) :
  (0 < String.length word)%nat ->
  parse_literal word j s = Parsed v r -> (String.length r < String.length s)%nat.
Proof.
  intros Hw. unfold parse_literal.
  destruct (String.prefix word s) eqn:Hp; [|discriminate].
  intros [= _ <-].
  pose proof (substring_length (String.length word)
                (String.length s - String.length word) s) as Hl.
  assert (Hs : (0 < String.length s)%nat).
  { destruct s; [destruct word; [cbn in Hw; lia | discriminate]|cbn; lia]. }
  lia.
Qed.

Lemma parse_literal_fuel (word : string) (j : json) (s : string) :
  parse_literal word j s <> OutOfFuel.
Proof. unfold parse_literal. destruct (String.prefix word s); discriminate. Qed.

Lemma parse_value_S (fuel : nat) (s : string) :
  parse_value (S fuel) s
  = match skip_ws s with
    | EmptyString => SyntaxError
    | String c rest =>
        if Ascii.eqb c "[" then
          match skip_ws rest with
          | String c' rest' =>
              if Ascii.eqb c' "]" then Parsed (JArr []) rest'
              else parse_elements fuel rest []
          | EmptyString => parse_elements fuel rest []
          end
        else if Ascii.eqb c "{" then
          match skip_ws rest with
          | String c' rest' =>
              if Ascii.eqb c' "}" then Parsed (JObj []) rest'
              else parse_members fuel rest []
          | EmptyString => parse_members fuel rest []
          end
        else if Ascii.eqb c dquote then omap JStr (parse_string_body rest)
        else if Ascii.eqb c "t" then parse_literal "true" (JBool true) (String c rest)
        else if Ascii.eqb c "f" then parse_literal "false" (JBool false) (String c rest)
        else if Ascii.eqb c "n" then parse_literal "null" JNull (String c rest)
        else omap JNum (parse_number (String c rest))
    end.
Proof. reflexivity. Qed.

Lemma parse_elements_S (fuel : nat) (s : string) (acc : list json) :
  parse_elements (S fuel) s acc
  = match parse_value fuel s with
    | Parsed v rest =>
        match skip_ws rest with
        | String c rest' =>
            if Ascii.eqb c "," then parse_elements fuel rest' (v :: acc)
            else if Ascii.eqb c "]" then Parsed (JArr (rev (v :: acc))) rest'
            else SyntaxError
        | EmptyString => SyntaxError
        end
    | SyntaxError => SyntaxError
    | BeyondLatin1 => BeyondLatin1
    | OutOfFuel => OutOfFuel
    end.
Proof. reflexivity. Qed.

Lemma parse_members_S (fuel : nat) (s : string) (acc : list (string * json)) :
  parse_members (S fuel) s acc
  = match skip_ws s with
    | String c rest =>
        if negb (Ascii.eqb c dquote) then SyntaxError else
        match parse_string_body rest with
        | Parsed key rest1 =>
            match skip_ws rest1 with
            | String colon rest2 =>
                if negb (Ascii.eqb colon ":") then SyntaxError else
                match parse_value fuel rest2 with
                | Parsed v rest3 =>
                    match skip_ws rest3 with
                    | String c' rest' =>
                        if Ascii.eqb c' ","
                        then parse_members fuel rest' ((key, v) :: acc)
                        else if Ascii.eqb c' "}"
                        then Parsed (JObj (rev ((key, v) :: acc))) rest'
                        else SyntaxError
                    | EmptyString => SyntaxError
                    end
                | SyntaxError => SyntaxError
                | BeyondLatin1 => BeyondLatin1
                | OutOfFuel => OutOfFuel
                end
            | EmptyString => SyntaxError
            end
        | SyntaxError => SyntaxError
        | BeyondLatin1 => BeyondLatin1
        | OutOfFuel => OutOfFuel
        end
    | EmptyString => SyntaxError
    end.
Proof. reflexivity. Qed.

(** Every parsing function consumes input. *)
Lemma parse_consumes (fuel : nat) :
  (forall s v r, parse_value fuel s = Parsed v r ->
                 (String.length r < String.length s)%nat)
  /\ (forall s acc v r, parse_elements fuel s acc = Parsed v r ->
                        (String.length r < String.length s)%nat)
  /\ (forall s acc v r, parse_members fuel s acc = Parsed v r ->
                        (String.length r < String.length s)%nat).
Proof.
  induction fuel as [|fuel (IHv & IHe & IHm)];
    [repeat split; intros; discriminate|].
  split; [|split].
  - intros s v r. rewrite parse_value_S.
    destruct (skip_ws s) as [|c rest] eqn:Hs; [discriminate|].
    apply skip_ws_cons in Hs.
    destruct (Ascii.eqb c "[").
    { destruct (skip_ws rest) as [|c' rest'] eqn:Hr.
      - intros H. apply IHe in H. lia.
      - apply skip_ws_cons in Hr.
        destruct (Ascii.eqb c' "]"); intros H;
          [injection H as _ <- | apply IHe in H]; lia. }
    destruct (Ascii.eqb c "{").
    { destruct (skip_ws rest) as [|c' rest'] eqn:Hr.
      - intros H. apply IHm in H. lia.
      - apply skip_ws_cons in Hr.
        destruct (Ascii.eqb c' "}"); intros H;
          [injection H as _ <- | apply IHm in H]; lia. }
    destruct (Ascii.eqb c dquote).
    { intros H. apply omap_parsed in H as (x & H & _).
      apply parse_string_body_length in H. lia. }
    destruct (Ascii.eqb c "t").
    { intros H. apply parse_literal_length in H; cbn [String.length] in *; lia. }
    destruct (Ascii.eqb c "f").
    { intros H. apply parse_literal_length in H; cbn [String.length] in *; lia. }
    destruct (Ascii.eqb c "n").
    { intros H. apply parse_literal_length in H; cbn [String.length] in *; lia. }
    intros H. apply omap_parsed in H as (x & H & _).
    apply parse_number_length in H. cbn [String.length] in H. lia.
  - intros s acc v r. rewrite parse_elements_S.
    destruct (parse_value fuel s) as [v0 rest| | |] eqn:Hv; try discriminate.
    apply IHv in Hv.
    destruct (skip_ws rest) as [|c rest'] eqn:Hr; [discriminate|].
    apply skip_ws_cons in Hr.
    destruct (Ascii.eqb c ","); [intros H; apply IHe in H; lia|].
    destruct (Ascii.eqb c "]"); [|discriminate].
    intros [= _ <-]. lia.
  - intros s acc v r. rewrite parse_members_S.
    destruct (skip_ws s) as [|c rest] eqn:Hs; [discriminate|].
    apply skip_ws_cons in Hs.
    destruct (negb (Ascii.eqb c dquote)); [discriminate|].
    destruct (parse_string_body rest) as [key rest1| | |] eqn:Hk; try discriminate.
    apply parse_string_body_length in Hk.
    destruct (skip_ws rest1) as [|colon rest2] eqn:Hr1; [discriminate|].
    apply skip_ws_cons in Hr1.
    destruct (negb (Ascii.eqb colon ":")); [discriminate|].
    destruct (parse_value fuel rest2) as [v0 rest3| | |] eqn:Hv; try discriminate.
    apply IHv in Hv.
    destruct (skip_ws rest3) as [|c' rest'] eqn:Hr3; [discriminate|].
    apply skip_ws_cons in Hr3.
    destruct (Ascii.eqb c' ","); [intros H; apply IHm in H; lia|].
    destruct (Ascii.eqb c' "}"); [|discriminate].
    intros [= _ <-]. lia.
Qed.

(** With a budget above twice the length of the input, no parsing function
    runs out of it. *)
Lemma parse_in_budget (fuel : nat) :
  (forall s, (2 * String.length s < fuel)%nat -> parse_value fuel s <> OutOfFuel)
  /\ (forall s acc, (2 * String.length s + 1 < fuel)%nat ->
                    parse_elements fuel s acc <> OutOfFuel)
  /\ (forall s acc, (2 * String.length s + 1 < fuel)%nat ->
                    parse_members fuel s acc <> OutOfFuel).
Proof.
  induction fuel as [|fuel (IHv & IHe & IHm)];
    [repeat split; intros; lia|].
  destruct (parse_consumes fuel) as (Cv & Ce & Cm).
  split; [|split].
  - intros s Hf. rewrite parse_value_S.
    destruct (skip_ws s) as [|c rest] eqn:Hs; [discriminate|].
    apply skip_ws_cons in Hs.
    destruct (Ascii.eqb c "[").
    { destruct (skip_ws rest) as [|c' rest'] eqn:Hr; [apply IHe; lia|].
      destruct (Ascii.eqb c' "]"); [discriminate | apply IHe; lia]. }
    destruct (Ascii.eqb c "{").
    { destruct (skip_ws rest) as [|c' rest'] eqn:Hr; [apply IHm; lia|].
      destruct (Ascii.eqb c' "}"); [discriminate | apply IHm; lia]. }
    destruct (Ascii.eqb c dquote).
    { intros H. apply omap_fuel in H. now apply parse_string_body_fuel in H. }
    destruct (Ascii.eqb c "t"); [apply parse_literal_fuel|].
    destruct (Ascii.eqb c "f"); [apply parse_literal_fuel|].
    destruct (Ascii.eqb c "n"); [apply parse_literal_fuel|].
    intros H. apply omap_fuel in H. now apply parse_number_fuel in H.
  - intros s acc Hf. rewrite parse_elements_S.
    destruct (parse_value fuel s) as [v0 rest| | |] eqn:Hv; try discriminate.
    + apply Cv in Hv.
      destruct (skip_ws rest) as [|c rest'] eqn:Hr; [discriminate|].
      apply skip_ws_cons in Hr.
      destruct (Ascii.eqb c ","); [apply IHe; lia|].
      destruct (Ascii.eqb c "]"); discriminate.
    + exfalso. revert Hv. apply IHv. lia.
  - intros s acc Hf. rewrite parse_members_S.
    destruct (skip_ws s) as [|c rest] eqn:Hs; [discriminate|].
    apply skip_ws_cons in Hs.
    destruct (negb (Ascii.eqb c dquote)); [discriminate|].
    destruct (parse_string_body rest) as [key rest1| | |] eqn:Hk; try discriminate.
    + apply parse_string_body_length in Hk.
      destruct (skip_ws rest1) as [|colon rest2] eqn:Hr1; [discriminate|].
      apply skip_ws_cons in Hr1.
      destruct (negb (Ascii.eqb colon ":")); [discriminate|].
      destruct (parse_value fuel rest2) as [v0 rest3| | |] eqn:Hv; try discriminate.
      * apply Cv in Hv.
        destruct (skip_ws rest3) as [|c' rest'] eqn:Hr3; [discriminate|].
        apply skip_ws_cons in Hr3.
        destruct (Ascii.eqb c' ","); [apply IHm; lia|].
        destruct (Ascii.eqb c' "}"); discriminate.
      * exfalso. revert Hv. apply IHv. lia.
    + now apply parse_string_body_fuel in Hk.
Qed.

Lemma JSON_parse_in_budget (text : string) : JSON_parse text <> OutOfFuel.
Proof.
  unfold JSON_parse.
  destruct (parse_value (S (2 * String.length text)) text) as [v rest| | |] eqn:Hv;
    try discriminate.
  - destruct (skip_ws rest); discriminate.
  - exfalso. revert Hv. apply (parse_in_budget (S (2 * String.length text))). lia.
Qed.

End JsonFuel.

(** ** Strings *)

Lemma append_String (a : ascii) (s t : string) :
  String a s +:+ t = String a (s +:+ t).
Proof. reflexivity. Qed.

Lemma append_nil_r (s : string) : s +:+ EmptyString = s.
Proof.
  induction s as [|a s IH]; [reflexivity|].
  now rewrite append_String, IH.
Qed.

Lemma append_assoc (a b c : string) : (a +:+ b) +:+ c = a +:+ (b +:+ c).
Proof.
  induction a as [|x a IH]; [reflexivity|].
  now rewrite !append_String, IH.
Qed.

Lemma substring_0_length (s : string) : substring 0 (String.length s) s = s.
Proof. induction s as [|a s IH]; simpl; [reflexivity | now rewrite IH]. Qed.

Lemma substring_zero (i : nat) (s : string) : substring i 0 s = EmptyString.
Proof.
  revert i. induction s as [|a s IH]; intros [|i]; simpl; try reflexivity.
  apply IH.
Qed.

Lemma charAt_substring (t : string) (i d : nat) :
  (i < String.length t)%nat ->
  Typewriter.charAt i t +:+ substring (S i) d t = substring i (S d) t.
Proof.
  revert i. induction t as [|a t IH]; intros i Hi; simpl in Hi; [lia|].
  destruct i as [|i]; [reflexivity|].
  change (Typewriter.charAt (S i) (String a t)) with (Typewriter.charAt i t).
  change (substring (S (S i)) d (String a t)) with (substring (S i) d t).
  change (substring (S i) (S d) (String a t)) with (substring i (S d) t).
  apply IH. lia.
Qed.

(** ** Typewriter *)

Section TypewriterRuns.

Import Typewriter.

Lemma run_add (a b : nat) (m : Machine) : run (a + b) m = run b (run a m).
Proof. revert m. induction a as [|a IH]; intros m; simpl; [reflexivity | apply IH]. Qed.

Lemma shown_add (a b : nat) (m : Machine) :
  shown (a + b) m = (shown a m ++ shown b (run a m))%list.
Proof.
  revert m. induction a as [|a IH]; intros m; simpl; [reflexivity|].
  now rewrite IH.
Qed.

Lemma fire_stopped (m : Machine) : timer m = None -> fire m = m.
Proof. intros H. unfold fire. now rewrite H. Qed.

Lemma run_stopped (k : nat) (m : Machine) : timer m = None -> run k m = m.
Proof.
  intros H. induction k as [|k IH]; simpl; [reflexivity|].
  now rewrite fire_stopped.
Qed.

(** Once the chain has ended it stays ended; so a chain alive after [k]
    timers was alive all along. *)
Lemma alive_before (j k : nat) (m : Machine) :
  (j <= k)%nat -> timer (run k m) <> None -> timer (run j m) <> None.
Proof.
  intros Hjk Hk Hj. apply Hk.
  replace k with (j + (k - j))%nat by lia.
  rewrite run_add, run_stopped; assumption.
Qed.

(** Typing: while characters are left, [d] timers type the [d] characters
    from index [i] on, each appended to what the element shows. *)
Lemma typing_phase (d : nat) :
  forall (i x : nat) (c : string) (ts : list string) (lp : bool) (ti : nat),
    (i + d <= String.length (nth ti ts EmptyString))%nat ->
    let t := nth ti ts EmptyString in
    let m := mkMachine ts lp ti i true c (Some x) in
    run d m = mkMachine ts lp ti (i + d) true (c +:+ substring i d t)
                (Some (match d with O => x | S _ => TYPING_SPEED end))
    /\ shown d m = map (fun j => c +:+ substring i j t) (seq 1 d).
Proof.
  induction d as [|d IH]; intros i x c ts lp ti Hlen t m.
  - cbn [run shown seq map]. subst m.
    rewrite substring_zero, append_nil_r, Nat.add_0_r. split; reflexivity.
  - assert (Hfire : fire m = mkMachine ts lp ti (S i) true
                               (c +:+ charAt i t) (Some TYPING_SPEED)).
    { unfold fire, tick, currentText; simpl. fold t.
      destruct (Nat.ltb_spec i (String.length t)) as [_|Hge]; [reflexivity|].
      subst t. lia. }
    destruct (IH (S i) TYPING_SPEED (c +:+ charAt i t) ts lp ti) as [Hrun Hshown];
      [lia|].
    fold t in Hrun, Hshown.
    assert (Hstep : forall j, (c +:+ charAt i t) +:+ substring (S i) j t
                              = c +:+ substring i (S j) t).
    { intros j. rewrite append_assoc, charAt_substring; [reflexivity|].
      subst t. lia. }
    split.
    + change (run (S d) m) with (run d (fire m)). rewrite Hfire, Hrun, Hstep.
      replace (S i + d)%nat with (i + S d)%nat by lia.
      destruct d; reflexivity.
    + change (shown (S d) m) with (textContent (fire m) :: shown d (fire m)).
      rewrite Hfire, Hshown. cbn [textContent seq map].
      f_equal.
        rewrite <- (Hstep 0%nat), substring_zero, append_nil_r. reflexivity.
      * rewrite <- (seq_shift d 1), map_map. apply map_ext. intros j. apply Hstep.
Qed.

(** The timer after the last character: the machine turns to deleting. *)
Lemma pause_after_type (ts : list string) (lp : bool) (ti x : nat) (c : string) :
  fire (mkMachine ts lp ti (String.length (nth ti ts EmptyString)) true c (Some x))
  = mkMachine ts lp ti (String.length (nth ti ts EmptyString)) false c
      (Some PAUSE_AFTER_TYPE).
Proof.
  unfold fire, tick, currentText; simpl.
  now rewrite Nat.ltb_irrefl.
Qed.

(** The deleting phase: [d] timers, each assigning a shorter prefix. *)
Lemma deleting_phase (d : nat) :
  forall (x : nat) (c : string) (ts : list string) (lp : bool) (ti : nat),
    let t := nth ti ts EmptyString in
    let m := mkMachine ts lp ti d false c (Some x) in
    run d m = mkMachine ts lp ti 0 false
                (match d with O => c | S _ => EmptyString end)
                (Some (match d with O => x | S _ => DELETING_SPEED end))
    /\ shown d m = map (fun j => substring 0 (d - j) t) (seq 1 d).
Proof.
  induction d as [|d IH]; intros x c ts lp ti t m.
  - split; reflexivity.
  - assert (Hfire : fire m = mkMachine ts lp ti d false (substring 0 d t)
                               (Some DELETING_SPEED)).
    { unfold fire, tick, currentText; simpl. rewrite Nat.sub_0_r. reflexivity. }
    destruct (IH DELETING_SPEED (substring 0 d t) ts lp ti) as [Hrun Hshown].
    fold t in Hrun, Hshown.
    split.
    + change (run (S d) m) with (run d (fire m)). rewrite Hfire, Hrun.
      destruct d; [|reflexivity].
      now rewrite substring_zero.
    + change (shown (S d) m) with (textContent (fire m) :: shown d (fire m)).
      rewrite Hfire, Hshown. cbn [textContent seq map].
      apply f_equal2; [f_equal; lia|].
      rewrite <- (seq_shift d 1), map_map. apply map_ext. intros j. reflexivity.
Qed.

End TypewriterRuns.

(** The last timer of a one-string typewriter that does not loop: the index
    wraps to 0 and no timer is set. *)
Lemma stop_after_delete (t c : string) (x : nat) :
  Typewriter.fire (Typewriter.mkMachine [t] false 0 0 false c (Some x))
  = Typewriter.mkMachine [t] false 0 0 true c None.
Proof. reflexivity. Qed.

(** C8.  A typewriter with the single string [t] of [n] characters and no
    loop, on an element showing [c0]: counting the direct call that ends
    [initTypewriter], [tick] runs 2n+2 times: n ticks type [t] one character
    at a time, one tick pauses, n ticks delete it one character at a time, and
    the last tick sets no timer.  The chain is alive up to that tick, ended
    after it, and nothing changes any more, however long one waits. *)
Theorem single_text_no_loop_terminates (t c0 : string) :
  let n := String.length t in
  let m0 := Typewriter.start [t] false c0 in
  Typewriter.textContent m0 :: Typewriter.shown (2 * n + 1) m0
  = (map (fun j => c0 +:+ substring 0 j t) (seq 1 n)
     ++ [c0 +:+ t]
     ++ map (fun j => substring 0 (n - j) t) (seq 1 n)
     ++ [match n with O => c0 | S _ => EmptyString end])%list
  /\ (forall k, (k <= 2 * n)%nat -> Typewriter.timer (Typewriter.run k m0) <> None)
  /\ Typewriter.timer (Typewriter.run (2 * n + 1) m0) = None
  /\ (forall k, (2 * n + 1 <= k)%nat ->
        Typewriter.run k m0 = Typewriter.run (2 * n + 1) m0).
Proof.
  intros n m0.
  set (init := Typewriter.mkMachine [t] false 0 0 true c0 (Some 0%nat)).
  assert (Hm0 : Typewriter.fire init = m0) by reflexivity.
  destruct (typing_phase n 0 0 c0 [t] false 0 (le_n _)) as [HrunA HshownA].
  cbn [nth] in HrunA, HshownA. fold init in HrunA, HshownA.
  assert (Hsub : substring 0 n t = t) by apply substring_0_length.
  rewrite Hsub in HrunA. cbn [Nat.add] in HrunA.
  pose proof (pause_after_type [t] false 0
                (match n with O => 0%nat | S _ => Typewriter.TYPING_SPEED end)
                (c0 +:+ t)) as HB.
  cbn [nth] in HB. fold n in HB.
  destruct (deleting_phase n Typewriter.PAUSE_AFTER_TYPE (c0 +:+ t) [t] false 0)
    as [HrunC HshownC].
  cbn [nth] in HrunC, HshownC.
  set (mA := Typewriter.run n init) in *.
  set (mB := Typewriter.mkMachine [t] false 0 n false (c0 +:+ t)
               (Some Typewriter.PAUSE_AFTER_TYPE)) in *.
  set (mC := Typewriter.run n mB) in *.
  assert (HD : Typewriter.fire mC
               = Typewriter.mkMachine [t] false 0 0 true
                   (match n with O => c0 +:+ t | S _ => EmptyString end) None).
  { rewrite HrunC. apply stop_after_delete. }
  assert (HfireA : Typewriter.fire mA = mB) by (rewrite HrunA; exact HB).
  assert (Hlast : Typewriter.run (n + (1 + (n + 1))) init = Typewriter.fire mC).
  { rewrite !run_add. fold mA. cbn [Typewriter.run]. rewrite HfireA. reflexivity. }
  assert (Hrun_m0 : forall k, Typewriter.run k m0 = Typewriter.run (S k) init).
  { intros k. rewrite <- Hm0. reflexivity. }
  assert (Hend : Typewriter.timer (Typewriter.run (2 * n + 1) m0) = None).
  { rewrite Hrun_m0. replace (S (2 * n + 1)) with (n + (1 + (n + 1)))%nat by lia.
    rewrite Hlast, HD. reflexivity. }
  split; [|split; [|split]].
  - change (Typewriter.textContent m0 :: Typewriter.shown (2 * n + 1) m0)
      with (Typewriter.shown (S (2 * n + 1)) init).
    replace (S (2 * n + 1)) with (n + (1 + (n + 1)))%nat by lia.
    rewrite (shown_add n), (shown_add 1), (shown_add n). fold mA.
    rewrite HshownA.
    cbn [Typewriter.shown Typewriter.run]. rewrite HfireA. fold mC.
    rewrite HshownC, HD. cbn [Typewriter.textContent].
    unfold mB. cbn [Typewriter.textContent].
    assert (Hfinal : match n with O => c0 +:+ t | S _ => EmptyString end
                     = match n with O => c0 | S _ => EmptyString end).
    { clear. subst n. destruct t; [apply append_nil_r | reflexivity]. }
    rewrite Hfinal. reflexivity.
  - intros k Hk. apply (alive_before k (2 * n)); [exact Hk|].
    rewrite Hrun_m0. replace (S (2 * n)) with (n + (1 + n))%nat by lia.
    rewrite !run_add. fold mA. cbn [Typewriter.run]. rewrite HfireA. fold mC.
    rewrite HrunC. discriminate.
  - exact Hend.
  - intros k Hk. replace k with ((2 * n + 1) + (k - (2 * n + 1)))%nat by lia.
    rewrite run_add. apply run_stopped. exact Hend.
Qed.

(** ** The initial text of a typewriter element *)

Section InitialText.

Import Typewriter.

Variable c0 : string.

Lemma tick_after_initial (e : Machine) :
  tick (after_initial c0 e)
  = if (negb (isTyping e) && (0 <? charIndex e)%nat)%bool
    then tick e else after_initial c0 (tick e).
Proof.
  destruct e as [ts lp ti ci ty c tm].
  unfold after_initial, with_text, tick, currentText.
  cbn [texts loop textIndex charIndex isTyping textContent timer].
  destruct ty; cbn [negb andb].
  - destruct (ci <? String.length (nth ti ts EmptyString))%nat;
      cbn [texts loop textIndex charIndex isTyping textContent timer];
      [rewrite append_assoc|]; reflexivity.
  - destruct (0 <? ci)%nat; reflexivity.
Qed.

Lemma deletes_next_after_initial (e : Machine) :
  deletes_next (after_initial c0 e) = deletes_next e.
Proof. reflexivity. Qed.

Lemma fire_after_initial (e : Machine) :
  fire (after_initial c0 e)
  = if deletes_next e then fire e else after_initial c0 (fire e).
Proof.
  unfold fire at 1. unfold deletes_next.
  change (timer (after_initial c0 e)) with (timer e).
  destruct (timer e) as [x|] eqn:Htm.
  - rewrite tick_after_initial. unfold fire. rewrite Htm. reflexivity.
  - unfold fire. rewrite Htm. reflexivity.
Qed.

Lemma run_after_initial (k : nat) :
  forall e : Machine,
    (deleted_within k (after_initial c0 e) = false ->
     run k (after_initial c0 e) = after_initial c0 (run k e))
    /\ (deleted_within k (after_initial c0 e) = true ->
        run k (after_initial c0 e) = run k e).
Proof.
  induction k as [|k IH]; intros e.
  - split; [reflexivity | discriminate].
  - cbn [deleted_within run]. rewrite deletes_next_after_initial, fire_after_initial.
    destruct (deletes_next e); cbn [orb].
    + split; [discriminate | reflexivity].
    + apply IH.
Qed.

Lemma start_after_initial (ts : list string) (lp : bool) :
  start ts lp c0 = after_initial c0 (start ts lp EmptyString).
Proof.
  unfold start.
  change (mkMachine ts lp 0 0 true EmptyString None)
    with (with_text EmptyString (mkMachine ts lp 0 0 true EmptyString None)).
  rewrite <- (append_nil_r c0) at 1.
  exact (tick_after_initial (mkMachine ts lp 0 0 true EmptyString None)).
Qed.

End InitialText.

(** C10.  A typewriter on an element that shows [c0] when it starts, compared
    with the same typewriter on an empty element.  Until a tick deletes, the
    element shows [c0] followed by what has been typed; a deleting tick
    assigns a prefix of the current string, whatever the element showed; and
    from the first deleting tick on the two machines are the same: [c0] is
    gone for good.  With a first string [t] of [n] characters, the first [n]
    ticks show [c0] followed by the prefixes of [t], and for [n > 0] the first
    deleting tick leaves the first [n - 1] characters of [t] alone. *)
Theorem initial_text_appended_then_discarded
    (ts : list string) (lp : bool) (c0 : string) (k : nat) :
  let m := Typewriter.start ts lp c0 in
  let e := Typewriter.start ts lp EmptyString in
  (Typewriter.deleted_within k m = false ->
   Typewriter.textContent (Typewriter.run k m)
   = c0 +:+ Typewriter.textContent (Typewriter.run k e))
  /\ (Typewriter.deletes_next (Typewriter.run k m) = true ->
      Typewriter.textContent (Typewriter.run (S k) m)
      = substring 0 (Typewriter.charIndex (Typewriter.run k m) - 1)
          (Typewriter.currentText (Typewriter.run k m)))
  /\ (Typewriter.deleted_within k m = true ->
      Typewriter.run k m = Typewriter.run k e)
  /\ (forall t rest, ts = t :: rest ->
      (k < String.length t)%nat ->
      Typewriter.textContent (Typewriter.run k m) = c0 +:+ substring 0 (S k) t
      /\ Typewriter.textContent (Typewriter.run (String.length t + 1) m)
         = substring 0 (String.length t - 1) t).
Proof.
  intros m e.
  assert (Hme : m = Typewriter.after_initial c0 e) by apply start_after_initial.
  destruct (run_after_initial c0 k e) as [Hkeep Hgone].
  rewrite <- Hme in Hkeep, Hgone.
  split; [|split; [|split]].
  - intros H. rewrite (Hkeep H). reflexivity.
  - intros H. replace (S k) with (k + 1)%nat by lia. rewrite run_add.
    cbn [Typewriter.run]. revert H.
    generalize (Typewriter.run k m). intros r.
    unfold Typewriter.deletes_next, Typewriter.fire.
    destruct (Typewriter.timer r); [|discriminate].
    unfold Typewriter.tick.
    destruct (Typewriter.isTyping r); [discriminate|].
    cbn [negb andb]. intros H. rewrite H. reflexivity.
  - exact Hgone.
  - intros t rest Hts Hk. subst ts.
    set (n := String.length t) in *.
    set (init := Typewriter.mkMachine (t :: rest) lp 0 0 true c0 (Some 0%nat)).
    assert (Hrun : forall j, Typewriter.run j m = Typewriter.run (S j) init)
      by reflexivity.
    split.
    + rewrite Hrun.
      destruct (typing_phase (S k) 0 0 c0 (t :: rest) lp 0) as [HrunA _];
        [cbn [nth]; fold n; lia|].
      cbn [nth] in HrunA. fold init in HrunA. rewrite HrunA. reflexivity.
    + rewrite Hrun. replace (S (n + 1)) with (n + (1 + 1))%nat by lia.
      rewrite !run_add.
      destruct (typing_phase n 0 0 c0 (t :: rest) lp 0 (le_n _)) as [HrunA _].
      cbn [nth] in HrunA. fold init in HrunA. rewrite HrunA.
      cbn [Typewriter.run Nat.add].
      pose proof (pause_after_type (t :: rest) lp 0
                    (match n with O => 0%nat | S _ => Typewriter.TYPING_SPEED end)
                    (c0 +:+ substring 0 n t)) as HB.
      cbn [nth] in HB. fold n in HB. rewrite HB.
      unfold Typewriter.fire, Typewriter.tick, Typewriter.currentText.
      cbn [Typewriter.timer Typewriter.isTyping Typewriter.charIndex
           Typewriter.textIndex Typewriter.texts nth Typewriter.textContent
           Typewriter.loop].
      destruct (Nat.ltb_spec 0 n) as [_|Hle]; [reflexivity | lia].
Qed.

(** ** Music player: the state after each step *)

Section PlayerSteps.

Import Player.

Lemma same_audio_refl (s : State) : same_audio s s.
Proof. repeat split. Qed.

Lemma same_audio_trans (s1 s2 s3 : State) :
  same_audio s1 s2 -> same_audio s2 s3 -> same_audio s1 s3.
Proof.
  intros (Ha & Hb & Hc & Hd) (Ha' & Hb' & Hc' & Hd').
  split; [congruence|]. split; [congruence|]. split; [congruence|].
  intros card. rewrite Hd'. apply Hd.
Qed.

Lemma track_lookup (l l' : list Audio) (i : nat) (a' : Audio) :
  track_state <$> l' = track_state <$> l ->
  l' !! i = Some a' ->
  exists a, l !! i = Some a /\ track_state a = track_state a'.
Proof.
  intros Heq Ha'.
  assert (H : (track_state <$> l) !! i = Some (track_state a')).
  { rewrite <- Heq, list_lookup_fmap, Ha'. reflexivity. }
  rewrite list_lookup_fmap in H.
  destruct (l !! i) as [a|]; [|discriminate].
  exists a. split; [reflexivity|]. cbn in H. congruence.
Qed.

Lemma released_same_audio (s s' : State) (i : nat) :
  same_audio s s' -> released s' i = released s i.
Proof.
  intros (Ha & _ & Hc & _). unfold released. rewrite Ha.
  assert (H : (track_state <$> audios s') !! i = (track_state <$> audios s) !! i)
    by now rewrite Hc.
  rewrite !list_lookup_fmap in H.
  destruct (audios s' !! i) as [a'|], (audios s !! i) as [a|];
    try discriminate; [|reflexivity].
  injection H as _ Hp Ht. now rewrite Hp, Ht.
Qed.

Lemma coherent_same_audio (s s' : State) :
  coherent s -> same_audio s s' -> coherent s'.
Proof.
  intros [H1 H2 H3 H4] (Ha & Hb & Hc & Hd).
  split; rewrite ?Ha, ?Hb; try assumption.
  - intros i a' Ha' Hne.
    destruct (track_lookup _ _ i a' Hc Ha') as (a & Hl & Ht).
    unfold track_state in Ht. injection Ht as _ Hp Hct.
    rewrite <- Hp, <- Hct. apply (H1 i a Hl Hne).
  - intros i Hi. apply H2 in Hi.
    assert (Hlen : List.length (audios s') = List.length (audios s)).
    { rewrite <- (length_fmap track_state (audios s')), Hc. apply length_fmap. }
    lia.
  - intros card Hcard. rewrite Hd. apply H4. exact Hcard.
Qed.

Lemma released_below_same_audio (n : nat) (s s' : State) :
  released_below n s -> same_audio s s' -> released_below n s'.
Proof.
  intros H Hsame i Hi. rewrite (released_same_audio s s' i Hsame). apply H, Hi.
Qed.

(** Class changes and timers leave the audio side alone. *)
Lemma data_music_alter (f : gset string -> gset string) (card c : CardId)
    (m : gmap CardId Card) :
  match alter (fun k => mkCard (f (classList k)) (data_music k)) card m !! c with
  | Some k => data_music k
  | None => None
  end
  = match m !! c with Some k => data_music k | None => None end.
Proof.
  destruct (decide (card = c)) as [->|Hne].
  - rewrite lookup_alter_eq. destruct (m !! c); reflexivity.
  - rewrite lookup_alter_ne by exact Hne. reflexivity.
Qed.

Lemma classList_add_same_audio (card : CardId) (cls : string) (s : State) :
  same_audio s (classList_add card cls s).
Proof.
  repeat split. intros c. unfold getAttribute_data_music, classList_add. cbn.
  apply (data_music_alter (fun l => {[cls]} ∪ l)).
Qed.

Lemma classList_remove_same_audio (card : CardId) (cls : string) (s : State) :
  same_audio s (classList_remove card cls s).
Proof.
  repeat split. intros c. unfold getAttribute_data_music, classList_remove. cbn.
  apply (data_music_alter (fun l => l ∖ {[cls]})).
Qed.

Lemma setTimeout_same_audio (a : TimerAction) (d : nat) (s : State) :
  same_audio s (setTimeout a d s).
Proof. repeat split. Qed.

Lemma run_timer_same_audio (s : State) (e : nat * TimerAction) :
  same_audio s (run_timer s e).
Proof.
  unfold run_timer. destruct (snd e).
  - apply classList_add_same_audio.
  - apply classList_remove_same_audio.
Qed.

Lemma fold_run_timer_same_audio (l : list (nat * TimerAction)) (s : State) :
  same_audio s (fold_left run_timer l s).
Proof.
  revert s. induction l as [|e l IH]; intros s; cbn [fold_left].
  - apply same_audio_refl.
  - eapply same_audio_trans; [apply run_timer_same_audio | apply IH].
Qed.

Lemma elapse_same_audio (dt : nat) (s : State) : same_audio s (elapse dt s).
Proof.
  unfold elapse.
  eapply same_audio_trans; [|apply fold_run_timer_same_audio].
  repeat split.
Qed.

Lemma updateProgress_same_audio (s : State) :
  same_audio s (state_of (updateProgress s)).
Proof.
  unfold updateProgress.
  destruct (currentAudio s) as [i|]; [|apply same_audio_refl].
  destruct (isPlaying s); [|apply same_audio_refl].
  destruct (audios s !! i) as [a|]; [|apply same_audio_refl].
  destruct (progressBar s) as [bar|]; [|apply same_audio_refl].
  cbn [timeDisplay set_progressBar].
  destruct (timeDisplay s); repeat split.
Qed.

(** [stopAndHidePlayer] releases the current handle; the others were
    released already. *)
Lemma stop_currentAudio (s : State) : currentAudio (stopAndHidePlayer s) = None.
Proof. unfold stopAndHidePlayer. destruct (currentAudio s) eqn:E; cbn; auto. Qed.

Lemma stop_activeCard (s : State) : activeCard (stopAndHidePlayer s) = None.
Proof. reflexivity. Qed.

Lemma stop_cards (s : State) : cards (stopAndHidePlayer s) = cards s.
Proof. unfold stopAndHidePlayer. destruct (currentAudio s); reflexivity. Qed.

Lemma stop_length (s : State) :
  List.length (audios (stopAndHidePlayer s)) = List.length (audios s).
Proof.
  unfold stopAndHidePlayer. destruct (currentAudio s); cbn; [|reflexivity].
  now rewrite !length_alter.
Qed.

Lemma stop_quiet (s : State) : coherent s -> quiet (stopAndHidePlayer s).
Proof.
  intros [Hrel _ _ _].
  split; [apply stop_currentAudio|]. split; [reflexivity|].
  intros i a. unfold stopAndHidePlayer.
  destruct (currentAudio s) as [j|] eqn:Hcur; cbn.
  - destruct (decide (j = i)) as [->|Hne].
    + rewrite !list_lookup_alter_eq.
      destruct (audios s !! i); cbn; [|discriminate].
      intros [= <-]. split; reflexivity.
    + rewrite !list_lookup_alter_ne by exact Hne.
      intros Ha. apply (Hrel i a Ha). congruence.
  - intros Ha. apply (Hrel i a Ha). congruence.
Qed.

Lemma quiet_coherent (s : State) : quiet s -> coherent s.
Proof.
  intros (Hcur & Hact & Hall).
  split; rewrite ?Hcur, ?Hact; try discriminate; auto.
  intros i a Ha _. apply (Hall i a Ha).
Qed.

Lemma quiet_released_below (s : State) (n : nat) : quiet s -> released_below n s.
Proof.
  intros (Hcur & _ & Hall) i _. unfold released.
  destruct (audios s !! i) as [a|] eqn:Ha; [|reflexivity].
  destruct (Hall i a Ha) as [-> ->]. rewrite Hcur. reflexivity.
Qed.

Lemma coherent_released_below (s : State) (n : nat) :
  coherent s -> currentAudio s = None -> released_below n s.
Proof.
  intros [Hrel _ _ _] Hcur i _. unfold released.
  destruct (audios s !! i) as [a|] eqn:Ha; [|reflexivity].
  destruct (Hrel i a Ha) as [-> ->]; [congruence|].
  rewrite Hcur. reflexivity.
Qed.

(** The tracks after [start_track], from a quiet state. *)
Lemma alter_last {A : Type} (f : A -> A) (l : list A) (x : A) :
  alter f (List.length l) (l ++ [x]) = l ++ [f x].
Proof.
  rewrite <- (Nat.add_0_r (List.length l)) at 1.
  rewrite (alter_app_r f l [x] 0). reflexivity.
Qed.

Lemma start_track_audios (m : string) (s : State) :
  audios (start_track m s)
  = audios s ++ [audio_play (autoplay s) (audio_set_volume (1 # 2) (new_Audio m))].
Proof.
  unfold start_track, update_audio. cbn [autoplay set_audios set_currentAudio].
  destruct (autoplay s); cbn [audios set_musicPlayer set_isPlaying set_console
                              set_audios set_currentAudio];
    now rewrite !alter_last.
Qed.

Lemma start_track_currentAudio (m : string) (s : State) :
  currentAudio (start_track m s) = Some (List.length (audios s)).
Proof. unfold start_track; cbn. destruct (autoplay s); reflexivity. Qed.

Lemma start_track_activeCard (m : string) (s : State) :
  activeCard (start_track m s) = activeCard s.
Proof. unfold start_track; cbn. destruct (autoplay s); reflexivity. Qed.

Lemma start_track_cards (m : string) (s : State) :
  cards (start_track m s) = cards s.
Proof. unfold start_track; cbn. destruct (autoplay s); reflexivity. Qed.

Lemma start_track_coherent (m : string) (card : CardId) (s : State) :
  quiet s ->
  truthy (getAttribute_data_music card s) <> None ->
  let s' := start_track m (set_activeCard (Some card) s) in
  coherent s' /\ released_below (List.length (audios s)) s'.
Proof.
  intros (Hcur & Hact & Hall) Hmusic s'.
  assert (Haud : audios s' = audios s ++
            [audio_play (autoplay s) (audio_set_volume (1 # 2) (new_Audio m))])
    by exact (start_track_audios m (set_activeCard (Some card) s)).
  assert (Hc : currentAudio s' = Some (List.length (audios s)))
    by exact (start_track_currentAudio m (set_activeCard (Some card) s)).
  assert (Ha : activeCard s' = Some card)
    by exact (start_track_activeCard m (set_activeCard (Some card) s)).
  assert (Hold : forall i a, (i < List.length (audios s))%nat ->
                             audios s' !! i = Some a ->
                             paused a = true /\ currentTime a = 0).
  { intros i a Hi. rewrite Haud, lookup_app_l by exact Hi. apply Hall. }
  split; [split|].
  - intros i a Hl Hne. rewrite Hc in Hne.
    assert (Hi : (i < List.length (audios s'))%nat) by (eapply lookup_lt_Some; eauto).
    rewrite Haud, length_app in Hi; cbn in Hi.
    apply (Hold i a); [|exact Hl].
    assert (i <> List.length (audios s)) by congruence. lia.
  - intros i Hi. rewrite Hc in Hi. injection Hi as <-.
    rewrite Haud, length_app; cbn. lia.
  - rewrite Ha. discriminate.
  - intros c Hc'. rewrite Ha in Hc'. injection Hc' as <-.
    unfold getAttribute_data_music, s'. rewrite start_track_cards. exact Hmusic.
  - intros i Hi. unfold released.
    destruct (audios s' !! i) as [a|] eqn:Hl; [|reflexivity].
    destruct (Hold i a Hi Hl) as [-> ->]. rewrite Hc.
    rewrite bool_decide_eq_false_2; [reflexivity|].
    intros [= E]. lia.
Qed.

Lemma fmap_alter_track (f : Audio -> Audio) (i : nat) (l : list Audio) :
  (forall a, track_state (f a) = track_state a) ->
  track_state <$> alter f i l = track_state <$> l.
Proof.
  intros Hf. revert i. induction l as [|a l IH]; intros [|i]; cbn;
    rewrite ?Hf, ?IH; reflexivity.
Qed.

Lemma update_audio_same_audio (f : Audio -> Audio) (i : nat) (s : State) :
  (forall a, track_state (f a) = track_state a) ->
  same_audio s (update_audio i f s).
Proof.
  intros Hf. split; [reflexivity|]. split; [reflexivity|].
  split; [apply fmap_alter_track, Hf | reflexivity].
Qed.

Lemma attach_listeners_same_audio (s : State) : same_audio s (attach_listeners s).
Proof.
  unfold attach_listeners. destruct (currentAudio s); [|apply same_audio_refl].
  apply update_audio_same_audio. reflexivity.
Qed.

Lemma attach_listeners_cards (s : State) : cards (attach_listeners s) = cards s.
Proof. unfold attach_listeners. destruct (currentAudio s); reflexivity. Qed.

Lemma updateProgress_cards (s : State) : cards (state_of (updateProgress s)) = cards s.
Proof.
  unfold updateProgress.
  destruct (currentAudio s) as [i|]; [|reflexivity].
  destruct (isPlaying s); [|reflexivity].
  destruct (audios s !! i) as [a|]; [|reflexivity].
  destruct (progressBar s) as [bar|]; [|reflexivity].
  cbn [timeDisplay set_progressBar].
  destruct (timeDisplay s); reflexivity.
Qed.

(** What follows [start_track] in [playCardMusic] changes neither the
    tracks nor the cards, whether it throws or not. *)
Lemma finish_track_same_audio (m : string) (s : State) :
  same_audio s (state_of (finish_track m s))
  /\ cards (state_of (finish_track m s)) = cards s.
Proof.
  unfold finish_track, bind, modify, set_songTitle_text.
  destruct (songTitle s); [|split; [apply same_audio_refl | reflexivity]].
  split.
  - eapply same_audio_trans; [|apply updateProgress_same_audio].
    eapply same_audio_trans; [|apply attach_listeners_same_audio].
    split; [reflexivity|]. split; [reflexivity|]. split; reflexivity.
  - rewrite updateProgress_cards, attach_listeners_cards. reflexivity.
Qed.

Lemma playCardMusic_spec (card : CardId) (m : string) (s : State) :
  coherent s ->
  truthy (getAttribute_data_music card s) <> None ->
  let s' := state_of (playCardMusic card m s) in
  coherent s'
  /\ released_below (List.length (audios s)) s'
  /\ currentAudio s' = Some (List.length (audios s))
  /\ activeCard s' = Some card
  /\ cards s' = cards s.
Proof.
  intros Hcoh Hmusic s'. subst s'.
  unfold playCardMusic.
  set (q := stopAndHidePlayer s).
  assert (Hq : quiet q) by (apply stop_quiet, Hcoh).
  assert (Hmq : truthy (getAttribute_data_music card q) <> None).
  { unfold getAttribute_data_music, q. rewrite stop_cards. exact Hmusic. }
  destruct (start_track_coherent m card q Hq Hmq) as [Hc3 Hr3].
  set (s3 := start_track m (set_activeCard (Some card) q)) in *.
  destruct (finish_track_same_audio m s3) as [Hsame Hcards].
  assert (Hlen : List.length (audios q) = List.length (audios s)) by apply stop_length.
  rewrite Hlen in Hr3.
  split; [eapply coherent_same_audio; eauto|].
  split; [eapply released_below_same_audio; eauto|].
  destruct Hsame as (Ha & Hb & _ & _).
  split; [rewrite Ha; unfold s3; rewrite start_track_currentAudio; cbn [audios set_activeCard]; now rewrite Hlen|].
  split; [rewrite Hb; unfold s3; now rewrite start_track_activeCard|].
  rewrite Hcards. unfold s3. rewrite start_track_cards. cbn [cards set_activeCard].
  apply stop_cards.
Qed.

(** ** Music player: what a click leaves behind *)

Lemma same_audio_length (s s' : State) :
  same_audio s s' -> List.length (audios s') = List.length (audios s).
Proof.
  intros (_ & _ & Hc & _).
  rewrite <- (length_fmap track_state (audios s')), Hc. apply length_fmap.
Qed.

Lemma tidy_same_audio (s s1 s2 : State) :
  tidy s s1 -> same_audio s1 s2 -> tidy s s2.
Proof.
  intros (Hc & Hr & Hl & Hm) Hsame.
  split; [eapply coherent_same_audio; eauto|].
  split; [eapply released_below_same_audio; eauto|].
  split; [rewrite (same_audio_length _ _ Hsame); exact Hl|].
  intros card. destruct Hsame as (_ & _ & _ & Hd). rewrite Hd. apply Hm.
Qed.

Lemma tidy_trans (s s1 s2 : State) : tidy s s1 -> tidy s1 s2 -> tidy s s2.
Proof.
  intros (Hc & Hr & Hl & Hm) (Hc' & Hr' & Hl' & Hm').
  split; [exact Hc'|].
  split; [intros i Hi; apply Hr'; lia|].
  split; [lia|].
  intros card. rewrite Hm'. apply Hm.
Qed.

Lemma tidy_quiet (s : State) :
  coherent s -> currentAudio s = None -> tidy s s.
Proof.
  intros Hc Hcur.
  split; [exact Hc|]. split; [now apply coherent_released_below|].
  split; [lia | reflexivity].
Qed.

Lemma stop_tidy (s : State) : coherent s -> tidy s (stopAndHidePlayer s).
Proof.
  intros Hc. pose proof (stop_quiet s Hc) as Hq.
  split; [now apply quiet_coherent|].
  split; [now apply quiet_released_below|].
  split; [rewrite stop_length; lia|].
  intros card. unfold getAttribute_data_music. now rewrite stop_cards.
Qed.

Lemma closeCard_same_audio (card : CardId) (s : State) :
  same_audio (stopAndHidePlayer s) (closeCard card s).
Proof.
  unfold closeCard.
  eapply same_audio_trans; [|apply setTimeout_same_audio].
  eapply same_audio_trans; [|apply classList_add_same_audio].
  eapply same_audio_trans; [|apply classList_remove_same_audio].
  apply classList_remove_same_audio.
Qed.

Lemma closeCard_tidy (card : CardId) (s : State) :
  coherent s -> tidy s (closeCard card s).
Proof.
  intros Hc. eapply tidy_same_audio; [apply stop_tidy, Hc|].
  apply closeCard_same_audio.
Qed.

Lemma playCardMusic_tidy (card : CardId) (m : string) (s : State) :
  coherent s ->
  truthy (getAttribute_data_music card s) <> None ->
  tidy s (state_of (playCardMusic card m s)).
Proof.
  intros Hc Hm.
  destruct (playCardMusic_spec card m s Hc Hm) as (Hc' & Hr & Hcur & _ & Hcards).
  split; [exact Hc'|]. split; [exact Hr|].
  split.
  - destruct Hc' as [_ Hin _ _]. specialize (Hin _ Hcur). lia.
  - intros c. unfold getAttribute_data_music. now rewrite Hcards.
Qed.

(** The open branch, with a track and without one. *)
Lemma openBranch_music (card : CardId) (m : string) (s : State) :
  truthy (getAttribute_data_music card s) = Some m ->
  same_audio (state_of (playCardMusic card m s))
             (state_of (openBranch card (getAttribute_data_music card s) s)).
Proof.
  intros Hm. unfold openBranch. rewrite Hm. unfold bind, modify.
  destruct (playCardMusic card m s) as [[] s2|e s2]; cbn [state_of];
    [|apply same_audio_refl].
  eapply same_audio_trans; [apply classList_add_same_audio|].
  apply setTimeout_same_audio.
Qed.

Lemma openBranch_silent (card : CardId) (attr : option string) (s : State) :
  truthy attr = None ->
  openBranch card attr s
  = Return tt (setTimeout (AddClass card SHOW_TEXT) 1200
                 (classList_add card ANIMATE s)).
Proof. intros Hm. unfold openBranch. rewrite Hm. reflexivity. Qed.

Lemma openBranch_silent_same_audio (card : CardId) (attr : option string) (s : State) :
  truthy attr = None ->
  same_audio s (state_of (openBranch card attr s)).
Proof.
  intros Hm. rewrite (openBranch_silent card attr s Hm). cbn [state_of].
  eapply same_audio_trans; [apply classList_add_same_audio|].
  apply setTimeout_same_audio.
Qed.

Lemma openBranch_tidy (card : CardId) (s : State) :
  coherent s ->
  truthy (getAttribute_data_music card s) <> None \/ currentAudio s = None ->
  tidy s (state_of (openBranch card (getAttribute_data_music card s) s)).
Proof.
  intros Hc Hor.
  destruct (truthy (getAttribute_data_music card s)) as [m|] eqn:Hm.
  - eapply tidy_same_audio; [|apply (openBranch_music card m s Hm)].
    apply playCardMusic_tidy; [exact Hc | congruence].
  - destruct Hor as [Hne|Hcur]; [congruence|].
    eapply tidy_same_audio; [apply tidy_quiet; assumption|].
    now apply openBranch_silent_same_audio.
Qed.

(** The call on the active card itself never recurses. *)
Lemma click_active_unfold (d : nat) (a : CardId) (s : State) :
  activeCard s = Some a ->
  handleCardClick_depth (S d) a s
  = if negb (contains a ANIMATE s)
    then openBranch a (getAttribute_data_music a s) s
    else Return tt (closeCard a s).
Proof.
  intros Ha. cbn [handleCardClick_depth]. rewrite Ha, Nat.eqb_refl. reflexivity.
Qed.

Lemma click_active_tidy (d : nat) (a : CardId) (s : State) :
  coherent s -> activeCard s = Some a ->
  tidy s (state_of (handleCardClick_depth (S d) a s)).
Proof.
  intros Hc Ha. rewrite (click_active_unfold d a s Ha).
  destruct (negb (contains a ANIMATE s)).
  - apply openBranch_tidy; [exact Hc|]. left. now apply (coh_music s Hc).
  - now apply closeCard_tidy.
Qed.

Lemma openBranch_after_tidy (card : CardId) (s s1 : State) :
  tidy s s1 ->
  tidy s (state_of (openBranch card (getAttribute_data_music card s) s1)).
Proof.
  intros Ht. pose proof Ht as (Hc1 & _ & _ & Hm1).
  rewrite <- (Hm1 card).
  destruct (truthy (getAttribute_data_music card s1)) as [m|] eqn:Hm.
  - eapply tidy_trans; [exact Ht|].
    apply openBranch_tidy; [exact Hc1|]. left. congruence.
  - eapply tidy_same_audio; [exact Ht|].
    now apply openBranch_silent_same_audio.
Qed.

Lemma click_unfold (d : nat) (card : CardId) (s : State) :
  handleCardClick_depth (S d) card s
  = if negb (contains card ANIMATE s) then
      match activeCard s with
      | Some active =>
          if negb (active =? card)%nat
          then (handleCardClick_depth d active
                >>> openBranch card (getAttribute_data_music card s)) s
          else openBranch card (getAttribute_data_music card s) s
      | None => openBranch card (getAttribute_data_music card s) s
      end
    else Return tt (closeCard card s).
Proof. reflexivity. Qed.

Lemma click_tidy (d : nat) (card : CardId) (s : State) :
  coherent s ->
  tidy s (state_of (handleCardClick_depth (S (S d)) card s)).
Proof.
  intros Hc.
  destruct (activeCard s) as [a|] eqn:Ha.
  - destruct (Nat.eqb_spec a card) as [->|Hne].
    + now apply click_active_tidy.
    + rewrite click_unfold.
      destruct (negb (contains card ANIMATE s)); [|now apply closeCard_tidy].
      rewrite Ha. apply Nat.eqb_neq in Hne. rewrite Hne. cbn [negb].
      unfold bind at 1.
      pose proof (click_active_tidy d a s Hc Ha) as Hin.
      destruct (handleCardClick_depth (S d) a s) as [[] s1|e s1];
        cbn [state_of] in Hin |- *; [|exact Hin].
      now apply openBranch_after_tidy.
  - rewrite click_unfold.
    destruct (negb (contains card ANIMATE s)); [|now apply closeCard_tidy].
    rewrite Ha. apply openBranch_tidy; [exact Hc|].
    right. now apply (coh_active s Hc).
Qed.

(** The recursion never runs out of depth: the result of
    [handleCardClick] is that of any deeper embedding. *)
Lemma click_depth_enough (d : nat) (card : CardId) (s : State) :
  handleCardClick_depth (S (S d)) card s = handleCardClick card s.
Proof.
  unfold handleCardClick. rewrite !click_unfold.
  destruct (negb (contains card ANIMATE s)); [|reflexivity].
  destruct (activeCard s) as [a|] eqn:Ha; [|reflexivity].
  destruct (negb (a =? card)%nat); [|reflexivity].
  unfold bind.
  now rewrite (click_active_unfold d a s Ha), (click_active_unfold 0 a s Ha).
Qed.

Lemma updateProgress_in_depth (s s' : State) :
  updateProgress s <> Throw OutOfFuel s'.
Proof.
  unfold updateProgress.
  destruct (currentAudio s) as [i|]; [|discriminate].
  destruct (isPlaying s); [|discriminate].
  destruct (audios s !! i); [|discriminate].
  destruct (progressBar s); [|discriminate].
  cbn [timeDisplay set_progressBar].
  destruct (timeDisplay s); discriminate.
Qed.

Lemma playCardMusic_in_depth (card : CardId) (m : string) (s s' : State) :
  playCardMusic card m s <> Throw OutOfFuel s'.
Proof.
  unfold playCardMusic, finish_track, bind, modify, set_songTitle_text.
  destruct (songTitle _); [|discriminate].
  apply updateProgress_in_depth.
Qed.

Lemma openBranch_in_depth (card : CardId) (attr : option string) (s s' : State) :
  openBranch card attr s <> Throw OutOfFuel s'.
Proof.
  unfold openBranch, bind, modify.
  destruct (truthy attr) as [m|]; [|discriminate].
  destruct (playCardMusic card m s) as [[] s1|e s1] eqn:E; [discriminate|].
  intros [= -> ->]. now apply playCardMusic_in_depth in E.
Qed.

Lemma click_in_depth (card : CardId) (s s' : State) :
  handleCardClick card s <> Throw OutOfFuel s'.
Proof.
  unfold handleCardClick. rewrite click_unfold.
  destruct (negb (contains card ANIMATE s)); [|discriminate].
  destruct (activeCard s) as [a|] eqn:Ha; [|apply openBranch_in_depth].
  destruct (negb (a =? card)%nat); [|apply openBranch_in_depth].
  unfold bind. rewrite (click_active_unfold 0 a s Ha).
  destruct (negb (contains a ANIMATE s)).
  - destruct (openBranch a (getAttribute_data_music a s) s) as [[] s1|e s1] eqn:E.
    + apply openBranch_in_depth.
    + intros [= -> ->]. now apply openBranch_in_depth in E.
  - apply openBranch_in_depth.
Qed.

(** ** Music player: every event keeps the state coherent *)

Lemma coherent_update_current (f : Audio -> Audio) (i : nat) (s : State) :
  coherent s -> currentAudio s = Some i -> coherent (update_audio i f s).
Proof.
  intros [H1 H2 H3 H4] Hcur. split; cbn [currentAudio activeCard audios update_audio set_audios].
  - intros j a Hl Hne. rewrite Hcur in Hne.
    assert (i <> j) by congruence.
    rewrite list_lookup_alter_ne in Hl by assumption.
    apply (H1 j a Hl). congruence.
  - intros j Hj. rewrite length_alter. now apply H2.
  - exact H3.
  - exact H4.
Qed.

Lemma set_uncaught_same_audio (l : list Error) (s : State) :
  same_audio s (set_uncaught l s).
Proof. repeat split. Qed.

Lemma onPlayPauseClick_coherent (s : State) :
  coherent s -> coherent (state_of (onPlayPauseClick s)).
Proof.
  intros Hc. unfold onPlayPauseClick.
  destruct (currentAudio s) as [i|] eqn:Hcur; [|exact Hc].
  destruct (isPlaying s); cbn [state_of].
  - eapply coherent_same_audio; [apply (coherent_update_current audio_pause i s Hc Hcur)|].
    repeat split.
  - eapply coherent_same_audio; [|apply updateProgress_same_audio].
    eapply coherent_same_audio;
      [apply (coherent_update_current (audio_play (autoplay s)) i s Hc Hcur)|].
    repeat split.
Qed.

Lemma onLoadedMetadata_same_audio (i : nat) (d : Z) (s : State) :
  same_audio s (state_of (onLoadedMetadata i d s)).
Proof.
  unfold onLoadedMetadata.
  set (s1 := update_audio i (audio_set_duration (Time.Num d)) s).
  assert (H1 : same_audio s s1) by (apply update_audio_same_audio; reflexivity).
  clearbody s1.
  destruct (audios s1 !! i) as [a|]; [|apply same_audio_refl].
  destruct (listening a); [|exact H1].
  destruct (progressBar s1); [|exact H1].
  cbn [currentAudio set_progressBar audios timeDisplay].
  destruct (currentAudio s1) as [j|] eqn:Hj; cbn [state_of].
  - destruct (audios s1 !! j), (timeDisplay s1); cbn [state_of];
      (eapply same_audio_trans; [exact H1|]); repeat split.
  - eapply same_audio_trans; [exact H1|]. repeat split.
Qed.

Lemma onEnded_same_audio (i : nat) (s : State) :
  same_audio s (state_of (onEnded i s)).
Proof.
  unfold onEnded. destruct (audios s !! i) as [a|]; [|apply same_audio_refl].
  destruct (listening a); repeat split.
Qed.

Lemma playback_coherent (i : nat) (t : Z) (s : State) :
  coherent s -> coherent (playback i t s).
Proof.
  intros Hc. unfold playback.
  destruct (audios s !! i) as [a|] eqn:Hl; [|exact Hc].
  destruct (paused a) eqn:Hp; [exact Hc|].
  apply coherent_update_current; [exact Hc|].
  destruct (decide (currentAudio s = Some i)) as [Hcur|Hne]; [exact Hcur|].
  destruct (coh_released s Hc i a Hl Hne) as [Hp' _]. congruence.
Qed.

Lemma onAnimationFrame_same_audio (s : State) :
  same_audio s (state_of (onAnimationFrame s)).
Proof.
  unfold onAnimationFrame. destruct (frames s) as [|n]; [apply same_audio_refl|].
  eapply same_audio_trans; [|apply updateProgress_same_audio]. repeat split.
Qed.

Lemma handler_coherent (e : Event) (s : State) :
  coherent s -> coherent (state_of (handler e s)).
Proof.
  intros Hc. destruct e as [card| |i d|i|i t| |dt]; cbn [handler].
  - apply (click_tidy 0 card s Hc).
  - now apply onPlayPauseClick_coherent.
  - eapply coherent_same_audio; [exact Hc | apply onLoadedMetadata_same_audio].
  - eapply coherent_same_audio; [exact Hc | apply onEnded_same_audio].
  - now apply playback_coherent.
  - eapply coherent_same_audio; [exact Hc | apply onAnimationFrame_same_audio].
  - eapply coherent_same_audio; [exact Hc | apply elapse_same_audio].
Qed.

Lemma dispatch_same_audio (e : Event) (s : State) :
  same_audio (state_of (handler e s)) (dispatch e s).
Proof.
  unfold dispatch. destruct (handler e s); cbn [state_of];
    [apply same_audio_refl | apply set_uncaught_same_audio].
Qed.

Lemma dispatch_coherent (e : Event) (s : State) :
  coherent s -> coherent (dispatch e s).
Proof.
  intros Hc. eapply coherent_same_audio; [|apply dispatch_same_audio].
  now apply handler_coherent.
Qed.

Lemma run_coherent (events : list Event) (s : State) :
  coherent s -> coherent (run events s).
Proof.
  revert s. induction events as [|e events IH]; intros s Hc; [exact Hc|].
  apply IH, dispatch_coherent, Hc.
Qed.

Lemma installed_coherent (p : Page) (s : State) (err : option Error) :
  musicPlayerController p = Installed s err -> coherent s.
Proof.
  unfold musicPlayerController.
  destruct (page_musicPlayer p), (page_playPauseBtn p); try discriminate.
  intros [= <- _]. split; cbn; try discriminate; auto.
Qed.

(** In a coherent state only the handle [currentAudio] refers to can be
    live. *)
Lemma live_is_current (s : State) (i : nat) :
  coherent s -> i ∈ live_handles s -> currentAudio s = Some i.
Proof.
  intros Hc Hi. unfold live_handles in Hi.
  apply list_elem_of_filter in Hi as [Hlive _].
  destruct (decide (currentAudio s = Some i)) as [Hcur|Hne]; [exact Hcur|].
  exfalso. apply Is_true_true in Hlive. revert Hlive. unfold released.
  destruct (audios s !! i) as [a|] eqn:Hl; [|discriminate].
  destruct (coh_released s Hc i a Hl Hne) as [-> ->].
  rewrite bool_decide_eq_false_2 by exact Hne. discriminate.
Qed.

Lemma NoDup_all_equal {A : Type} (x : A) (l : list A) :
  NoDup l -> (forall y, y ∈ l -> y = x) -> (List.length l <= 1)%nat.
Proof.
  intros Hnd Hall. destruct l as [|a [|b l]]; cbn; try lia.
  exfalso. apply NoDup_cons in Hnd as [Hnotin _]. apply Hnotin.
  rewrite (Hall a), (Hall b) by (repeat constructor). constructor.
Qed.

Lemma coherent_one_live (s : State) :
  coherent s -> (List.length (live_handles s) <= 1)%nat.
Proof.
  intros Hc.
  destruct (currentAudio s) as [j|] eqn:Hcur.
  - apply (NoDup_all_equal j).
    + apply NoDup_filter, NoDup_seq.
    + intros y Hy. apply (live_is_current s y Hc) in Hy. congruence.
  - destruct (live_handles s) as [|y l] eqn:Hl; cbn; [lia|].
    assert (Hy : y ∈ live_handles s) by (rewrite Hl; constructor).
    apply (live_is_current s y Hc) in Hy. congruence.
Qed.

Lemma quiet_no_live (s : State) : quiet s -> live_handles s = [].
Proof.
  intros Hq. pose proof (quiet_coherent s Hq) as Hc.
  destruct Hq as (Hcur & _ & _).
  destruct (live_handles s) as [|y l] eqn:Hl; [reflexivity|].
  assert (Hy : y ∈ live_handles s) by (rewrite Hl; constructor).
  apply (live_is_current s y Hc) in Hy. congruence.
Qed.

Lemma current_is_live (s : State) (n : nat) :
  coherent s -> currentAudio s = Some n -> live_handles s = [n].
Proof.
  intros Hc Hcur.
  assert (Hin : n ∈ live_handles s).
  { unfold live_handles. apply list_elem_of_filter. split.
    - apply Is_true_true. unfold released.
      pose proof (coh_current s Hc n Hcur) as Hlt.
      apply lookup_lt_is_Some_2 in Hlt. destruct Hlt as [a Ha]. rewrite Ha.
      rewrite bool_decide_eq_true_2 by exact Hcur.
      now rewrite andb_false_r.
    - apply elem_of_seq. pose proof (coh_current s Hc n Hcur). lia. }
  pose proof (coherent_one_live s Hc) as Hlen.
  destruct (live_handles s) as [|y [|z l]]; cbn in Hlen; try lia.
  - inversion Hin.
  - apply list_elem_of_singleton in Hin. now subst.
Qed.

Lemma dispatch_click_tidy (card : CardId) (s : State) :
  coherent s -> tidy s (dispatch (CardClick card) s).
Proof.
  intros Hc. eapply tidy_same_audio; [|apply dispatch_same_audio].
  apply (click_tidy 0 card s Hc).
Qed.

End PlayerSteps.

(** C1.  On every page where the controller installs its listeners, after
    every sequence of events (card clicks, play/pause clicks, media events,
    animation frames, timers): at most one track handle is live; a further
    card click leaves every handle that existed before it paused, rewound and
    unreferenced, and again at most one handle live; and the
    [stopAndHidePlayer] that begins [playCardMusic] leaves no handle live for
    [new Audio] to join. *)
Theorem at_most_one_live_track
    (p : Player.Page) (s0 : Player.State) (err : option Player.Error)
    (events : list Player.Event) :
  Player.musicPlayerController p = Player.Installed s0 err ->
  let s := Player.run events s0 in
  (List.length (Player.live_handles s) <= 1)%nat
  /\ (forall card,
        let s' := Player.dispatch (Player.CardClick card) s in
        Player.released_below (List.length (Player.audios s)) s'
        /\ (List.length (Player.live_handles s') <= 1)%nat)
  /\ Player.live_handles (Player.stopAndHidePlayer s) = [].
Proof.
  intros Hinst s.
  assert (Hc : Player.coherent s).
  { apply run_coherent. eapply installed_coherent. exact Hinst. }
  split; [now apply coherent_one_live|]. split.
  - intros card s'. pose proof (dispatch_click_tidy card s Hc) as (Hc' & Hr & _).
    split; [exact Hr | now apply coherent_one_live].
  - apply quiet_no_live, stop_quiet, Hc.
Qed.


(** ** Music player: classes of the cards *)

Section PlayerCards.

Import Player.

Lemma classes_add_eq (card : CardId) (cls : string) (s : State) (k : Card) :
  cards s !! card = Some k ->
  classes card (classList_add card cls s) = {[cls]} ∪ classes card s.
Proof.
  intros Hk. unfold classes, classList_add. cbn [cards set_cards].
  rewrite lookup_alter_eq, Hk. reflexivity.
Qed.

Lemma classes_add_ne (c card : CardId) (cls : string) (s : State) :
  c <> card -> classes c (classList_add card cls s) = classes c s.
Proof.
  intros Hne. unfold classes, classList_add. cbn [cards set_cards].
  rewrite lookup_alter_ne by congruence. reflexivity.
Qed.

Lemma classes_remove_eq (card : CardId) (cls : string) (s : State) :
  classes card (classList_remove card cls s) = classes card s ∖ {[cls]}.
Proof.
  unfold classes, classList_remove. cbn [cards set_cards].
  rewrite lookup_alter_eq. destruct (cards s !! card); cbn; [reflexivity|].
  set_solver.
Qed.

Lemma classes_same_cards (c : CardId) (s s' : State) :
  cards s' = cards s -> classes c s' = classes c s.
Proof. intros H. unfold classes. now rewrite H. Qed.

Lemma classes_setTimeout (c : CardId) (a : TimerAction) (d : nat) (s : State) :
  classes c (setTimeout a d s) = classes c s.
Proof. reflexivity. Qed.

Lemma classes_stop (c : CardId) (s : State) :
  classes c (stopAndHidePlayer s) = classes c s.
Proof. apply classes_same_cards, stop_cards. Qed.

Lemma contains_in (card : CardId) (cls : string) (s : State) :
  contains card cls s = true <-> cls ∈ classes card s.
Proof. unfold contains. apply bool_decide_eq_true. Qed.

Lemma contains_not_in (card : CardId) (cls : string) (s : State) :
  contains card cls s = false <-> cls ∉ classes card s.
Proof. unfold contains. apply bool_decide_eq_false. Qed.

(** A card with a class is a card of the page. *)
Lemma contains_is_card (card : CardId) (cls : string) (s : State) :
  contains card cls s = true -> exists k, cards s !! card = Some k.
Proof.
  intros H. apply contains_in in H. unfold classes in H.
  destruct (cards s !! card) as [k|]; [now exists k | set_solver].
Qed.

(** The classes of a card once [closeCard] has run on it. *)
Lemma closeCard_classes (card : CardId) (s : State) :
  (exists k, cards s !! card = Some k) ->
  classes card (closeCard card s)
  = {[CLOSING]} ∪ ((classes card s ∖ {[SHOW_TEXT]}) ∖ {[ANIMATE]}).
Proof.
  intros [k Hk]. unfold closeCard. rewrite classes_setTimeout.
  assert (Hk' : exists k', cards (classList_remove card ANIMATE
                   (classList_remove card SHOW_TEXT (stopAndHidePlayer s)))
                 !! card = Some k').
  { unfold classList_remove. cbn [cards set_cards].
    rewrite !lookup_alter_eq, stop_cards, Hk. cbn. eauto. }
  destruct Hk' as [k' Hk'].
  rewrite (classes_add_eq _ _ _ k' Hk'), !classes_remove_eq.
  now rewrite classes_stop.
Qed.

Lemma closeCard_classes_other (c card : CardId) (s : State) :
  c <> card -> classes c (closeCard card s) = classes c s.
Proof.
  intros Hne. unfold closeCard.
  rewrite classes_setTimeout, classes_add_ne by exact Hne.
  unfold classes, classList_remove. cbn [cards set_cards].
  rewrite !lookup_alter_ne by congruence. now rewrite stop_cards.
Qed.

(** ** Music player: opening a card while another is active *)

Lemma click_other_unfold (X Y : CardId) (s : State) :
  activeCard s = Some X -> X <> Y ->
  contains X ANIMATE s = true -> contains Y ANIMATE s = false ->
  handleCardClick Y s
  = openBranch Y (getAttribute_data_music Y s) (closeCard X s).
Proof.
  intros Ha Hne HX HY. unfold handleCardClick.
  rewrite click_unfold, HY, Ha. cbn [negb].
  apply Nat.eqb_neq in Hne. rewrite Hne. cbn [negb].
  unfold bind at 1. rewrite (click_active_unfold 0 X s Ha), HX. reflexivity.
Qed.

Lemma closeCard_length (card : CardId) (s : State) :
  List.length (audios (closeCard card s)) = List.length (audios s).
Proof.
  rewrite (same_audio_length _ _ (closeCard_same_audio card s)). apply stop_length.
Qed.

Lemma openBranch_classes_other (c card : CardId) (attr : option string) (s : State) :
  coherent s -> attr = getAttribute_data_music card s ->
  c <> card ->
  classes c (state_of (openBranch card attr s)) = classes c s.
Proof.
  intros Hc -> Hne.
  destruct (truthy (getAttribute_data_music card s)) as [m|] eqn:Hm.
  - unfold openBranch. rewrite Hm. unfold bind, modify.
    assert (Hm' : truthy (getAttribute_data_music card s) <> None) by congruence.
    destruct (playCardMusic_spec card m s Hc Hm') as (_ & _ & _ & _ & Hcards).
    destruct (playCardMusic card m s) as [[] s2|e s2]; cbn [state_of] in *.
    + rewrite classes_setTimeout, classes_add_ne by exact Hne.
      now apply classes_same_cards.
    + now apply classes_same_cards.
  - rewrite (openBranch_silent card _ s Hm). cbn [state_of].
    now rewrite classes_setTimeout, classes_add_ne.
Qed.

(** With its three widgets on the page, [finish_track] does not throw. *)
Lemma updateProgress_returns (s : State) :
  progressBar s <> None -> timeDisplay s <> None ->
  exists s', updateProgress s = Return tt s'.
Proof.
  intros Hbar Htime. unfold updateProgress.
  destruct (currentAudio s) as [i|]; [|eauto].
  destruct (isPlaying s); [|eauto].
  destruct (audios s !! i); [|eauto].
  destruct (progressBar s); [|congruence].
  cbn [timeDisplay set_progressBar].
  destruct (timeDisplay s); [eauto | congruence].
Qed.

Lemma attach_listeners_widgets (s : State) :
  progressBar (attach_listeners s) = progressBar s
  /\ timeDisplay (attach_listeners s) = timeDisplay s.
Proof. unfold attach_listeners. destruct (currentAudio s); split; reflexivity. Qed.

Lemma finish_track_returns (m : string) (s : State) :
  songTitle s <> None -> progressBar s <> None -> timeDisplay s <> None ->
  exists s', finish_track m s = Return tt s'.
Proof.
  intros Htitle Hbar Htime.
  unfold finish_track, bind, modify, set_songTitle_text.
  destruct (songTitle s); [|congruence].
  apply updateProgress_returns.
  - destruct (attach_listeners_widgets
                (set_playPauseBtn GLYPH_PAUSE (set_songTitle (Some (last_segment m)) s)))
      as [-> _]. exact Hbar.
  - destruct (attach_listeners_widgets
                (set_playPauseBtn GLYPH_PAUSE (set_songTitle (Some (last_segment m)) s)))
      as [_ ->]. exact Htime.
Qed.

Lemma stop_widgets (s : State) :
  songTitle (stopAndHidePlayer s) = songTitle s
  /\ progressBar (stopAndHidePlayer s) = progressBar s
  /\ timeDisplay (stopAndHidePlayer s) = timeDisplay s.
Proof. unfold stopAndHidePlayer. destruct (currentAudio s); repeat split. Qed.

Lemma start_track_widgets (m : string) (s : State) :
  songTitle (start_track m s) = songTitle s
  /\ progressBar (start_track m s) = progressBar s
  /\ timeDisplay (start_track m s) = timeDisplay s.
Proof. unfold start_track; cbn. destruct (autoplay s); repeat split. Qed.

Lemma playCardMusic_returns (card : CardId) (m : string) (s : State) :
  songTitle s <> None -> progressBar s <> None -> timeDisplay s <> None ->
  exists s', playCardMusic card m s = Return tt s'.
Proof.
  intros Htitle Hbar Htime. unfold playCardMusic.
  destruct (start_track_widgets m (set_activeCard (Some card) (stopAndHidePlayer s)))
    as (H1 & H2 & H3).
  destruct (stop_widgets s) as (H4 & H5 & H6).
  cbn [songTitle progressBar timeDisplay set_activeCard] in H1, H2, H3.
  apply finish_track_returns; congruence.
Qed.

Lemma closeCard_widgets (card : CardId) (s : State) :
  songTitle (closeCard card s) = songTitle s
  /\ progressBar (closeCard card s) = progressBar s
  /\ timeDisplay (closeCard card s) = timeDisplay s.
Proof. unfold closeCard; cbn. apply stop_widgets. Qed.

(** The new handle carries the track asked for. *)
Lemma playCardMusic_track (card : CardId) (m : string) (s : State) :
  exists a, audios (state_of (playCardMusic card m s)) !! List.length (audios s)
            = Some a /\ src a = m.
Proof.
  unfold playCardMusic.
  set (q := set_activeCard (Some card) (stopAndHidePlayer s)).
  destruct (finish_track_same_audio m (start_track m q)) as [(_ & _ & Ht & _) _].
  assert (Hlen : List.length (audios q) = List.length (audios s)) by apply stop_length.
  assert (Hl : (track_state <$> audios (start_track m q)) !! List.length (audios s)
               = Some (m, negb (autoplay q), 0)).
  { rewrite start_track_audios, list_lookup_fmap, <- Hlen.
    rewrite lookup_app_r by lia. rewrite Nat.sub_diag. cbn.
    destruct (autoplay q); reflexivity. }
  rewrite <- Ht, list_lookup_fmap in Hl.
  destruct (audios (state_of (finish_track m (start_track m q))) !! List.length (audios s))
    as [a|]; [|discriminate].
  exists a. split; [reflexivity|]. cbn in Hl. now injection Hl.
Qed.

End PlayerCards.

(** C6 (amended).  In a state reached on a page where the controller is
    installed, let card [X] be the active card and be open, let [Y] be another
    card that is not open and whose [data-music] attribute is a non-empty
    [m].  A click on [Y] closes [X] (no [animate], no [show-text], the
    transitional [closing]), makes [Y] the active card, and leaves exactly one
    live handle: a new one, on the track [m].  When the title, the progress
    bar and the time label are on the page, [Y] is shown open as well. *)
Theorem open_other_card
    (p : Player.Page) (s0 : Player.State) (err : option Player.Error)
    (events : list Player.Event) (X Y : nat) (m : string) :
  Player.musicPlayerController p = Player.Installed s0 err ->
  let s := Player.run events s0 in
  Player.activeCard s = Some X ->
  Player.contains X Player.ANIMATE s = true ->
  X <> Y ->
  Player.contains Y Player.ANIMATE s = false ->
  Player.truthy (Player.getAttribute_data_music Y s) = Some m ->
  let s' := Player.dispatch (Player.CardClick Y) s in
  let n := List.length (Player.audios s) in
  (Player.contains X Player.ANIMATE s' = false
   /\ Player.contains X Player.SHOW_TEXT s' = false
   /\ Player.contains X Player.CLOSING s' = true)
  /\ Player.activeCard s' = Some Y
  /\ Player.currentAudio s' = Some n
  /\ (exists a, Player.audios s' !! n = Some a /\ Player.src a = m)
  /\ Player.live_handles s' = [n]
  /\ (Player.songTitle s <> None -> Player.progressBar s <> None ->
      Player.timeDisplay s <> None ->
      Player.contains Y Player.ANIMATE s' = true).
Proof.
  intros Hinst s Ha HX Hne HY Hm s' n.
  assert (Hc : Player.coherent s).
  { apply run_coherent. eapply installed_coherent. exact Hinst. }
  pose proof (click_other_unfold X Y s Ha Hne HX HY) as Hclick.
  set (s1 := Player.closeCard X s) in *.
  pose proof (closeCard_tidy X s Hc) as (Hc1 & _ & _ & Hm1).
  fold s1 in Hc1, Hm1.
  assert (Hlen1 : List.length (Player.audios s1) = n) by apply closeCard_length.
  assert (Hmusic1 : Player.truthy (Player.getAttribute_data_music Y s1) = Some m)
    by (rewrite Hm1; exact Hm).
  assert (Hmusic1' : Player.truthy (Player.getAttribute_data_music Y s1) <> None)
    by congruence.
  rewrite <- (Hm1 Y) in Hclick.
  pose proof (openBranch_music Y m s1 Hmusic1) as Hsame.
  rewrite <- Hclick in Hsame.
  destruct (playCardMusic_spec Y m s1 Hc1 Hmusic1') as (Hc2 & _ & Hcur2 & Hact2 & _).
  pose proof (dispatch_same_audio (Player.CardClick Y) s) as Hsame'.
  cbn [Player.handler] in Hsame'. fold s' in Hsame'.
  pose proof (same_audio_trans _ _ _ Hsame Hsame') as Hsame2.
  assert (Hc' : Player.coherent s') by (eapply coherent_same_audio; eauto).
  assert (Hcur' : Player.currentAudio s' = Some n).
  { destruct Hsame2 as (-> & _). now rewrite Hcur2, Hlen1. }
  assert (HclX : Player.classes X s'
                 = Player.classes X s1).
  { unfold s', Player.dispatch. cbn [Player.handler].
    pose proof (openBranch_classes_other X Y _ s1 Hc1 eq_refl Hne) as Ho.
    rewrite <- Hclick in Ho.
    destruct (Player.handleCardClick Y s); cbn [Player.state_of] in Ho; exact Ho. }
  assert (HX1 : Player.classes X s1
                = {[Player.CLOSING]}
                  ∪ ((Player.classes X s ∖ {[Player.SHOW_TEXT]}) ∖ {[Player.ANIMATE]})).
  { apply closeCard_classes. eapply contains_is_card. exact HX. }
  split; [|split; [|split; [|split; [|split]]]].
  - rewrite !contains_not_in, contains_in, HclX, HX1.
    unfold Player.CLOSING, Player.SHOW_TEXT, Player.ANIMATE. set_solver.
  - destruct Hsame2 as (_ & -> & _). exact Hact2.
  - exact Hcur'.
  - destruct (playCardMusic_track Y m s1) as (a & Hl & Hsrc).
    rewrite Hlen1 in Hl.
    destruct Hsame2 as (_ & _ & Ht & _).
    assert (H : (Player.track_state <$> Player.audios s') !! n
                = Some (Player.track_state a))
      by (rewrite Ht, list_lookup_fmap, Hl; reflexivity).
    rewrite list_lookup_fmap in H.
    destruct (Player.audios s' !! n) as [a'|]; [|discriminate].
    exists a'. split; [reflexivity|]. cbn in H. injection H as Hs _ _. congruence.
  - now apply current_is_live.
  - intros Htitle Hbar Htime.
    destruct (closeCard_widgets X s) as (H1 & H2 & H3). fold s1 in H1, H2, H3.
    destruct (playCardMusic_returns Y m s1) as [s2 Hs2]; try congruence.
    assert (HY1 : exists k, Player.cards s2 !! Y = Some k).
    { destruct (playCardMusic_spec Y m s1 Hc1 Hmusic1') as (_ & _ & _ & _ & Hcards).
      rewrite Hs2 in Hcards. cbn [Player.state_of] in Hcards. rewrite Hcards.
      unfold Player.getAttribute_data_music in Hmusic1.
      destruct (Player.cards s1 !! Y) as [k|]; [eauto | discriminate]. }
    destruct HY1 as [k Hk].
    apply contains_in. unfold s', Player.dispatch. cbn [Player.handler].
    rewrite Hclick. unfold Player.openBranch. rewrite Hmusic1.
    unfold Player.bind at 1. rewrite Hs2.
    unfold Player.bind, Player.modify. rewrite classes_setTimeout.
    rewrite (classes_add_eq Y _ s2 k Hk). set_solver.
Qed.


(** ** Music player: closing twice *)

Section PlayerClose.

Import Player.





(** [closeCard] in one piece: the player stopped, the card closed, the timer
    queued. *)
Lemma closeCard_shape (card : CardId) (s : State) :
  closeCard card s
  = set_timers (enqueue ((clock s + 1000)%nat, RemoveClass card CLOSING) (timers s))
      (set_cards (alter closed card (cards s)) (stopAndHidePlayer s)).
Proof.
  unfold closeCard, setTimeout, classList_add, classList_remove.
  cbn [cards set_cards set_timers clock timers].
  rewrite !alter_alter_eq.
  assert (Hq : clock (stopAndHidePlayer s) = clock s
               /\ timers (stopAndHidePlayer s) = timers s
               /\ cards (stopAndHidePlayer s) = cards s).
  { unfold stopAndHidePlayer. destruct (currentAudio s); repeat split. }
  destruct Hq as (Hclock & Htimers & Hcards).
  generalize dependent (stopAndHidePlayer s). intros q Hclock Htimers Hcards.
  destruct q; cbn in *. subst. reflexivity.
Qed.







End PlayerClose.


(** ** Music player: the sample page *)

(** C1 on the sample page: card 0 is opened, then card 1, then the button
    pauses the track. *)
Lemma at_most_one_live_track_witness :
  let s := Player.run [Player.CardClick 0%nat; Player.CardClick 1%nat;
                       Player.PlayPauseClick]
             (Player.installed Player.page_full) in
  (List.length (Player.live_handles s) <= 1)%nat
  /\ (forall card,
        let s' := Player.dispatch (Player.CardClick card) s in
        Player.released_below (List.length (Player.audios s)) s'
        /\ (List.length (Player.live_handles s') <= 1)%nat)
  /\ Player.live_handles (Player.stopAndHidePlayer s) = [].
Proof.
  exact (at_most_one_live_track Player.page_full
           (Player.installed Player.page_full) None
           [Player.CardClick 0%nat; Player.CardClick 1%nat; Player.PlayPauseClick]
           eq_refl).
Defined.

(** C6 (as the spec has it) fails for a card without a track: on the sample
    page card 0 is open and active, card 2 has no [data-music] attribute; a
    click on card 2 closes card 0 and shows card 2 open, but no card is active
    afterwards and no handle is live. *)
Lemma open_card_without_track :
  let s := Player.run [Player.CardClick 0%nat] (Player.installed Player.page_full) in
  let s' := Player.dispatch (Player.CardClick 2%nat) s in
  (Player.activeCard s = Some 0%nat
   /\ Player.contains 0%nat Player.ANIMATE s = true
   /\ Player.contains 2%nat Player.ANIMATE s = false)
  /\ Player.contains 0%nat Player.ANIMATE s' = false
  /\ Player.contains 2%nat Player.ANIMATE s' = true
  /\ Player.activeCard s' <> Some 2%nat
  /\ Player.activeCard s' = None
  /\ Player.live_handles s' = [].
Proof. vm_compute. repeat split; discriminate. Qed.

(** C6 on the sample page: card 0 is open and active, card 1 is clicked. *)
Lemma open_other_card_witness :
  let s := Player.run [Player.CardClick 0%nat] (Player.installed Player.page_full) in
  let s' := Player.dispatch (Player.CardClick 1%nat) s in
  (Player.contains 0%nat Player.ANIMATE s' = false
   /\ Player.contains 0%nat Player.SHOW_TEXT s' = false
   /\ Player.contains 0%nat Player.CLOSING s' = true)
  /\ Player.activeCard s' = Some 1%nat
  /\ Player.currentAudio s' = Some 1%nat
  /\ (exists a, Player.audios s' !! 1%nat = Some a
                /\ Player.src a = "music/ballad.mp3"%string)
  /\ Player.live_handles s' = [1%nat]
  /\ (Player.songTitle s <> None -> Player.progressBar s <> None ->
      Player.timeDisplay s <> None ->
      Player.contains 1%nat Player.ANIMATE s' = true).
Proof.
  assert (Hne : 0%nat <> 1%nat) by discriminate.
  exact (open_other_card Player.page_full (Player.installed Player.page_full) None
           [Player.CardClick 0%nat] 0%nat 1%nat "music/ballad.mp3"
           eq_refl eq_refl eq_refl Hne eq_refl eq_refl).
Defined.


(** ** Profile overlay *)

(** A name of the table, on a page with the overlay, the name and the role:
    every field that is on the page is filled from the record and the overlay
    is marked active. *)
Lemma openOverlay_hit (name : string) (data : Overlay.Member) (s : Overlay.State)
    (classes : gset string) :
  Overlay.memberData !! name = Some data ->
  Overlay.overlay s = Some classes ->
  Overlay.profileName s <> None -> Overlay.profileRole s <> None ->
  Overlay.openOverlay name s
  = Overlay.Return
      (Overlay.mkState (Some ({[Overlay.ACTIVE]} ∪ classes))
         (Overlay.set_if_present (Overlay.profileModel s) (Overlay.model data))
         (Some name) (Some (Overlay.role data))
         (Overlay.set_if_present (Overlay.bioBday s) (Overlay.Bday data))
         (Overlay.set_if_present (Overlay.bioContact s) (Overlay.Contact data))
         (Overlay.set_if_present (Overlay.bioSpecialty s) (Overlay.Specialty data))
         (Overlay.set_if_present (Overlay.statGender s)
            (Overlay.gender (Overlay.stats data)))
         (Overlay.set_if_present (Overlay.statAge s)
            (Overlay.age (Overlay.stats data)))
         (Overlay.set_if_present (Overlay.statHeight s)
            (Overlay.height (Overlay.stats data)))
         (Overlay.set_if_present (Overlay.statWeight s)
            (Overlay.weight (Overlay.stats data)))).
Proof.
  intros Hdata Hov Hname Hrole.
  unfold Overlay.openOverlay, Overlay.memberData_get. rewrite Hdata, Hov.
  destruct (Overlay.profileName s); [|congruence].
  cbn [Overlay.profileRole Overlay.profileName Overlay.profileModel Overlay.bioBday
       Overlay.bioContact Overlay.bioSpecialty Overlay.statGender Overlay.statAge
       Overlay.statHeight Overlay.statWeight Overlay.overlay].
  destruct (Overlay.profileRole s); [reflexivity | congruence].
Qed.

Lemma openOverlay_angelo :
  let s := Overlay.state_of
             (Overlay.openOverlay "Angelo Jesus Y. Caballero" Overlay.page_blank) in
  Overlay.profileRole s = Some "| FULL STACK DEVELOPER |"%string
  /\ Overlay.statAge s = Some "19"%string
  /\ Overlay.overlay s = Some {[Overlay.ACTIVE]}.
Proof. vm_compute. repeat split. Qed.

(** A name that [memberData[name]] gives [undefined] for: nothing changes. *)
Lemma openOverlay_undefined (name : string) (s : Overlay.State) :
  Overlay.memberData_get name = Overlay.Undefined ->
  Overlay.openOverlay name s = Overlay.Return s.
Proof. intros H. unfold Overlay.openOverlay. rewrite H. reflexivity. Qed.

Lemma openOverlay_unknown_person (s : Overlay.State) :
  Overlay.openOverlay "Unknown Person" s = Overlay.Return s.
Proof. apply openOverlay_undefined. vm_compute. reflexivity. Qed.

(** C9 (the failing input).  "constructor" is not a name of the table, yet
    [memberData["constructor"]] is the inherited [Object] function: on a page
    showing Angelo's profile, [openOverlay("constructor")] overwrites the name,
    the role, the model and the bio fields, and then throws. *)
Theorem openOverlay_inherited_name :
  let s := Overlay.state_of
             (Overlay.openOverlay "Angelo Jesus Y. Caballero" Overlay.page_blank) in
  Overlay.memberData !! "constructor"%string = None
  /\ exists e s',
       Overlay.openOverlay "constructor" s = Overlay.Throw e s'
       /\ s' <> s
       /\ Overlay.profileName s' = Some "constructor"%string
       /\ Overlay.profileRole s' = Some EmptyString
       /\ Overlay.profileModel s' = Some "undefined"%string.
Proof.
  split; [vm_compute; reflexivity|].
  eexists _, _. split; [vm_compute; reflexivity|].
  split; [intros H; apply (f_equal Overlay.profileName) in H; discriminate H|].
  repeat split.
Qed.

(** ** Missing elements *)

(** C3 (the failing inputs).  Only two of the five elements the music
    controller uses are guarded, and [openOverlay] guards every element but
    the name and the role.  Without <<#song-title>>, a click on a card with a
    track throws in [playCardMusic]: the track is playing and the card is
    active, but the card is never shown open.  Without <<#progress-bar>>, the
    controller's own start-up throws.  Without <<#profileName>>,
    [openOverlay] throws on a name of the table.  A page with motto words and
    no motto element throws as well. *)
Theorem missing_element_throws :
  (exists s',
     Player.handleCardClick 0%nat (Player.installed Player.page_no_title)
     = Player.Throw (Player.TypeError "songTitle is null") s'
     /\ Player.activeCard s' = Some 0%nat
     /\ Player.live_handles s' = [0%nat]
     /\ Player.contains 0%nat Player.ANIMATE s' = false)
  /\ (exists s,
        Player.musicPlayerController Player.page_no_bar
        = Player.Installed s (Some (Player.TypeError "progressBar is null")))
  /\ (exists s',
        Overlay.openOverlay "Angelo Jesus Y. Caballero" Overlay.page_no_name
        = Overlay.Throw (Overlay.TypeError "profileName is null") s')
  /\ Motto.observe_motto 3 false <> None.
Proof.
  split; [|split; [|split]].
  - eexists. split; [vm_compute; reflexivity|]. vm_compute. repeat split.
  - eexists. reflexivity.
  - eexists. vm_compute. reflexivity.
  - discriminate.
Qed.

(** ** Typewriter: the text list *)

(** C2 (as the spec has it) fails: a malformed list makes [JSON.parse]
    throw, [initTypewriter] does not catch it, and the typewriters after this
    one are not started either. *)
Lemma malformed_texts_throw :
  Json.JSON_parse "[Hi, there]" = Json.SyntaxError
  /\ Typewriter.initTypewriter Typewriter.el_malformed
     = Typewriter.Threw Typewriter.SyntaxError_thrown
  /\ Typewriter.initTypewriter Typewriter.el_malformed <> Typewriter.Disabled
  /\ Typewriter.onDOMContentLoaded [Typewriter.el_malformed; Typewriter.el_hi]
     = ([], Some Typewriter.SyntaxError_thrown).
Proof. vm_compute. repeat split. discriminate. Qed.

(** C2 (amended).  An element whose [data-texts] attribute is missing,
    empty, or the text of an empty array gets an empty list: [initTypewriter]
    returns at once and the element keeps its text.  An element whose
    attribute is non-empty text that [JSON.parse] rejects makes
    [initTypewriter] throw the [SyntaxError] before it touches the element,
    and the exception ends the start-up of the typewriters. *)
Theorem texts_attribute (el : Typewriter.Element) :
  ((Typewriter.data_texts el = None
    \/ Typewriter.data_texts el = Some EmptyString
    \/ exists t, Typewriter.data_texts el = Some t
                 /\ Json.JSON_parse t = Json.Parsed (Json.JArr []) EmptyString) ->
   Typewriter.initTypewriter el = Typewriter.Disabled
   /\ Typewriter.text_after_init el = Typewriter.display_text el)
  /\ (forall t,
        Typewriter.data_texts el = Some t -> t <> EmptyString ->
        Json.JSON_parse t = Json.SyntaxError ->
        Typewriter.initTypewriter el = Typewriter.Threw Typewriter.SyntaxError_thrown
        /\ Typewriter.text_after_init el = Typewriter.display_text el
        /\ forall rest,
             Typewriter.onDOMContentLoaded (el :: rest)
             = ([], Some Typewriter.SyntaxError_thrown)).
Proof.
  split.
  - intros H.
    assert (Hparse : Json.JSON_parse (Typewriter.texts_source el)
                     = Json.Parsed (Json.JArr []) EmptyString).
    { unfold Typewriter.texts_source.
      destruct H as [-> | [-> | (t & -> & Ht)]]; try reflexivity.
      destruct t; [reflexivity | exact Ht]. }
    unfold Typewriter.text_after_init, Typewriter.initTypewriter.
    rewrite Hparse. split; reflexivity.
  - intros t Ht Hne Hparse.
    assert (Hsrc : Typewriter.texts_source el = t).
    { unfold Typewriter.texts_source. rewrite Ht. destruct t; congruence. }
    assert (Hinit : Typewriter.initTypewriter el
                    = Typewriter.Threw Typewriter.SyntaxError_thrown).
    { unfold Typewriter.initTypewriter. rewrite Hsrc, Hparse. reflexivity. }
    split; [exact Hinit|]. split.
    + unfold Typewriter.text_after_init. rewrite Hinit. reflexivity.
    + intros rest. cbn [Typewriter.onDOMContentLoaded]. rewrite Hinit. reflexivity.
Qed.

Lemma texts_attribute_witness :
  (Typewriter.initTypewriter
     (Typewriter.mkElement None (Some "true") None "Hello")
   = Typewriter.Disabled)
  /\ Typewriter.initTypewriter Typewriter.el_malformed
     = Typewriter.Threw Typewriter.SyntaxError_thrown.
Proof.
  split.
  - exact (proj1 (proj1 (texts_attribute
             (Typewriter.mkElement None (Some "true") None "Hello"))
             (or_introl eq_refl))).
  - assert (Hne : "[Hi, there]"%string <> EmptyString) by discriminate.
    exact (proj1 (proj2 (texts_attribute Typewriter.el_malformed)
             "[Hi, there]"%string eq_refl Hne eq_refl)).
Defined.

(** ** Typewriter: the samples *)

(** C8 on the text list of the spec: "Hi", no loop, an empty element. *)
Lemma single_text_no_loop_terminates_witness :
  let m0 := Typewriter.start ["Hi"%string] false EmptyString in
  Typewriter.initTypewriter Typewriter.el_hi = Typewriter.Started m0
  /\ Typewriter.textContent m0 :: Typewriter.shown 5 m0
     = ["H"; "Hi"; "Hi"; "H"; ""; ""]%string
  /\ Typewriter.timer (Typewriter.run 4 m0) <> None
  /\ Typewriter.timer (Typewriter.run 5 m0) = None
  /\ Typewriter.run 1000 m0 = Typewriter.run 5 m0.
Proof.
  destruct (single_text_no_loop_terminates "Hi" EmptyString)
    as (Hshown & Halive & Hend & Hstay).
  split; [reflexivity|]. split; [exact Hshown|].
  split; [apply (Halive 4%nat); cbn; lia|].
  split; [exact Hend|].
  apply (Hstay 1000%nat). cbn. lia.
Defined.

(** C10 on an element that shows "Hel" and types "lo". *)
Lemma initial_text_appended_then_discarded_witness :
  let m := Typewriter.start ["lo"%string] false "Hel" in
  Typewriter.textContent (Typewriter.run 1 m) = "Hello"%string
  /\ Typewriter.textContent (Typewriter.run 3 m) = "l"%string
  /\ Typewriter.run 3 m = Typewriter.run 3 (Typewriter.start ["lo"%string] false "").
Proof.
  destruct (initial_text_appended_then_discarded ["lo"%string] false "Hel" 1)
    as (_ & _ & _ & Hfirst).
  destruct (Hfirst "lo"%string [] eq_refl) as [Htyped Hdeleted]; [cbn; lia|].
  destruct (initial_text_appended_then_discarded ["lo"%string] false "Hel" 3)
    as (_ & _ & Hgone & _).
  split; [exact Htyped|]. split; [exact Hdeleted|].
  apply Hgone. reflexivity.
Defined.

(** ** Typewriter: a whole pass over the text list *)

Section TypewriterCycle.

Import Typewriter.

Lemma advance_after_delete (ts : list string) (lp : bool) (ti x : nat) (c : string) :
  fire (mkMachine ts lp ti 0 false c (Some x))
  = mkMachine ts lp ((ti + 1) mod List.length ts) 0 true c
      (if (negb lp && ((ti + 1) mod List.length ts =? 0)%nat)%bool
       then None else Some PAUSE_AFTER_DELETE).
Proof. reflexivity. Qed.

Lemma after_text_typed (c t : string) :
  match String.length t with O => c +:+ t | S _ => EmptyString end = after_text c t.
Proof. unfold after_text. destruct t; [apply append_nil_r | reflexivity]. Qed.

(** The ticks spent on the string at index [ti]. *)
Lemma text_cycle (ts : list string) (lp : bool) (ti x : nat) (c : string) :
  let t := nth ti ts EmptyString in
  let m := mkMachine ts lp ti 0 true c (Some x) in
  run (text_ticks t) m
  = mkMachine ts lp ((ti + 1) mod List.length ts) 0 true (after_text c t)
      (if (negb lp && ((ti + 1) mod List.length ts =? 0)%nat)%bool
       then None else Some PAUSE_AFTER_DELETE)
  /\ shown (text_ticks t) m = text_trace c t
  /\ timer (run (text_ticks t - 1) m) <> None.
Proof.
  intros t m. set (n := String.length t).
  destruct (typing_phase n 0 x c ts lp ti (le_n _)) as [HrunA HshownA].
  fold t in HrunA, HshownA. fold m in HrunA, HshownA.
  assert (Hsub : substring 0 n t = t) by apply substring_0_length.
  rewrite Hsub in HrunA. cbn [Nat.add] in HrunA.
  pose proof (pause_after_type ts lp ti
                (match n with O => x | S _ => TYPING_SPEED end) (c +:+ t)) as HB.
  fold t in HB. fold n in HB.
  destruct (deleting_phase n PAUSE_AFTER_TYPE (c +:+ t) ts lp ti) as [HrunC HshownC].
  fold t in HrunC, HshownC.
  set (mA := run n m) in *.
  set (mB := mkMachine ts lp ti n false (c +:+ t) (Some PAUSE_AFTER_TYPE)) in *.
  set (mC := run n mB) in *.
  assert (HfireA : fire mA = mB) by (rewrite HrunA; exact HB).
  assert (HD : fire mC
               = mkMachine ts lp ((ti + 1) mod List.length ts) 0 true (after_text c t)
                   (if (negb lp && ((ti + 1) mod List.length ts =? 0)%nat)%bool
                    then None else Some PAUSE_AFTER_DELETE)).
  { rewrite HrunC, advance_after_delete. unfold n. now rewrite after_text_typed. }
  assert (Hticks : text_ticks t = (n + (1 + (n + 1)))%nat) by (unfold text_ticks; fold n; lia).
  split; [|split].
  - rewrite Hticks, !run_add. fold mA. cbn [run]. rewrite HfireA. fold mC. exact HD.
  - rewrite Hticks, (shown_add n), (shown_add 1), (shown_add n). fold mA.
    rewrite HshownA. cbn [shown run]. rewrite HfireA. fold mC.
    rewrite HshownC, HD. unfold mB, text_trace. cbn [textContent]. reflexivity.
  - replace (text_ticks t - 1)%nat with (n + (1 + n))%nat by (rewrite Hticks; lia).
    rewrite !run_add. fold mA. cbn [run]. rewrite HfireA. fold mC.
    rewrite HrunC. discriminate.
Qed.

Lemma cycle_ticks_pos (t : string) (ts : list string) : (0 < cycle_ticks (t :: ts))%nat.
Proof. cbn [cycle_ticks fold_right]. unfold text_ticks. lia. Qed.

(** The ticks spent on the strings from index [length pre] to the end. *)
Lemma texts_cycle (lp : bool) (suffix : list string) :
  forall (pre ts : list string) (c : string) (x : nat),
    suffix <> [] -> ts = (pre ++ suffix)%list ->
    let m := mkMachine ts lp (List.length pre) 0 true c (Some x) in
    run (cycle_ticks suffix) m
    = mkMachine ts lp 0 0 true (after_texts c suffix)
        (if lp then Some PAUSE_AFTER_DELETE else None)
    /\ shown (cycle_ticks suffix) m = texts_trace c suffix
    /\ timer (run (cycle_ticks suffix - 1) m) <> None.
Proof.
  induction suffix as [|t rest IH]; intros pre ts c x Hne Hts m; [congruence|].
  assert (Hnth : nth (List.length pre) ts EmptyString = t).
  { rewrite Hts, app_nth2 by lia. now rewrite Nat.sub_diag. }
  assert (Hlen : List.length ts = (List.length pre + S (List.length rest))%nat).
  { rewrite Hts, length_app. reflexivity. }
  destruct (text_cycle ts lp (List.length pre) x c) as (Hrun & Hshown & Halive).
  rewrite Hnth in Hrun, Hshown, Halive. fold m in Hrun, Hshown, Halive.
  destruct rest as [|t2 rest].
  - assert (Hmod : ((List.length pre + 1) mod List.length ts = 0)%nat).
    { rewrite Hlen. cbn [List.length]. apply Nat.Div0.mod_same. }
    rewrite Hmod in Hrun. cbn [Nat.eqb andb] in Hrun.
    replace (cycle_ticks [t]) with (text_ticks t)
      by (cbn [cycle_ticks fold_right]; lia).
    cbn [texts_trace after_texts fold_left]. rewrite app_nil_r.
    split; [|split; [exact Hshown | exact Halive]].
    rewrite Hrun. destruct lp; reflexivity.
  - assert (Hmod : ((List.length pre + 1) mod List.length ts
                    = List.length pre + 1)%nat).
    { apply Nat.mod_small. rewrite Hlen. cbn [List.length]. lia. }
    rewrite Hmod in Hrun.
    replace ((List.length pre + 1 =? 0)%nat) with false in Hrun
      by (symmetry; apply Nat.eqb_neq; lia).
    rewrite andb_false_r in Hrun.
    destruct (IH (pre ++ [t])%list ts (after_text c t) PAUSE_AFTER_DELETE)
      as (Hrun' & Hshown' & Halive'); [discriminate | now rewrite <- app_assoc|].
    rewrite length_app in Hrun', Hshown', Halive'. cbn [List.length] in Hrun', Hshown', Halive'.
    rewrite <- Hrun in Hrun', Hshown', Halive'.
    change (cycle_ticks (t :: t2 :: rest))
      with (text_ticks t + cycle_ticks (t2 :: rest))%nat.
    split; [|split].
    + rewrite run_add. exact Hrun'.
    + rewrite shown_add, Hshown, Hshown'. reflexivity.
    + pose proof (cycle_ticks_pos t2 rest).
      replace (text_ticks t + cycle_ticks (t2 :: rest) - 1)%nat
        with (text_ticks t + (cycle_ticks (t2 :: rest) - 1))%nat by lia.
      rewrite run_add. exact Halive'.
Qed.

Lemma after_texts_cases (ts : list string) :
  (forall c, after_texts c ts = c) \/ (forall c, after_texts c ts = EmptyString).
Proof.
  induction ts as [|t ts IH]; [left; reflexivity|].
  destruct (String.length t) eqn:Hn.
  - assert (Ht : forall c, after_text c t = c)
      by (intros c; unfold after_text; now rewrite Hn).
    destruct IH as [IH|IH]; [left|right]; intros c;
      change (after_texts c (t :: ts)) with (after_texts (after_text c t) ts);
      now rewrite IH, ?Ht.
  - assert (Ht : forall c, after_text c t = EmptyString)
      by (intros c; unfold after_text; now rewrite Hn).
    right. intros c.
    change (after_texts c (t :: ts)) with (after_texts (after_text c t) ts).
    rewrite Ht. destruct IH as [IH|IH]; apply IH.
Qed.

Lemma after_texts_twice (c : string) (ts : list string) :
  after_texts (after_texts c ts) ts = after_texts c ts.
Proof. destruct (after_texts_cases ts) as [H|H]; now rewrite !H. Qed.

Lemma tick_keeps_loop (m : Machine) : loop (tick m) = loop m.
Proof.
  unfold tick. destruct (isTyping m).
  - destruct (charIndex m <? _)%nat; reflexivity.
  - destruct (0 <? charIndex m)%nat; reflexivity.
Qed.

Lemma tick_looping_alive (m : Machine) : loop m = true -> timer (tick m) <> None.
Proof.
  intros Hl. unfold tick. destruct (isTyping m).
  - destruct (charIndex m <? _)%nat; discriminate.
  - destruct (0 <? charIndex m)%nat; cbn [timer]; [discriminate|].
    rewrite Hl. discriminate.
Qed.

Lemma run_looping_alive (k : nat) (m : Machine) :
  loop m = true -> timer m <> None ->
  loop (run k m) = true /\ timer (run k m) <> None.
Proof.
  revert m. induction k as [|k IH]; intros m Hl Ht; [now split|].
  cbn [run]. unfold fire. destruct (timer m); [|congruence].
  apply IH; [now rewrite tick_keeps_loop | now apply tick_looping_alive].
Qed.

Lemma substring_snoc (t : string) (i : nat) :
  (i < String.length t)%nat ->
  substring 0 i t +:+ charAt i t = substring 0 (S i) t.
Proof.
  revert i. induction t as [|a t IH]; intros i Hi; cbn [String.length] in Hi; [lia|].
  destruct i as [|i].
  { change (substring 0 1 (String a t)) with (String a (substring 0 0 t)).
    now rewrite !substring_zero. }
  change (substring 0 (S i) (String a t)) with (String a (substring 0 i t)).
  change (substring 0 (S (S i)) (String a t)) with (String a (substring 0 (S i) t)).
  change (charAt (S i) (String a t)) with (charAt i t).
  rewrite append_String, IH by lia. reflexivity.
Qed.

Lemma tick_shows_prefix (m : Machine) : shows_prefix m -> shows_prefix (tick m).
Proof.
  intros (Hti & Hci & Hc). unfold shows_prefix, tick, currentText in *.
  destruct (isTyping m).
  - destruct (Nat.ltb_spec (charIndex m) (String.length (nth (textIndex m) (texts m) EmptyString)))
      as [Hlt|Hge]; cbn [textIndex texts charIndex textContent].
    + split; [exact Hti|]. split; [lia|].
      rewrite Hc. now apply substring_snoc.
    + split; [exact Hti|]. split; [exact Hci | exact Hc].
  - destruct (Nat.ltb_spec 0 (charIndex m)) as [Hpos|Hz];
      cbn [textIndex texts charIndex textContent].
    + split; [exact Hti|]. split; [lia | reflexivity].
    + assert (Hz' : charIndex m = 0%nat) by lia.
      split; [apply Nat.mod_upper_bound; lia|].
      split; [lia|].
      rewrite Hc, Hz', !substring_zero. reflexivity.
Qed.

Lemma run_shows_prefix (k : nat) (m : Machine) :
  shows_prefix m -> shows_prefix (run k m).
Proof.
  revert m. induction k as [|k IH]; intros m Hm; [exact Hm|].
  cbn [run]. apply IH. unfold fire. destruct (timer m); [|exact Hm].
  now apply tick_shows_prefix.
Qed.

End TypewriterCycle.

(** X1.  A typewriter whose loop flag is set never stops: whatever the text
    list and the initial content, a timer is pending after every tick. *)
Theorem looping_typewriter_never_stops
    (ts : list string) (c0 : string) (k : nat) :
  Typewriter.timer (Typewriter.run k (Typewriter.start ts true c0)) <> None.
Proof.
  apply run_looping_alive.
  - unfold Typewriter.start. now rewrite tick_keeps_loop.
  - unfold Typewriter.start. now apply tick_looping_alive.
Qed.

(** X2.  A typewriter without loop on a non-empty text list types and
    deletes each string once, in order, and stops: counting the direct call,
    [tick] runs once per character typed, once per character deleted and twice
    more per string; the chain is alive before the last of these ticks, ended
    after it, and nothing changes afterwards. *)
Theorem typewriter_without_loop_stops (ts : list string) (c0 : string) :
  ts <> [] ->
  let T := Typewriter.cycle_ticks ts in
  let m0 := Typewriter.start ts false c0 in
  Typewriter.textContent m0 :: Typewriter.shown (T - 1) m0
  = Typewriter.texts_trace c0 ts
  /\ (forall k, (k < T - 1)%nat -> Typewriter.timer (Typewriter.run k m0) <> None)
  /\ Typewriter.run (T - 1) m0
     = Typewriter.mkMachine ts false 0 0 true (Typewriter.after_texts c0 ts) None
  /\ (forall k, (T - 1 <= k)%nat ->
        Typewriter.run k m0 = Typewriter.run (T - 1) m0).
Proof.
  intros Hne T m0.
  set (init := Typewriter.mkMachine ts false 0 0 true c0 (Some 0%nat)).
  assert (Hm0 : forall k, Typewriter.run k m0 = Typewriter.run (S k) init) by reflexivity.
  destruct (texts_cycle false ts [] ts c0 0%nat Hne eq_refl) as (Hrun & Hshown & Halive).
  cbn [List.length] in Hrun, Hshown, Halive. fold init in Hrun, Hshown, Halive. fold T in Hrun, Hshown, Halive.
  assert (HT : (0 < T)%nat) by (unfold T; destruct ts; [congruence | apply cycle_ticks_pos]).
  assert (Hend : Typewriter.run (T - 1) m0
                 = Typewriter.mkMachine ts false 0 0 true
                     (Typewriter.after_texts c0 ts) None).
  { rewrite Hm0. replace (S (T - 1)) with T by lia. exact Hrun. }
  split; [|split; [|split]].
  - change (Typewriter.textContent m0 :: Typewriter.shown (T - 1) m0)
      with (Typewriter.shown (S (T - 1)) init).
    replace (S (T - 1)) with T by lia. exact Hshown.
  - intros k Hk.
    apply (alive_before k (T - 2)); [lia|].
    rewrite Hm0. replace (S (T - 2)) with (T - 1)%nat by lia. exact Halive.
  - exact Hend.
  - intros k Hk. replace k with ((T - 1) + (k - (T - 1)))%nat by lia.
    rewrite run_add. apply run_stopped. rewrite Hend. reflexivity.
Qed.

Lemma typewriter_without_loop_stops_witness :
  let m0 := Typewriter.start ["Hi"; "yo"]%string false EmptyString in
  Typewriter.textContent m0 :: Typewriter.shown 11 m0
  = ["H"; "Hi"; "Hi"; "H"; ""; ""; "y"; "yo"; "yo"; "y"; ""; ""]%string
  /\ Typewriter.timer (Typewriter.run 11 m0) = None.
Proof.
  pose proof (typewriter_without_loop_stops ["Hi"; "yo"]%string EmptyString
                ltac:(discriminate)) as H.
  vm_compute in H. vm_compute. destruct H as (Hshown & _ & Hend & _).
  split; [exact Hshown | reflexivity].
Defined.

(** X3.  A looping typewriter is periodic.  Once the first pass over a
    non-empty text list is over, every further pass takes the same number of
    ticks, shows the same sequence of contents, and brings the machine back to
    the state the pass started from. *)
Theorem looping_typewriter_is_periodic (ts : list string) (c0 : string) :
  ts <> [] ->
  let T := Typewriter.cycle_ticks ts in
  let c1 := Typewriter.after_texts c0 ts in
  let m1 := Typewriter.run (T - 1) (Typewriter.start ts true c0) in
  m1 = Typewriter.mkMachine ts true 0 0 true c1 (Some Typewriter.PAUSE_AFTER_DELETE)
  /\ forall passes,
       Typewriter.run (passes * T) m1 = m1
       /\ Typewriter.shown T (Typewriter.run (passes * T) m1)
          = Typewriter.texts_trace c1 ts.
Proof.
  intros Hne T c1 m1.
  set (init := Typewriter.mkMachine ts true 0 0 true c0 (Some 0%nat)).
  assert (HT : (0 < T)%nat) by (unfold T; destruct ts; [congruence | apply cycle_ticks_pos]).
  destruct (texts_cycle true ts [] ts c0 0%nat Hne eq_refl) as (Hrun & _ & _).
  cbn [List.length] in Hrun. fold init T c1 in Hrun.
  assert (Hm1 : m1 = Typewriter.mkMachine ts true 0 0 true c1
                       (Some Typewriter.PAUSE_AFTER_DELETE)).
  { unfold m1. change (Typewriter.run (T - 1) (Typewriter.start ts true c0))
      with (Typewriter.run (S (T - 1)) init).
    replace (S (T - 1)) with T by lia. exact Hrun. }
  split; [exact Hm1|].
  destruct (texts_cycle true ts [] ts c1 Typewriter.PAUSE_AFTER_DELETE Hne eq_refl)
    as (Hrun1 & Hshown1 & _).
  cbn [List.length] in Hrun1, Hshown1. fold T in Hrun1, Hshown1.
  rewrite <- Hm1 in Hrun1, Hshown1.
  unfold c1 in Hrun1 at 1. rewrite after_texts_twice in Hrun1. fold c1 in Hrun1.
  rewrite <- Hm1 in Hrun1.
  assert (Hper : forall passes, Typewriter.run (passes * T) m1 = m1).
  { induction passes as [|passes IH]; [reflexivity|].
    cbn [Nat.mul]. rewrite run_add, Hrun1. exact IH. }
  intros passes. split; [apply Hper|]. rewrite Hper. exact Hshown1.
Qed.

Lemma looping_typewriter_is_periodic_witness :
  let m1 := Typewriter.run 7 (Typewriter.start ["A"; "B"]%string true EmptyString) in
  Typewriter.run 24 m1 = m1
  /\ Typewriter.shown 8 m1 = ["A"; "A"; ""; ""; "B"; "B"; ""; ""]%string.
Proof.
  pose proof (looping_typewriter_is_periodic ["A"; "B"]%string EmptyString
                ltac:(discriminate)) as H.
  destruct H as (_ & Hper).
  split.
  - exact (proj1 (Hper 3%nat)).
  - exact (proj2 (Hper 0%nat)).
Defined.

(** X4.  Started on an empty element with a non-empty text list, the
    typewriter shows at every moment the first [charIndex] characters of the
    string at [textIndex], with both indices in range: never a character of
    another string, never more than the whole string. *)
Theorem typewriter_shows_a_prefix (ts : list string) (lp : bool) (k : nat) :
  ts <> [] ->
  Typewriter.shows_prefix (Typewriter.run k (Typewriter.start ts lp EmptyString)).
Proof.
  intros Hne. apply run_shows_prefix. unfold Typewriter.start.
  apply tick_shows_prefix. unfold Typewriter.shows_prefix, Typewriter.currentText.
  cbn [Typewriter.textIndex Typewriter.texts Typewriter.charIndex Typewriter.textContent].
  split; [destruct ts; [congruence | cbn; lia]|].
  split; [lia|]. now rewrite substring_zero.
Qed.

Lemma typewriter_shows_a_prefix_witness :
  Typewriter.shows_prefix
    (Typewriter.run 9 (Typewriter.start ["Hi"; "yo"]%string true EmptyString)).
Proof.
  assert (Hne : ["Hi"; "yo"]%string <> []) by discriminate.
  exact (typewriter_shows_a_prefix ["Hi"; "yo"]%string true 9 Hne).
Defined.

(** ** Intersection observers *)

Section ObserverSteps.

Import Observers.

Lemma obs_classes_add (t el : nat) (cls : string) (s : State) :
  classes t (classList_add el cls s)
  = if decide (t = el) then {[cls]} ∪ classes el s else classes t s.
Proof.
  unfold classes, classList_add. cbn [classLists].
  destruct (decide (t = el)) as [->|Hne].
  - now rewrite lookup_insert_eq.
  - now rewrite lookup_insert_ne by congruence.
Qed.

Lemma obs_classes_remove (t el : nat) (cls : string) (s : State) :
  classes t (classList_remove el cls s)
  = if decide (t = el) then classes el s ∖ {[cls]} else classes t s.
Proof.
  unfold classes, classList_remove. cbn [classLists].
  destruct (decide (t = el)) as [->|Hne].
  - now rewrite lookup_insert_eq.
  - now rewrite lookup_insert_ne by congruence.
Qed.

Lemma forEach_entry_snoc (f : Entry -> State -> State) (l : list Entry)
    (e : Entry) (s : State) :
  forEach_entry f (l ++ [e]) s = f e (forEach_entry f l s).
Proof. unfold forEach_entry. now rewrite fold_left_app. Qed.

Lemma last_entry_of_snoc (el : nat) (l : list Entry) (e : Entry) :
  last_entry_of el (l ++ [e])
  = if decide (target e = el) then Some e else last_entry_of el l.
Proof.
  unfold last_entry_of. rewrite filter_app.
  destruct (decide (target e = el)) as [He|He].
  - rewrite (filter_cons_True _ e []) by (now apply bool_decide_pack).
    rewrite filter_nil. apply last_snoc.
  - rewrite (filter_cons_False _ e []).
    + rewrite filter_nil. now rewrite app_nil_r.
    + intros H. apply bool_decide_unpack in H. contradiction.
Qed.

Lemma obs_elem_of_enqueue {A : Type} (x e : nat * A) (q : list (nat * A)) :
  x ∈ enqueue e q <-> x = e \/ x ∈ q.
Proof.
  induction q as [|y q IH]; cbn [enqueue].
  - rewrite list_elem_of_singleton. set_solver.
  - destruct (fst y <=? fst e)%nat.
    + rewrite !elem_of_cons, IH. tauto.
    + rewrite !elem_of_cons. tauto.
Qed.

Lemma schedule_from_fields (cls : string) (delay : nat) (els : list nat) :
  forall (i : nat) (s : State),
    classLists (schedule_from i cls delay els s) = classLists s
    /\ clock (schedule_from i cls delay els s) = clock s
    /\ forall x, x ∈ timers (schedule_from i cls delay els s)
                 <-> x ∈ timers s
                     \/ exists j el, els !! j = Some el
                          /\ x = ((clock s + (i + j) * delay)%nat, (el, cls)).
Proof.
  induction els as [|el els IH]; intros i s; cbn [schedule_from].
  - split; [reflexivity|]. split; [reflexivity|].
    intros x. split; [now left|]. intros [H|(j & e & Hj & _)]; [exact H|].
    now rewrite lookup_nil in Hj.
  - destruct (IH (S i) (setTimeout el cls (i * delay) s)) as (Hc & Hk & Ht).
    split; [exact Hc|]. split; [exact Hk|].
    intros x. rewrite Ht. cbn [setTimeout timers clock].
    rewrite obs_elem_of_enqueue. split.
    + intros [[->|H]|(j & e & Hj & ->)].
      * right. exists 0%nat, el. split; [reflexivity|]. now rewrite Nat.add_0_r.
      * now left.
      * right. exists (S j), e. split; [exact Hj|].
        now replace (i + S j)%nat with (S i + j)%nat by lia.
    + intros [H|(j & e & Hj & ->)]; [left; now right|].
      destruct j as [|j].
      * cbn in Hj. injection Hj as <-. left. left. now rewrite Nat.add_0_r.
      * right. exists j, e. split; [exact Hj|].
        now replace (i + S j)%nat with (S i + j)%nat by lia.
Qed.

Lemma remove_each_fields (cls : string) (els : list nat) :
  forall s : State,
    clock (remove_each cls els s) = clock s
    /\ timers (remove_each cls els s) = timers s
    /\ forall el c, c ∈ classes el (remove_each cls els s)
                    <-> c ∈ classes el s /\ ~ (c = cls /\ el ∈ els).
Proof.
  unfold remove_each.
  induction els as [|e els IH]; intros s; cbn [fold_left].
  - split; [reflexivity|]. split; [reflexivity|]. intros el c. set_solver.
  - destruct (IH (classList_remove e cls s)) as (Hk & Ht & Hc).
    split; [exact Hk|]. split; [exact Ht|].
    intros el c. rewrite Hc, obs_classes_remove.
    destruct (decide (el = e)) as [->|Hne]; set_solver.
Qed.

Lemma fold_run_timer_fields (due : list (nat * (nat * string))) :
  forall s : State,
    clock (fold_left run_timer due s) = clock s
    /\ timers (fold_left run_timer due s) = timers s
    /\ forall el c, c ∈ classes el (fold_left run_timer due s)
                    <-> c ∈ classes el s \/ exists t, (t, (el, c)) ∈ due.
Proof.
  induction due as [|[t [e k]] due IH]; intros s; cbn [fold_left].
  - split; [reflexivity|]. split; [reflexivity|]. intros el c.
    split; [now left|]. intros [H|[t H]]; [exact H|]. now apply elem_of_nil in H.
  - destruct (IH (run_timer s (t, (e, k)))) as (Hk & Ht & Hc).
    split; [exact Hk|]. split; [exact Ht|].
    intros el c. rewrite Hc. unfold run_timer. cbn [fst snd].
    rewrite obs_classes_add. split.
    + intros [H|[t' H]].
      * destruct (decide (el = e)) as [->|Hne]; [|now left].
        apply elem_of_union in H as [H|H]; [|now left].
        apply elem_of_singleton in H as ->. right. exists t. now left.
      * right. exists t'. now right.
    + intros [H|[t' H]].
      * left. destruct (decide (el = e)) as [->|Hne]; [|exact H]. set_solver.
      * apply elem_of_cons in H as [H|H].
        -- injection H as -> -> ->. left. rewrite decide_True by reflexivity.
           set_solver.
        -- right. now exists t'.
Qed.

Lemma elapse_fields (dt : nat) (s : State) :
  clock (elapse dt s) = (clock s + dt)%nat
  /\ (forall x, x ∈ timers (elapse dt s)
                <-> x ∈ timers s /\ (clock s + dt < fst x)%nat)
  /\ forall el c, c ∈ classes el (elapse dt s)
                  <-> c ∈ classes el s
                      \/ exists t, (t, (el, c)) ∈ timers s /\ (t <= clock s + dt)%nat.
Proof.
  unfold elapse.
  set (due := filter _ (timers s)). set (later := filter _ (timers s)).
  destruct (fold_run_timer_fields due
              (mkState (classLists s) (clock s + dt) later)) as (Hk & Ht & Hc).
  split; [exact Hk|]. split.
  - intros x. rewrite Ht. cbn [timers]. unfold later.
    rewrite list_elem_of_filter. split.
    + intros [H1 H2]. split; [exact H2|].
      destruct (Nat.leb_spec (fst x) (clock s + dt)); [contradiction | assumption].
    + intros [H1 H2]. split; [|exact H1].
      destruct (Nat.leb_spec (fst x) (clock s + dt)); [lia | exact I].
  - intros el c. rewrite Hc. unfold classes at 2. cbn [classLists].
    fold (classes el s). unfold due. split.
    + intros [H|[t H]]; [now left|]. right. exists t.
      apply list_elem_of_filter in H as [H1 H2]. split; [exact H2|].
      cbn [fst] in H1. destruct (Nat.leb_spec t (clock s + dt)); [assumption | contradiction].
    + intros [H|(t & H1 & H2)]; [now left|]. right. exists t.
      apply list_elem_of_filter. split; [|exact H1].
      cbn [fst]. destruct (Nat.leb_spec t (clock s + dt)); [exact I | lia].
Qed.

End ObserverSteps.

(** X5.  An observer made by [createObserver] touches no class but its own.
    With [removeClassOnExit] the class of an element follows the last entry
    that concerns it; without it (the observers of the member texts and the
    team members) the class is sticky: an element has it afterwards exactly if
    it had it before or one of its entries was intersecting. *)
Theorem createObserver_class
    (className : string) (removeClassOnExit : bool)
    (entries : list Observers.Entry) (s : Observers.State) (el : nat) :
  let s' := Observers.createObserver className removeClassOnExit entries s in
  (className ∈ Observers.classes el s' <->
     if removeClassOnExit then
       match Observers.last_entry_of el entries with
       | Some e => Observers.isIntersecting e = true
       | None => className ∈ Observers.classes el s
       end
     else
       className ∈ Observers.classes el s
       \/ exists e, e ∈ entries /\ Observers.target e = el
                    /\ Observers.isIntersecting e = true)
  /\ forall cls, cls <> className ->
       (cls ∈ Observers.classes el s' <-> cls ∈ Observers.classes el s).
Proof.
  induction entries as [|e entries IH] using rev_ind.
  - cbn. split; [|tauto]. destruct removeClassOnExit; [tauto|].
    split; [now left|]. intros [H|(e & H & _)]; [exact H|]. now apply elem_of_nil in H.
  - cbn zeta in *. destruct IH as [IHc IHo].
    unfold Observers.createObserver in *. rewrite forEach_entry_snoc.
    set (s1 := Observers.forEach_entry _ entries s) in *.
    rewrite last_entry_of_snoc.
    destruct e as [t b]. cbn [Observers.target Observers.isIntersecting].
    destruct b; cbv beta iota.
    + rewrite obs_classes_add. split.
      * destruct (decide (el = t)) as [->|Hne].
        -- rewrite decide_True by reflexivity.
           destruct removeClassOnExit; [set_solver|].
           split; [|set_solver]. intros _. right.
           exists (Observers.mkEntry t true). set_solver.
        -- rewrite decide_False by congruence. rewrite IHc.
           destruct removeClassOnExit; [reflexivity|].
           split.
           ++ intros [H|(e & H1 & H2 & H3)]; [now left|].
              right. exists e. set_solver.
           ++ intros [H|(e & H1 & H2 & H3)]; [now left|].
              apply elem_of_app in H1 as [H1|H1]; [right; now exists e|].
              apply list_elem_of_singleton in H1. subst e. cbn in H2. congruence.
      * intros cls Hcls. specialize (IHo cls Hcls).
        destruct (decide (el = t)) as [->|Hne]; set_solver.
    + destruct removeClassOnExit.
      * rewrite obs_classes_remove. split.
        -- destruct (decide (el = t)) as [->|Hne].
           ++ rewrite decide_True by reflexivity. set_solver.
           ++ rewrite decide_False by congruence. exact IHc.
        -- intros cls Hcls. specialize (IHo cls Hcls).
           destruct (decide (el = t)) as [->|Hne]; set_solver.
      * split; [|exact IHo]. rewrite IHc. split.
        -- intros [H|(e & H1 & H2 & H3)]; [now left|]. right. exists e. set_solver.
        -- intros [H|(e & H1 & H2 & H3)]; [now left|].
           apply elem_of_app in H1 as [H1|H1]; [right; now exists e|].
           apply list_elem_of_singleton in H1. subst e. cbn in H3. discriminate.
Qed.

(** X6.  After a callback of the fade observer an element that had an entry
    carries exactly one of the classes <<visible>> and <<hidden>>: the first
    if its last entry was intersecting, the second otherwise.  The classes of
    an element without an entry are left alone. *)
Theorem fadeObs_visible_or_hidden
    (entries : list Observers.Entry) (s : Observers.State) (el : nat) :
  let s' := Observers.fadeObs entries s in
  match Observers.last_entry_of el entries with
  | Some e =>
      (Observers.VISIBLE ∈ Observers.classes el s'
       <-> Observers.isIntersecting e = true)
      /\ (Observers.HIDDEN ∈ Observers.classes el s'
          <-> Observers.isIntersecting e = false)
  | None => Observers.classes el s' = Observers.classes el s
  end.
Proof.
  induction entries as [|e entries IH] using rev_ind; [reflexivity|].
  cbn zeta in *. unfold Observers.fadeObs in *. rewrite forEach_entry_snoc.
  set (s1 := Observers.forEach_entry _ entries s) in *.
  rewrite last_entry_of_snoc.
  destruct e as [t b]. cbn [Observers.target Observers.isIntersecting].
  assert (Hvh : Observers.VISIBLE <> Observers.HIDDEN) by discriminate.
  destruct (decide (t = el)) as [->|Hne].
  - destruct b.
    + rewrite obs_classes_remove, decide_True, obs_classes_add, decide_True by reflexivity.
      set_solver.
    + rewrite obs_classes_add, decide_True, obs_classes_remove, decide_True by reflexivity.
      set_solver.
  - assert (Hsame : forall b', Observers.classes el
               (if b' : bool
                then Observers.classList_remove t Observers.HIDDEN
                       (Observers.classList_add t Observers.VISIBLE s1)
                else Observers.classList_add t Observers.HIDDEN
                       (Observers.classList_remove t Observers.VISIBLE s1))
              = Observers.classes el s1).
    { intros [|].
      - now rewrite obs_classes_remove, decide_False, obs_classes_add, decide_False
          by congruence.
      - now rewrite obs_classes_add, decide_False, obs_classes_remove, decide_False
          by congruence. }
    rewrite Hsame. exact IH.
Qed.

(** X7.  The highlight of the core-values title follows the last entry the
    box observer processed, whichever box it concerns, while the class
    <<active>> of a box follows the last entry of that box: when one box
    leaves the viewport last, the title loses its highlight although other
    boxes are still active. *)
Theorem boxObserver_highlight_follows_last_entry
    (title : nat) (entries : list Observers.Entry) (s : Observers.State) :
  let s' := Observers.boxObserver (Some title) entries s in
  match last entries with
  | Some e => Observers.HIGHLIGHT ∈ Observers.classes title s'
              <-> Observers.isIntersecting e = true
  | None => Observers.classes title s' = Observers.classes title s
  end
  /\ forall box, box <> title ->
       match Observers.last_entry_of box entries with
       | Some e => Observers.ACTIVE ∈ Observers.classes box s'
                   <-> Observers.isIntersecting e = true
       | None => Observers.classes box s' = Observers.classes box s
       end.
Proof.
  induction entries as [|e entries IH] using rev_ind; [split; [reflexivity|]; intros; reflexivity|].
  cbn zeta in *. destruct IH as [_ IHb].
  unfold Observers.boxObserver in *. rewrite forEach_entry_snoc.
  set (s1 := Observers.forEach_entry _ entries s) in *.
  rewrite last_snoc.
  destruct e as [t b]. cbn [Observers.target Observers.isIntersecting].
  assert (Hah : Observers.ACTIVE <> Observers.HIGHLIGHT) by discriminate.
  split.
  - destruct b.
    + rewrite obs_classes_add, decide_True by reflexivity. set_solver.
    + rewrite obs_classes_remove, decide_True by reflexivity. set_solver.
  - intros box Hbox. specialize (IHb box Hbox). rewrite last_entry_of_snoc.
    cbn [Observers.target].
    destruct (decide (t = box)) as [->|Hne].
    + destruct b.
      * rewrite obs_classes_add, decide_False, obs_classes_add, decide_True by congruence.
        set_solver.
      * rewrite obs_classes_remove, decide_False, obs_classes_remove, decide_True
          by congruence.
        set_solver.
    + destruct b.
      * rewrite obs_classes_add, decide_False, obs_classes_add, decide_False by congruence.
        exact IHb.
      * rewrite obs_classes_remove, decide_False, obs_classes_remove, decide_False
          by congruence.
        exact IHb.
Qed.

(** X8.  The letters of the core-values title light up one by one: when the
    section enters the viewport with no timer pending, the letter at index [i]
    carries <<active>> after [dt] milliseconds exactly if it carried it before
    or [i * 100 <= dt]. *)
Theorem letterObserver_staggers
    (letters : list nat) (section_ : nat) (s : Observers.State) (dt el : nat) :
  Observers.timers s = [] ->
  let s' := Observers.elapse dt
              (Observers.letterObserver letters
                 [Observers.mkEntry section_ true] s) in
  Observers.ACTIVE ∈ Observers.classes el s'
  <-> Observers.ACTIVE ∈ Observers.classes el s
      \/ exists i, letters !! i = Some el /\ (i * 100 <= dt)%nat.
Proof.
  intros Hq s'. subst s'.
  unfold Observers.letterObserver, Observers.forEach_entry. cbn [fold_left Observers.isIntersecting].
  unfold Observers.schedule_each.
  destruct (schedule_from_fields Observers.ACTIVE 100 letters 0 s) as (Hc & Hk & Ht).
  set (s1 := Observers.schedule_from 0 Observers.ACTIVE 100 letters s) in *.
  destruct (elapse_fields dt s1) as (_ & _ & Hcls).
  rewrite Hcls, Hk.
  assert (Hsame : Observers.classes el s1 = Observers.classes el s)
    by (unfold Observers.classes; now rewrite Hc).
  rewrite Hsame. split.
  - intros [H|(t & H1 & H2)]; [now left|]. right.
    apply Ht in H1 as [H1|(j & e & Hj & Heq)].
    + rewrite Hq in H1. now apply elem_of_nil in H1.
    + injection Heq as -> ->. exists j. split; [exact Hj | lia].
  - intros [H|(i & Hi & Hle)]; [now left|]. right.
    exists (Observers.clock s + i * 100)%nat. split; [|lia].
    apply Ht. right. exists i, el. split; [exact Hi | reflexivity].
Qed.

Lemma letterObserver_staggers_witness :
  let s := Observers.mkState ∅ 0 [] in
  let s' := Observers.elapse 250
              (Observers.letterObserver [10; 11; 12; 13]%nat
                 [Observers.mkEntry 1%nat true] s) in
  Observers.ACTIVE ∈ Observers.classes 12%nat s'
  /\ ~ Observers.ACTIVE ∈ Observers.classes 13%nat s'.
Proof.
  pose proof (letterObserver_staggers [10; 11; 12; 13]%nat 1%nat
                (Observers.mkState ∅ 0 []) 250%nat) as H.
  split.
  - apply (H 12%nat eq_refl). right. exists 2%nat. split; [reflexivity | lia].
  - intros Hin. apply (H 13%nat eq_refl) in Hin as [Hin|(i & Hi & Hle)].
    + cbn in Hin. set_solver.
    + do 3 (destruct i as [|i]; [cbn in Hi; discriminate|]).
      destruct i as [|i]; [lia|]. cbn in Hi. discriminate.
Defined.

(** X9.  The motto words come back after the section has left.  When the
    section enters the viewport (no timer pending) and leaves it [dt1]
    milliseconds later, the callback removes <<visible>> from every word but
    does not cancel the timers still pending: [dt2] milliseconds after leaving
    a word carries <<visible>> exactly if its timer, set for [i * 400], fell
    due after the section left. *)
Theorem mottoObs_words_reappear
    (mottoWords : list nat) (motto : nat) (s : Observers.State)
    (dt1 dt2 el : nat) :
  Observers.timers s = [] ->
  el ∈ mottoWords ->
  let entered := Observers.mottoObs mottoWords [Observers.mkEntry motto true] s in
  let left := Observers.mottoObs mottoWords [Observers.mkEntry motto false]
                (Observers.elapse dt1 entered) in
  Observers.VISIBLE ∈ Observers.classes el (Observers.elapse dt2 left)
  <-> exists i, mottoWords !! i = Some el
                /\ (dt1 < i * 400)%nat /\ (i * 400 <= dt1 + dt2)%nat.
Proof.
  intros Hq Hel entered left. subst entered left.
  unfold Observers.mottoObs, Observers.forEach_entry.
  cbn [fold_left Observers.isIntersecting]. unfold Observers.schedule_each.
  destruct (schedule_from_fields Observers.VISIBLE 400 mottoWords 0 s) as (Hc & Hk & Ht).
  set (s1 := Observers.schedule_from 0 Observers.VISIBLE 400 mottoWords s) in *.
  destruct (elapse_fields dt1 s1) as (Hk2 & Ht2 & _).
  set (s2 := Observers.elapse dt1 s1) in *.
  destruct (remove_each_fields Observers.VISIBLE mottoWords s2) as (Hk3 & Ht3 & Hc3).
  set (s3 := Observers.remove_each Observers.VISIBLE mottoWords s2) in *.
  destruct (elapse_fields dt2 s3) as (_ & _ & Hc4).
  rewrite Hc4, Hc3, Hk3, Ht3, Hk2, Hk. split.
  - intros [[_ H]|(t & H1 & H2)]; [exfalso; apply H; now split|].
    apply Ht2 in H1 as [H1 H3]. cbn [fst] in H3. rewrite Hk in H3.
    apply Ht in H1 as [H1|(j & e & Hj & Heq)].
    + rewrite Hq in H1. now apply elem_of_nil in H1.
    + injection Heq as -> ->. exists j. split; [exact Hj | lia].
  - intros (i & Hi & Hlo & Hhi). right.
    exists (Observers.clock s + i * 400)%nat. split; [|lia].
    apply Ht2. rewrite Hk. cbn [fst]. split; [|lia].
    apply Ht. right. exists i, el. split; [exact Hi | reflexivity].
Qed.

Lemma mottoObs_words_reappear_witness :
  let s := Observers.mkState ∅ 0 [] in
  let entered := Observers.mottoObs [20; 21; 22]%nat [Observers.mkEntry 2%nat true] s in
  let left := Observers.mottoObs [20; 21; 22]%nat [Observers.mkEntry 2%nat false]
                (Observers.elapse 500 entered) in
  Observers.VISIBLE ∈ Observers.classes 22%nat (Observers.elapse 1000 left).
Proof.
  apply (mottoObs_words_reappear [20; 21; 22]%nat 2%nat
           (Observers.mkState ∅ 0 []) 500 1000 22%nat eq_refl).
  - set_solver.
  - exists 2%nat. split; [reflexivity | lia].
Defined.

(** X10.  A mission or vision box that enters the viewport is active at
    once and its title letters follow one by one: with no timer pending, after
    [dt] milliseconds the box carries <<active>>, and any other element
    carries it exactly if it did before or it is the letter at an index [i]
    of the box with [i * 100 <= dt]. *)
Theorem mvObserver_box_then_letters
    (spans : nat -> list nat) (box : nat) (s : Observers.State) (dt el : nat) :
  Observers.timers s = [] ->
  let s' := Observers.elapse dt
              (Observers.mvObserver spans [Observers.mkEntry box true] s) in
  Observers.ACTIVE ∈ Observers.classes box s'
  /\ (el <> box ->
      (Observers.ACTIVE ∈ Observers.classes el s'
       <-> Observers.ACTIVE ∈ Observers.classes el s
           \/ exists i, spans box !! i = Some el /\ (i * 100 <= dt)%nat)).
Proof.
  intros Hq s'. subst s'.
  unfold Observers.mvObserver, Observers.forEach_entry.
  cbn [fold_left Observers.isIntersecting Observers.target].
  unfold Observers.schedule_each.
  set (s1 := Observers.classList_add box Observers.ACTIVE s).
  destruct (schedule_from_fields Observers.ACTIVE 100 (spans box) 0 s1) as (Hc & Hk & Ht).
  set (s2 := Observers.schedule_from 0 Observers.ACTIVE 100 (spans box) s1) in *.
  destruct (elapse_fields dt s2) as (_ & _ & Hcls).
  assert (Hsame : forall x, Observers.classes x s2 = Observers.classes x s1)
    by (intros x; unfold Observers.classes; now rewrite Hc).
  split.
  - apply Hcls. left. rewrite Hsame. unfold s1.
    rewrite obs_classes_add, decide_True by reflexivity.
    apply elem_of_union. left. now apply elem_of_singleton.
  - intros Hne. rewrite Hcls, Hk, Hsame. unfold s1 at 1.
    rewrite obs_classes_add, decide_False by exact Hne.
    split.
    + intros [H|(t & H1 & H2)]; [now left|]. right.
      apply Ht in H1 as [H1|(j & e & Hj & Heq)].
      * unfold s1 in H1. cbn [Observers.timers Observers.classList_add] in H1.
        rewrite Hq in H1. now apply elem_of_nil in H1.
      * injection Heq as -> ->. exists j. split; [exact Hj|].
        unfold s1 in H2. cbn [Observers.clock Observers.classList_add] in H2. lia.
    + intros [H|(i & Hi & Hle)]; [now left|]. right.
      exists (Observers.clock s1 + i * 100)%nat. split; [|lia].
      apply Ht. right. exists i, el. split; [exact Hi | reflexivity].
Qed.

Lemma mvObserver_box_then_letters_witness :
  let s := Observers.mkState ∅ 0 [] in
  let s' := Observers.elapse 100
              (Observers.mvObserver (fun _ => [31; 32; 33]%nat)
                 [Observers.mkEntry 30%nat true] s) in
  Observers.ACTIVE ∈ Observers.classes 30%nat s'
  /\ Observers.ACTIVE ∈ Observers.classes 32%nat s'.
Proof.
  pose proof (mvObserver_box_then_letters (fun _ => [31; 32; 33]%nat) 30%nat
                (Observers.mkState ∅ 0 []) 100 32%nat eq_refl) as [Hbox Hletter].
  split; [exact Hbox|].
  apply Hletter; [discriminate|]. right. exists 1%nat. split; [reflexivity | lia].
Defined.

(** ** Time formatter: distinct times, distinct labels *)







(** ** Profile overlay: one call after another *)

Lemma set_if_present_twice (el : option string) (x y : string) :
  Overlay.set_if_present (Overlay.set_if_present el x) y
  = Overlay.set_if_present el y.
Proof. now destruct el. Qed.

Lemma active_twice (c : gset string) :
  {[Overlay.ACTIVE]} ∪ ({[Overlay.ACTIVE]} ∪ c) = {[Overlay.ACTIVE]} ∪ c.
Proof. set_solver. Qed.

Lemma active_after_remove (c : gset string) :
  {[Overlay.ACTIVE]} ∪ (c ∖ {[Overlay.ACTIVE]}) = {[Overlay.ACTIVE]} ∪ c.
Proof.
  apply set_eq. intros x. destruct (decide (x = Overlay.ACTIVE)); set_solver.
Qed.

(** X12.  The overlay shows the member opened last and nothing of an
    earlier call: for a name of the table, opening it after any other call of
    [openOverlay] (a member, a name the table lacks, a name inherited from
    [Object.prototype], a call that threw half-way) gives the same result as
    opening it directly. *)
Theorem openOverlay_shows_last_member
    (n1 n2 : string) (data : Overlay.Member) (s : Overlay.State) :
  Overlay.memberData !! n2 = Some data ->
  Overlay.openOverlay n2 (Overlay.state_of (Overlay.openOverlay n1 s))
  = Overlay.openOverlay n2 s.
Proof.
  intros Hdata.
  assert (Hget : Overlay.memberData_get n2 = Overlay.Own data)
    by (unfold Overlay.memberData_get; now rewrite Hdata).
  destruct s as [ov pm pn pr bb bc bs sg sa sh sw].
  unfold Overlay.openOverlay at 2.
  destruct (Overlay.memberData_get n1) as [d1| |];
    destruct ov as [c|]; cbn [Overlay.overlay Overlay.state_of]; try reflexivity;
    destruct pn as [x|]; cbn [Overlay.profileName Overlay.state_of]; try reflexivity;
    destruct pr as [y|];
    cbn [Overlay.profileRole Overlay.profileName Overlay.profileModel Overlay.bioBday
         Overlay.bioContact Overlay.bioSpecialty Overlay.statGender Overlay.statAge
         Overlay.statHeight Overlay.statWeight Overlay.overlay Overlay.state_of].
  - unfold Overlay.openOverlay. rewrite Hget.
    cbn [Overlay.profileRole Overlay.profileName Overlay.profileModel Overlay.bioBday
         Overlay.bioContact Overlay.bioSpecialty Overlay.statGender Overlay.statAge
         Overlay.statHeight Overlay.statWeight Overlay.overlay].
    now rewrite !set_if_present_twice, active_twice.
  - unfold Overlay.openOverlay. rewrite Hget. reflexivity.
  - destruct sg, sa, sh, sw; cbn [Overlay.state_of];
      unfold Overlay.openOverlay; rewrite Hget;
      cbn [Overlay.profileRole Overlay.profileName Overlay.profileModel Overlay.bioBday
           Overlay.bioContact Overlay.bioSpecialty Overlay.statGender Overlay.statAge
           Overlay.statHeight Overlay.statWeight Overlay.overlay];
      rewrite ?set_if_present_twice, ?active_twice; reflexivity.
  - unfold Overlay.openOverlay. rewrite Hget. reflexivity.
Qed.

Lemma openOverlay_shows_last_member_witness :
  Overlay.openOverlay "Jovan C. Certifico"
    (Overlay.state_of (Overlay.openOverlay "constructor" Overlay.page_blank))
  = Overlay.openOverlay "Jovan C. Certifico" Overlay.page_blank.
Proof.
  apply (openOverlay_shows_last_member "constructor" "Jovan C. Certifico"
           (Overlay.mkMember "model/source/Certifico.glb" "| FRONT END DEVELOPER |"
              "03/18/2006" "jcertifico@kld.edu.ph" "Front-end"
              (Overlay.mkStats "Male" "19" "162cm" "53kg"))).
  vm_compute. reflexivity.
Defined.

(** X13.  [closeOverlay] only hides: it removes the class <<active>> and
    leaves every text of the overlay as it is, doing it twice is doing it
    once, and on a page with the name and role elements opening a member of
    the table after closing gives what opening it directly gives. *)
Theorem closeOverlay_only_hides
    (name : string) (data : Overlay.Member) (s : Overlay.State) :
  Overlay.memberData !! name = Some data ->
  Overlay.profileName s <> None -> Overlay.profileRole s <> None ->
  let s' := Overlay.closeOverlay s in
  (forall c, Overlay.overlay s = Some c ->
             Overlay.overlay s' = Some (c ∖ {[Overlay.ACTIVE]}))
  /\ (Overlay.profileModel s', Overlay.profileName s', Overlay.profileRole s',
      Overlay.bioBday s', Overlay.bioContact s', Overlay.bioSpecialty s',
      Overlay.statGender s', Overlay.statAge s', Overlay.statHeight s',
      Overlay.statWeight s')
     = (Overlay.profileModel s, Overlay.profileName s, Overlay.profileRole s,
        Overlay.bioBday s, Overlay.bioContact s, Overlay.bioSpecialty s,
        Overlay.statGender s, Overlay.statAge s, Overlay.statHeight s,
        Overlay.statWeight s)
  /\ Overlay.closeOverlay s' = s'
  /\ Overlay.openOverlay name s' = Overlay.openOverlay name s.
Proof.
  intros Hdata Hname Hrole s'. subst s'.
  assert (Hget : Overlay.memberData_get name = Overlay.Own data)
    by (unfold Overlay.memberData_get; now rewrite Hdata).
  destruct s as [ov pm pn pr bb bc bs sg sa sh sw].
  cbn [Overlay.profileName Overlay.profileRole] in Hname, Hrole.
  destruct pn as [x|]; [|congruence]. destruct pr as [y|]; [|congruence].
  destruct ov as [c|]; unfold Overlay.closeOverlay;
    cbn [Overlay.profileRole Overlay.profileName Overlay.profileModel Overlay.bioBday
         Overlay.bioContact Overlay.bioSpecialty Overlay.statGender Overlay.statAge
         Overlay.statHeight Overlay.statWeight Overlay.overlay].
  - split; [intros c' [= <-]; reflexivity|]. split; [reflexivity|].
    split.
    + f_equal. f_equal. set_solver.
    + unfold Overlay.openOverlay. rewrite Hget.
      cbn [Overlay.profileRole Overlay.profileName Overlay.profileModel Overlay.bioBday
           Overlay.bioContact Overlay.bioSpecialty Overlay.statGender Overlay.statAge
           Overlay.statHeight Overlay.statWeight Overlay.overlay].
      now rewrite active_after_remove.
  - split; [intros c' [=]|]. repeat split; reflexivity.
Qed.

Lemma closeOverlay_only_hides_witness :
  let s := Overlay.state_of
             (Overlay.openOverlay "Kurt Andrew F. Dapat" Overlay.page_blank) in
  Overlay.closeOverlay (Overlay.closeOverlay s) = Overlay.closeOverlay s
  /\ Overlay.openOverlay "Kurt Andrew F. Dapat" (Overlay.closeOverlay s)
     = Overlay.openOverlay "Kurt Andrew F. Dapat" s.
Proof.
  exact (proj2 (proj2
           (closeOverlay_only_hides "Kurt Andrew F. Dapat"
              (Overlay.mkMember "model/source/Dapat.glb" "| DESIGNER |"
                 "03/18/2006" "kadapat@kld.edu.ph" "UI/UX Design"
                 (Overlay.mkStats "Male" "18" "154cm" "43kg"))
              (Overlay.state_of
                 (Overlay.openOverlay "Kurt Andrew F. Dapat" Overlay.page_blank))
              ltac:(vm_compute; reflexivity)
              ltac:(vm_compute; discriminate)
              ltac:(vm_compute; discriminate)))).
Defined.

(** ** Music player: what every reachable state satisfies *)

Ltac fields :=
  cbn; repeat split; try reflexivity; try discriminate; try assumption;
  try tauto; try (intros; congruence).

Section PlayerReach.

Import Player.

Lemma same_controls_refl (s : State) : same_controls s s.
Proof. unfold same_controls. fields. Qed.

Lemma same_controls_trans (s1 s2 s3 : State) :
  same_controls s1 s2 -> same_controls s2 s3 -> same_controls s1 s3.
Proof.
  unfold same_controls.
  intros (A1 & A2 & A3 & A4 & A5 & A6 & A7 & A8 & A9 & A10 & A11)
         (B1 & B2 & B3 & B4 & B5 & B6 & B7 & B8 & B9 & B10 & B11).
  repeat split; try congruence; auto.
Qed.

Lemma updateProgress_controls (s : State) :
  same_controls s (state_of (updateProgress s)).
Proof.
  unfold updateProgress, same_controls.
  destruct (currentAudio s) as [i|] eqn:Hi; [|fields].
  destruct (isPlaying s) eqn:Hp; [|fields].
  destruct (audios s !! i) as [a|]; [|fields].
  destruct (progressBar s) as [bar|] eqn:Hbar; [|fields].
  cbn [timeDisplay set_progressBar].
  destruct (timeDisplay s) as [lbl|] eqn:Hlbl; fields.
Qed.

Lemma update_audio_controls (i : nat) (f : Audio -> Audio) (s : State) :
  same_controls s (update_audio i f s).
Proof. unfold same_controls. fields. Qed.

Lemma set_uncaught_controls (l : list Error) (s : State) :
  same_controls s (set_uncaught l s).
Proof. unfold same_controls. fields. Qed.

Lemma attach_listeners_controls (s : State) : same_controls s (attach_listeners s).
Proof.
  unfold attach_listeners. destruct (currentAudio s);
    [apply update_audio_controls | apply same_controls_refl].
Qed.

Lemma onLoadedMetadata_controls (i : nat) (d : Z) (s : State) :
  same_controls s (state_of (onLoadedMetadata i d s)).
Proof.
  unfold onLoadedMetadata, same_controls. cbn zeta.
  repeat match goal with
         | |- context [match ?x with _ => _ end] => destruct x eqn:?
         end; cbn in *; fields.
Qed.

Lemma playback_controls (i : nat) (t : Z) (s : State) :
  same_controls s (playback i t s).
Proof.
  unfold playback. destruct (audios s !! i) as [a|]; [|apply same_controls_refl].
  destruct (paused a); [apply same_controls_refl | apply update_audio_controls].
Qed.

Lemma onAnimationFrame_controls (s : State) :
  same_controls s (state_of (onAnimationFrame s)).
Proof.
  unfold onAnimationFrame. destruct (frames s) as [|n]; [apply same_controls_refl|].
  apply (same_controls_trans _ (set_frames n s)); [|apply updateProgress_controls].
  unfold same_controls. fields.
Qed.

(** What [finish_track] leaves alone, whether it returns or throws. *)
Lemma finish_track_controls (m : string) (s : State) :
  let s' := state_of (finish_track m s) in
  musicPlayer s' = musicPlayer s /\ cards s' = cards s
  /\ currentAudio s' = currentAudio s /\ isPlaying s' = isPlaying s
  /\ activeCard s' = activeCard s /\ clock s' = clock s /\ timers s' = timers s.
Proof.
  unfold finish_track, bind, modify, set_songTitle_text.
  destruct (songTitle s) as [old|]; [|fields].
  set (s1 := attach_listeners _).
  pose proof (updateProgress_controls s1) as (A1 & A2 & A3 & A4 & A5 & A6 & A7 & A8 & A9 & _).
  pose proof (attach_listeners_controls
                (set_playPauseBtn GLYPH_PAUSE (set_songTitle (Some (last_segment m)) s)))
    as (B1 & B2 & B3 & B4 & B5 & B6 & B7 & B8 & B9 & _).
  fold s1 in B1, B2, B3, B4, B5, B6, B7, B8, B9.
  cbn in B1, B4, B5, B6, B7, B8, B9.
  destruct (updateProgress s1) as [[] s2|e s2]; cbn [state_of] in *;
    repeat split; congruence.
Qed.

Lemma stop_fields (s : State) :
  let s' := stopAndHidePlayer s in
  currentAudio s' = None /\ isPlaying s' = false /\ activeCard s' = None
  /\ playPauseBtn s' = GLYPH_PLAY /\ musicPlayer s' = {[HIDDEN]} ∪ musicPlayer s
  /\ cards s' = cards s /\ clock s' = clock s /\ timers s' = timers s
  /\ songTitle s' = songTitle s /\ progressBar s' = progressBar s
  /\ timeDisplay s' = timeDisplay s /\ frames s' = frames s.
Proof. unfold stopAndHidePlayer. destruct (currentAudio s) eqn:Hi; fields. Qed.

Lemma start_track_fields (m : string) (s : State) :
  let s' := start_track m s in
  currentAudio s' = Some (List.length (audios s)) /\ isPlaying s' = true
  /\ activeCard s' = activeCard s /\ playPauseBtn s' = playPauseBtn s
  /\ musicPlayer s' = (musicPlayer s ∖ {[HIDDEN]})
  /\ cards s' = cards s /\ clock s' = clock s /\ timers s' = timers s
  /\ songTitle s' = songTitle s /\ progressBar s' = progressBar s
  /\ timeDisplay s' = timeDisplay s /\ frames s' = frames s.
Proof. unfold start_track. cbn. destruct (autoplay s) eqn:Ha; fields. Qed.

(** What [playCardMusic] leaves behind, whether it returns or throws. *)
Lemma playCardMusic_fields (card : nat) (m : string) (s : State) :
  let s' := state_of (playCardMusic card m s) in
  currentAudio s' = Some (List.length (audios s)) /\ isPlaying s' = true
  /\ activeCard s' = Some card /\ (HIDDEN ∉ musicPlayer s')
  /\ cards s' = cards s /\ clock s' = clock s /\ timers s' = timers s.
Proof.
  unfold playCardMusic.
  set (s1 := set_activeCard (Some card) (stopAndHidePlayer s)).
  destruct (finish_track_controls m (start_track m s1)) as (A1 & A2 & A3 & A4 & A5 & A6 & A7).
  destruct (start_track_fields m s1) as (B1 & B2 & B3 & _ & B5 & B6 & B7 & B8 & _).
  destruct (stop_fields s) as (_ & _ & _ & _ & _ & C6 & C7 & C8 & _).
  cbn zeta. rewrite A1, A2, A3, A4, A5, A6, A7, B1, B2, B3, B5, B6, B7, B8.
  unfold s1. cbn [audios set_activeCard activeCard cards clock timers musicPlayer].
  rewrite stop_length, C6, C7, C8. repeat split; try reflexivity. set_solver.
Qed.

Lemma closeCard_fields (card : nat) (s : State) :
  let s' := closeCard card s in
  currentAudio s' = None /\ isPlaying s' = false /\ activeCard s' = None
  /\ playPauseBtn s' = GLYPH_PLAY /\ musicPlayer s' = {[HIDDEN]} ∪ musicPlayer s
  /\ cards s' = alter closed card (cards s) /\ clock s' = clock s
  /\ timers s' = enqueue ((clock s + 1000)%nat, RemoveClass card CLOSING) (timers s)
  /\ songTitle s' = songTitle s /\ progressBar s' = progressBar s
  /\ timeDisplay s' = timeDisplay s.
Proof.
  cbn zeta. rewrite closeCard_shape.
  destruct (stop_fields s) as (A1 & A2 & A3 & A4 & A5 & A6 & A7 & A8 & A9 & A10 & A11 & _).
  fields.
Qed.

Lemma fold_run_timer_controls (l : list (nat * TimerAction)) :
  forall s : State,
    let s' := fold_left run_timer l s in
    musicPlayer s' = musicPlayer s /\ playPauseBtn s' = playPauseBtn s
    /\ songTitle s' = songTitle s /\ progressBar s' = progressBar s
    /\ timeDisplay s' = timeDisplay s /\ currentAudio s' = currentAudio s
    /\ isPlaying s' = isPlaying s /\ activeCard s' = activeCard s
    /\ clock s' = clock s /\ timers s' = timers s.
Proof.
  induction l as [|[t a] l IH]; intros s; cbn [fold_left]; [fields|].
  cbn zeta in *.
  destruct (IH (run_timer s (t, a))) as (A1 & A2 & A3 & A4 & A5 & A6 & A7 & A8 & A9 & A10).
  rewrite A1, A2, A3, A4, A5, A6, A7, A8, A9, A10.
  unfold run_timer. destruct a; fields.
Qed.

Lemma elapse_controls (dt : nat) (s : State) :
  let s' := elapse dt s in
  musicPlayer s' = musicPlayer s /\ playPauseBtn s' = playPauseBtn s
  /\ songTitle s' = songTitle s /\ progressBar s' = progressBar s
  /\ timeDisplay s' = timeDisplay s /\ currentAudio s' = currentAudio s
  /\ isPlaying s' = isPlaying s /\ activeCard s' = activeCard s
  /\ clock s' = (clock s + dt)%nat
  /\ timers s' = filter (fun e => negb (fst e <=? clock s + dt)%nat) (timers s).
Proof.
  unfold elapse. cbn zeta.
  set (due := filter _ (timers s)). set (later := filter _ (timers s)).
  destruct (fold_run_timer_controls due (set_clock (clock s + dt) (set_timers later s)))
    as (A1 & A2 & A3 & A4 & A5 & A6 & A7 & A8 & A9 & A10).
  rewrite A1, A2, A3, A4, A5, A6, A7, A8, A9, A10. fields.
Qed.

(** An invariant that [closeCard], [playCardMusic] and the two steps that
    open a card preserve is preserved by a click, at any depth. *)
Lemma click_preserved (P : State -> Prop) :
  (forall card s, P s -> P (closeCard card s)) ->
  (forall card m s, P s -> P (state_of (playCardMusic card m s))) ->
  (forall card s, P s -> P (classList_add card ANIMATE s)) ->
  (forall card s, P s -> P (setTimeout (AddClass card SHOW_TEXT) 1200 s)) ->
  forall d card s, P s -> P (state_of (handleCardClick_depth d card s)).
Proof.
  intros Hclose Hplay Hadd Htimer.
  assert (Hopen : forall card attr s, P s -> P (state_of (openBranch card attr s))).
  { intros card attr s Hs. unfold openBranch, bind, modify.
    destruct (truthy attr) as [m|].
    - specialize (Hplay card m s Hs).
      destruct (playCardMusic card m s) as [[] s1|e s1]; cbn [state_of] in *; auto.
    - cbn [ret state_of]. auto. }
  induction d as [|d IH]; intros card s Hs; [exact Hs|].
  rewrite click_unfold.
  destruct (negb (contains card ANIMATE s)); [|cbn [state_of]; auto].
  destruct (activeCard s) as [a|]; [|auto].
  destruct (negb (a =? card)%nat); [|auto].
  unfold bind. specialize (IH a s Hs).
  destruct (handleCardClick_depth d a s) as [[] s1|e s1]; cbn [state_of] in *; auto.
Qed.

(** An invariant of the controls that every handler preserves holds after
    every event, whether the handler returned or threw. *)
Lemma dispatch_preserved (P : State -> Prop) :
  (forall s s', same_controls s s' -> P s -> P s') ->
  (forall card s, coherent s -> P s -> P (state_of (handleCardClick card s))) ->
  (forall s, coherent s -> P s -> P (state_of (onPlayPauseClick s))) ->
  (forall i s, P s -> P (state_of (onEnded i s))) ->
  (forall dt s, coherent s -> P s -> P (elapse dt s)) ->
  forall e s, coherent s -> P s -> P (dispatch e s).
Proof.
  intros Hsame Hclick Hbutton Hended Helapse e s Hcoh Hs.
  assert (Hh : P (state_of (handler e s))).
  { destruct e as [card| |i d|i|i t| |dt]; cbn [handler].
    - now apply Hclick.
    - now apply Hbutton.
    - apply (Hsame s); [apply onLoadedMetadata_controls | exact Hs].
    - now apply Hended.
    - apply (Hsame s); [apply playback_controls | exact Hs].
    - apply (Hsame s); [apply onAnimationFrame_controls | exact Hs].
    - now apply Helapse. }
  unfold dispatch. destruct (handler e s) as [[] s1|err s1]; cbn [state_of] in Hh.
  - exact Hh.
  - apply (Hsame s1); [apply set_uncaught_controls | exact Hh].
Qed.

Lemma run_preserved (P : State -> Prop) :
  (forall e s, coherent s -> P s -> P (dispatch e s)) ->
  forall events s, coherent s -> P s -> P (run events s).
Proof.
  intros Hstep events. unfold run.
  induction events as [|e events IH]; intros s Hcoh Hs; [exact Hs|].
  cbn [fold_left]. apply IH; [now apply dispatch_coherent | now apply Hstep].
Qed.

Lemma onEnded_fields (i : nat) (s : State) :
  let s' := state_of (onEnded i s) in
  musicPlayer s' = musicPlayer s /\ songTitle s' = songTitle s
  /\ progressBar s' = progressBar s /\ timeDisplay s' = timeDisplay s
  /\ cards s' = cards s /\ currentAudio s' = currentAudio s
  /\ activeCard s' = activeCard s /\ clock s' = clock s /\ timers s' = timers s
  /\ ((isPlaying s' = isPlaying s /\ playPauseBtn s' = playPauseBtn s)
      \/ (isPlaying s' = false /\ playPauseBtn s' = GLYPH_PLAY)).
Proof.
  unfold onEnded. destruct (audios s !! i) as [a|]; [|fields].
  destruct (listening a); fields.
Qed.

Lemma onPlayPauseClick_fields (s : State) :
  let s' := state_of (onPlayPauseClick s) in
  musicPlayer s' = musicPlayer s /\ songTitle s' = songTitle s
  /\ (progressBar s <> None -> progressBar s' <> None)
  /\ (timeDisplay s <> None -> timeDisplay s' <> None)
  /\ cards s' = cards s /\ currentAudio s' = currentAudio s
  /\ activeCard s' = activeCard s /\ clock s' = clock s /\ timers s' = timers s
  /\ match currentAudio s with
     | None => isPlaying s' = isPlaying s /\ playPauseBtn s' = playPauseBtn s
     | Some _ => isPlaying s' = negb (isPlaying s)
                 /\ playPauseBtn s' = glyph_of (negb (isPlaying s))
     end.
Proof.
  unfold onPlayPauseClick. destruct (currentAudio s) as [i|] eqn:Hi; [|fields].
  destruct (isPlaying s) eqn:Hp; [cbn; rewrite ?Hi; fields|].
  set (s1 := set_playPauseBtn _ _).
  destruct (updateProgress_controls s1)
    as (A1 & A2 & A3 & A4 & A5 & A6 & A7 & A8 & A9 & A10 & A11).
  cbn zeta. rewrite A1, A2, A3, A4, A5, A6, A7, A8, A9.
  unfold s1 in *. cbn in *. rewrite Hi. fields.
Qed.

Lemma installed_fields (p : Page) (s : State) (err : option Error) :
  musicPlayerController p = Installed s err ->
  currentAudio s = None /\ isPlaying s = false /\ activeCard s = None
  /\ timers s = [] /\ cards s = page_cards p
  /\ page_playPauseBtn p = Some (playPauseBtn s)
  /\ songTitle s = page_songTitle p /\ progressBar s = page_progressBar p
  /\ timeDisplay s = page_timeDisplay p.
Proof.
  unfold musicPlayerController.
  destruct (page_musicPlayer p); [|discriminate].
  destruct (page_playPauseBtn p); [|discriminate].
  intros [= <- _]. fields.
Qed.

Lemma panel_step (e : Event) (s : State) : coherent s -> panel s -> panel (dispatch e s).
Proof.
  apply dispatch_preserved; clear e s.
  - intros s s' (A1 & _ & _ & _ & A5 & A6 & A7 & _) (P1 & P2 & P3).
    unfold panel. rewrite A1, A5, A6, A7. tauto.
  - intros card s _. apply click_preserved; clear card s.
    + intros card s _. destruct (closeCard_fields card s) as (A1 & A2 & A3 & _).
      unfold panel. rewrite A1, A2, A3. split; [congruence|]. split; [discriminate | reflexivity].
    + intros card m s _.
      destruct (playCardMusic_fields card m s) as (A1 & A2 & A3 & A4 & _).
      unfold panel. rewrite A1, A2. split; [auto|]. split; [discriminate | discriminate].
    + intros card s Hs. exact Hs.
    + intros card s Hs. exact Hs.
  - intros s _ (P1 & P2 & P3).
    destruct (onPlayPauseClick_fields s) as (A1 & _ & _ & _ & _ & A6 & A7 & _ & _ & A10).
    unfold panel. rewrite A1, A6, A7. split; [exact P1|]. split; [|exact P3].
    destruct (currentAudio s); [discriminate|]. destruct A10 as [-> _]. exact P2.
  - intros i s (P1 & P2 & P3).
    destruct (onEnded_fields i s) as (A1 & _ & _ & _ & _ & A6 & A7 & _ & _ & A10).
    unfold panel. rewrite A1, A6, A7. split; [exact P1|]. split; [|exact P3].
    destruct A10 as [[-> _]|[-> _]]; [exact P2 | discriminate].
  - intros dt s _ (P1 & P2 & P3).
    destruct (elapse_controls dt s) as (A1 & _ & _ & _ & _ & A6 & A7 & A8 & _).
    unfold panel. rewrite A1, A6, A7, A8. tauto.
Qed.

End PlayerReach.

(** X14.  The panel follows the track.  After any sequence of events on a
    page where the controller installs, and whether or not a handler threw on
    the way: while a track is referenced the panel does not carry the class
    <<hidden>>; [isPlaying] is set only while a track is referenced; and a card
    is the active card exactly while a track is referenced. *)
Theorem panel_follows_track
    (p : Player.Page) (s0 : Player.State) (err : option Player.Error)
    (events : list Player.Event) :
  Player.musicPlayerController p = Player.Installed s0 err ->
  let s := Player.run events s0 in
  (Player.currentAudio s <> None -> Player.HIDDEN ∉ Player.musicPlayer s)
  /\ (Player.isPlaying s = true -> Player.currentAudio s <> None)
  /\ (Player.activeCard s = None <-> Player.currentAudio s = None).
Proof.
  intros Hp s.
  pose proof (installed_coherent p s0 err Hp) as Hcoh0.
  destruct (installed_fields p s0 err Hp) as (I1 & I2 & I3 & _).
  assert (Hpanel : Player.panel s).
  { apply run_preserved; [apply panel_step | exact Hcoh0 |].
    unfold Player.panel. rewrite I1, I2, I3.
    split; [congruence|]. split; [discriminate | reflexivity]. }
  pose proof (run_coherent events s0 Hcoh0) as Hcoh. fold s in Hcoh.
  destruct Hpanel as (P1 & P2 & P3).
  split; [exact P1|]. split; [exact P2|].
  split; [apply (Player.coh_active s Hcoh) | exact P3].
Qed.

Lemma panel_follows_track_witness :
  let s := Player.run [Player.CardClick 0%nat; Player.PlayPauseClick;
                       Player.CardClick 1%nat]
             (Player.installed Player.page_no_title) in
  (Player.currentAudio s <> None -> Player.HIDDEN ∉ Player.musicPlayer s)
  /\ (Player.isPlaying s = true -> Player.currentAudio s <> None)
  /\ (Player.activeCard s = None <-> Player.currentAudio s = None).
Proof.
  exact (panel_follows_track Player.page_no_title
           (Player.installed Player.page_no_title) None
           [Player.CardClick 0%nat; Player.PlayPauseClick; Player.CardClick 1%nat]
           eq_refl).
Defined.

(** ** Music player: the button *)

Section PlayerButton.

Import Player.

Lemma finish_track_titled (m : string) (s : State) :
  songTitle s <> None ->
  let s' := state_of (finish_track m s) in
  songTitle s' = Some (last_segment m) /\ playPauseBtn s' = GLYPH_PAUSE
  /\ (progressBar s <> None -> progressBar s' <> None)
  /\ (timeDisplay s <> None -> timeDisplay s' <> None).
Proof.
  intros Htitle. unfold finish_track, bind, modify, set_songTitle_text.
  destruct (songTitle s) as [old|]; [|congruence].
  set (s0 := set_playPauseBtn GLYPH_PAUSE (set_songTitle (Some (last_segment m)) s)).
  pose proof (attach_listeners_controls s0) as (_ & B2 & B3 & _ & _ & _ & _ & _ & _ & B10 & B11).
  set (s1 := attach_listeners s0) in *.
  pose proof (updateProgress_controls s1) as (_ & A2 & A3 & _ & _ & _ & _ & _ & _ & A10 & A11).
  cbn in B2, B3, B10, B11.
  destruct (updateProgress s1) as [[] s2|e s2]; cbn [state_of] in *;
    (split; [congruence|]; split; [congruence|]; split; auto).
Qed.

Lemma playCardMusic_button (card : nat) (m : string) (s : State) :
  songTitle s <> None ->
  let s' := state_of (playCardMusic card m s) in
  songTitle s' = Some (last_segment m) /\ playPauseBtn s' = GLYPH_PAUSE
  /\ (progressBar s <> None -> progressBar s' <> None)
  /\ (timeDisplay s <> None -> timeDisplay s' <> None).
Proof.
  intros Htitle. unfold playCardMusic.
  set (s1 := set_activeCard (Some card) (stopAndHidePlayer s)).
  destruct (start_track_fields m s1) as (_ & _ & _ & _ & _ & _ & _ & _ & B9 & B10 & B11 & _).
  destruct (stop_fields s) as (_ & _ & _ & _ & _ & _ & _ & _ & C9 & C10 & C11 & _).
  assert (H1 : songTitle s1 = songTitle s) by exact C9.
  assert (H2 : progressBar s1 = progressBar s) by exact C10.
  assert (H3 : timeDisplay s1 = timeDisplay s) by exact C11.
  destruct (finish_track_titled m (start_track m s1)) as (A1 & A2 & A3 & A4);
    [congruence|].
  cbn zeta. split; [exact A1|]. split; [exact A2|].
  rewrite B10, B11, H2, H3 in *. split; assumption.
Qed.

Lemma button_step (e : Event) (s : State) :
  coherent s -> button_shows_state s -> button_shows_state (dispatch e s).
Proof.
  apply dispatch_preserved; clear e s.
  - intros s s' (_ & A2 & A3 & _ & _ & A6 & _) (P1 & P2).
    unfold button_shows_state. rewrite A2, A3, A6. now split.
  - intros card s _. apply click_preserved; clear card s.
    + intros card s (P1 & P2).
      destruct (closeCard_fields card s) as (_ & A2 & _ & A4 & _ & _ & _ & _ & A9 & _).
      unfold button_shows_state. rewrite A2, A4, A9. now split.
    + intros card m s (P1 & P2).
      destruct (playCardMusic_button card m s P1) as (A1 & A2 & _).
      destruct (playCardMusic_fields card m s) as (_ & B2 & _).
      unfold button_shows_state. rewrite A1, A2, B2. now split.
    + intros card s Hs. exact Hs.
    + intros card s Hs. exact Hs.
  - intros s _ (P1 & P2).
    destruct (onPlayPauseClick_fields s) as (_ & A2 & _ & _ & _ & _ & _ & _ & _ & A10).
    unfold button_shows_state. rewrite A2. split; [exact P1|].
    destruct (currentAudio s); destruct A10 as [-> ->]; [reflexivity | exact P2].
  - intros i s (P1 & P2).
    destruct (onEnded_fields i s) as (_ & A2 & _ & _ & _ & _ & _ & _ & _ & A10).
    unfold button_shows_state. rewrite A2. split; [exact P1|].
    destruct A10 as [[-> ->]|[-> ->]]; [exact P2 | reflexivity].
  - intros dt s _ (P1 & P2).
    destruct (elapse_controls dt s) as (_ & A2 & A3 & _ & _ & _ & A7 & _).
    unfold button_shows_state. rewrite A2, A3, A7. now split.
Qed.

End PlayerButton.

(** X15.  The button tells whether a track is marked as playing.  On a page
    with a title element whose button starts out as the play glyph, after any
    sequence of events the button shows the pause glyph exactly while
    [isPlaying] is set. *)
Theorem button_shows_whether_playing
    (p : Player.Page) (s0 : Player.State) (err : option Player.Error)
    (events : list Player.Event) :
  Player.musicPlayerController p = Player.Installed s0 err ->
  Player.page_songTitle p <> None ->
  Player.page_playPauseBtn p = Some Player.GLYPH_PLAY ->
  let s := Player.run events s0 in
  Player.playPauseBtn s
  = if Player.isPlaying s then Player.GLYPH_PAUSE else Player.GLYPH_PLAY.
Proof.
  intros Hp Htitle Hbtn s.
  pose proof (installed_coherent p s0 err Hp) as Hcoh0.
  destruct (installed_fields p s0 err Hp) as (_ & I2 & _ & _ & _ & I6 & I7 & _).
  assert (H : Player.button_shows_state s).
  { apply run_preserved; [apply button_step | exact Hcoh0 |].
    split; [now rewrite I7|]. rewrite I2. cbn. congruence. }
  exact (proj2 H).
Qed.

Lemma button_shows_whether_playing_witness :
  let s := Player.run [Player.CardClick 0%nat; Player.PlayPauseClick;
                       Player.CardClick 2%nat; Player.Ended 0%nat]
             (Player.installed Player.page_full) in
  Player.playPauseBtn s
  = if Player.isPlaying s then Player.GLYPH_PAUSE else Player.GLYPH_PLAY.
Proof.
  apply (button_shows_whether_playing Player.page_full
           (Player.installed Player.page_full) None
           [Player.CardClick 0%nat; Player.PlayPauseClick;
            Player.CardClick 2%nat; Player.Ended 0%nat] eq_refl).
  - discriminate.
  - reflexivity.
Defined.

(** ** Music player: a page with every element *)

Section PlayerComplete.

Import Player.

Lemma Forall_enqueue (P : nat * TimerAction -> Prop) (e : nat * TimerAction)
    (q : list (nat * TimerAction)) :
  P e -> Forall P q -> Forall P (enqueue e q).
Proof.
  intros He. induction 1 as [|x q Hx Hq IH]; cbn [enqueue].
  - now constructor.
  - destruct (fst x <=? fst e)%nat; repeat constructor; assumption.
Qed.

Lemma elem_of_enqueue (x e : nat * TimerAction) (q : list (nat * TimerAction)) :
  x ∈ enqueue e q <-> x = e \/ x ∈ q.
Proof.
  induction q as [|y q IH]; cbn [enqueue].
  - rewrite list_elem_of_singleton. set_solver.
  - destruct (fst y <=? fst e)%nat.
    + rewrite !elem_of_cons, IH. tauto.
    + rewrite !elem_of_cons. tauto.
Qed.

Lemma widgets_stop (s : State) : widgets s -> widgets (stopAndHidePlayer s).
Proof.
  destruct (stop_fields s) as (_ & _ & _ & _ & _ & _ & _ & _ & C9 & C10 & C11 & _).
  unfold widgets. now rewrite C9, C10, C11.
Qed.

Lemma widgets_closeCard (card : nat) (s : State) : widgets s -> widgets (closeCard card s).
Proof.
  destruct (closeCard_fields card s) as (_ & _ & _ & _ & _ & _ & _ & _ & C9 & C10 & C11).
  unfold widgets. now rewrite C9, C10, C11.
Qed.

Lemma widgets_same_controls (s s' : State) :
  same_controls s s' -> widgets s -> widgets s'.
Proof.
  intros (_ & _ & A3 & _ & _ & _ & _ & _ & _ & A10 & A11) (W1 & W2 & W3).
  unfold widgets. rewrite A3. auto.
Qed.

(** With its three elements on the page [playCardMusic] returns, and leaves
    them on the page. *)
Lemma playCardMusic_complete (card : nat) (m : string) (s : State) :
  widgets s ->
  exists s', playCardMusic card m s = Return tt s' /\ widgets s'
             /\ songTitle s' = Some (last_segment m).
Proof.
  intros (W1 & W2 & W3).
  destruct (playCardMusic_returns card m s W1 W2 W3) as [s' Hs'].
  exists s'. split; [exact Hs'|].
  destruct (playCardMusic_button card m s W1) as (A1 & _ & A3 & A4).
  rewrite Hs' in A1, A3, A4. cbn [state_of] in A1, A3, A4.
  split; [|exact A1]. unfold widgets. rewrite A1. split; [discriminate|]. auto.
Qed.

Lemma classes_add_in (card : nat) (cls : string) (s : State) (k : Card) :
  cards s !! card = Some k -> contains card cls (classList_add card cls s) = true.
Proof.
  intros Hk. apply contains_in. rewrite (classes_add_eq card cls s k Hk). set_solver.
Qed.

(** The open branch on a page with every element, when no card is active. *)
Lemma openBranch_complete (card : nat) (attr : option string) (s : State) :
  widgets s -> known_timers s -> activeCard s = None ->
  (truthy attr <> None -> exists k, cards s !! card = Some k) ->
  exists s1 s',
    openBranch card attr s = Return tt s'
    /\ s' = setTimeout (AddClass card SHOW_TEXT) 1200 (classList_add card ANIMATE s1)
    /\ cards s1 = cards s /\ clock s1 = clock s /\ timers s1 = timers s
    /\ widgets s' /\ known_timers s' /\ active_is_open s'
    /\ activeCard s' = match truthy attr with Some _ => Some card | None => None end
    /\ match truthy attr with
       | Some m => playCardMusic card m s = Return tt s1
       | None => s1 = s
       end.
Proof.
  intros Hw Hk Hact Hcard. unfold openBranch, bind, modify.
  destruct (truthy attr) as [m|] eqn:Hm.
  - destruct (playCardMusic_complete card m s Hw) as (s1 & Hs1 & Hw1 & _).
    destruct (playCardMusic_fields card m s) as (_ & _ & A3 & _ & A5 & A6 & A7).
    rewrite Hs1 in *. cbn [state_of] in *.
    exists s1, (setTimeout (AddClass card SHOW_TEXT) 1200 (classList_add card ANIMATE s1)).
    split; [reflexivity|]. split; [reflexivity|].
    split; [exact A5|]. split; [exact A6|]. split; [exact A7|].
    split; [exact Hw1|]. split; [|split].
    + unfold known_timers. cbn. rewrite A7. apply Forall_enqueue; [reflexivity | exact Hk].
    + intros c Hc. cbn in Hc. rewrite A3 in Hc. injection Hc as <-.
      destruct Hcard as [k Hk']; [discriminate|].
      unfold contains. rewrite classes_setTimeout.
      apply (classes_add_in card ANIMATE s1 k). now rewrite A5.
    + split; [cbn; exact A3 | reflexivity].
  - exists s, (setTimeout (AddClass card SHOW_TEXT) 1200 (classList_add card ANIMATE s)).
    cbn [ret]. split; [reflexivity|]. split; [reflexivity|].
    split; [reflexivity|]. split; [reflexivity|]. split; [reflexivity|].
    split; [exact Hw|]. split; [|split].
    + unfold known_timers. cbn. apply Forall_enqueue; [reflexivity | exact Hk].
    + intros c Hc. cbn in Hc. congruence.
    + split; [cbn; exact Hact | reflexivity].
Qed.

Lemma known_timers_closeCard (card : nat) (s : State) :
  known_timers s -> known_timers (closeCard card s).
Proof.
  destruct (closeCard_fields card s) as (_ & _ & _ & _ & _ & _ & _ & A8 & _).
  unfold known_timers. rewrite A8. apply Forall_enqueue. reflexivity.
Qed.

Lemma data_music_is_card (card : nat) (s : State) :
  truthy (getAttribute_data_music card s) <> None ->
  exists k, cards s !! card = Some k.
Proof.
  unfold getAttribute_data_music. destruct (cards s !! card) as [k|]; [eauto|].
  intros H. now contradiction H.
Qed.

Lemma closeCard_keeps_cards (card c : nat) (s : State) :
  (exists k, cards s !! c = Some k) -> exists k, cards (closeCard card s) !! c = Some k.
Proof.
  intros [k Hk]. destruct (closeCard_fields card s) as (_ & _ & _ & _ & _ & A6 & _).
  rewrite A6. destruct (decide (card = c)) as [->|Hne].
  - exists (closed k). rewrite lookup_alter_eq. now rewrite Hk.
  - exists k. now rewrite lookup_alter_ne.
Qed.

(** A click on a page with every element: the handler returns, in one of
    three ways. *)
Lemma click_complete (card : nat) (s : State) :
  coherent s -> widgets s -> known_timers s -> active_is_open s ->
  exists s',
    handleCardClick card s = Return tt s'
    /\ widgets s' /\ known_timers s' /\ active_is_open s'
    /\ (contains card ANIMATE s = true -> s' = closeCard card s)
    /\ (contains card ANIMATE s = false ->
        exists s0 s1,
          (s0 = s \/ exists a, activeCard s = Some a /\ a <> card /\ s0 = closeCard a s)
          /\ cards s1 = cards s0 /\ clock s1 = clock s /\ timers s1 = timers s0
          /\ s' = setTimeout (AddClass card SHOW_TEXT) 1200
                    (classList_add card ANIMATE s1)
          /\ match truthy (getAttribute_data_music card s) with
             | Some m => playCardMusic card m s0 = Return tt s1
                         /\ activeCard s' = Some card
             | None => s1 = s0
             end).
Proof.
  intros Hcoh Hw Hk Hopen.
  destruct (contains card ANIMATE s) eqn:Hanim.
  - exists (closeCard card s).
    unfold handleCardClick. rewrite click_unfold, Hanim. cbn [negb].
    split; [reflexivity|]. split; [now apply widgets_closeCard|].
    split; [now apply known_timers_closeCard|]. split; [|split; [reflexivity | discriminate]].
    intros c Hc. destruct (closeCard_fields card s) as (_ & _ & A3 & _). congruence.
  - assert (Hattr : forall s0, cards s0 = cards s \/ (exists a, s0 = closeCard a s) ->
              truthy (getAttribute_data_music card s) <> None ->
              exists k, cards s0 !! card = Some k).
    { intros s0 [H0|[a ->]] Ht.
      - rewrite H0. now apply data_music_is_card.
      - apply closeCard_keeps_cards. now apply data_music_is_card. }
    destruct (activeCard s) as [a|] eqn:Hact.
    + assert (Ha : contains a ANIMATE s = true) by now apply Hopen.
      assert (Hne : a <> card) by congruence.
      rewrite (click_other_unfold a card s Hact Hne Ha Hanim).
      destruct (closeCard_fields a s) as (_ & _ & A3 & _ & _ & _ & A7 & _).
      destruct (openBranch_complete card (getAttribute_data_music card s) (closeCard a s))
        as (s1 & s' & Hr & Hs' & B1 & B2 & B3 & Hw' & Hk' & Ho' & Ha' & Hm').
      * now apply widgets_closeCard.
      * now apply known_timers_closeCard.
      * exact A3.
      * apply Hattr. right. now exists a.
      * exists s'. split; [exact Hr|]. split; [exact Hw'|]. split; [exact Hk'|].
        split; [exact Ho'|]. split; [discriminate|]. intros _.
        exists (closeCard a s), s1. split; [right; now exists a|].
        split; [exact B1|]. split; [congruence|]. split; [exact B3|].
        split; [exact Hs'|].
        destruct (truthy (getAttribute_data_music card s)); [now split | exact Hm'].
    + unfold handleCardClick. rewrite click_unfold, Hanim, Hact. cbn [negb].
      destruct (openBranch_complete card (getAttribute_data_music card s) s)
        as (s1 & s' & Hr & Hs' & B1 & B2 & B3 & Hw' & Hk' & Ho' & Ha' & Hm');
        [exact Hw | exact Hk | exact Hact | apply Hattr; now left |].
      exists s'. split; [exact Hr|]. split; [exact Hw'|]. split; [exact Hk'|].
      split; [exact Ho'|]. split; [discriminate|]. intros _.
      exists s, s1. split; [now left|].
      split; [exact B1|]. split; [exact B2|]. split; [exact B3|].
      split; [exact Hs'|].
      destruct (truthy (getAttribute_data_music card s)); [now split | exact Hm'].
Qed.

(** A known timer leaves the class <<animate>> of every card alone. *)
Lemma run_known_timer_animate (c : nat) (s : State) (e : nat * TimerAction) :
  known_timer e = true ->
  (ANIMATE ∈ classes c (run_timer s e) <-> ANIMATE ∈ classes c s).
Proof.
  destruct e as [t [card cls|card cls]]; unfold known_timer, run_timer; cbn [snd];
    intros Hk; apply String.eqb_eq in Hk; subst cls.
  - destruct (decide (c = card)) as [->|Hne]; [|now rewrite classes_add_ne].
    destruct (cards s !! card) as [k|] eqn:Hcard.
    + rewrite (classes_add_eq card SHOW_TEXT s k Hcard).
      assert (ANIMATE <> SHOW_TEXT) by discriminate. set_solver.
    + unfold classes, classList_add. cbn [cards set_cards].
      rewrite lookup_alter_eq, Hcard. reflexivity.
  - destruct (decide (c = card)) as [->|Hne].
    + rewrite classes_remove_eq. assert (ANIMATE <> CLOSING) by discriminate. set_solver.
    + unfold classes, classList_remove. cbn [cards set_cards].
      now rewrite lookup_alter_ne by congruence.
Qed.

Lemma fold_known_timers_animate (c : nat) (l : list (nat * TimerAction)) :
  forall s, Forall (fun e => known_timer e = true) l ->
            (ANIMATE ∈ classes c (fold_left run_timer l s) <-> ANIMATE ∈ classes c s).
Proof.
  induction l as [|e l IH]; intros s Hl; [reflexivity|].
  cbn [fold_left]. inversion Hl as [|? ? He Hl']; subst.
  rewrite (IH _ Hl'). now apply run_known_timer_animate.
Qed.

Lemma Forall_filter_known (f : nat * TimerAction -> bool) (q : list (nat * TimerAction)) :
  Forall (fun e => known_timer e = true) q ->
  Forall (fun e => known_timer e = true) (filter (fun e => f e) q).
Proof.
  intros H. apply Forall_forall. intros x Hx.
  apply list_elem_of_filter in Hx as [_ Hx]. revert x Hx. now apply Forall_forall.
Qed.

Lemma elapse_animate (c : nat) (dt : nat) (s : State) :
  known_timers s ->
  (ANIMATE ∈ classes c (elapse dt s) <-> ANIMATE ∈ classes c s).
Proof.
  intros Hk. unfold elapse.
  rewrite fold_known_timers_animate by (now apply Forall_filter_known).
  reflexivity.
Qed.

Lemma complete_step (e : Event) (s : State) :
  coherent s ->
  widgets s /\ known_timers s /\ active_is_open s ->
  let s' := dispatch e s in
  widgets s' /\ known_timers s' /\ active_is_open s'.
Proof.
  intros Hcoh H. cbn zeta. revert Hcoh H.
  apply (dispatch_preserved
           (fun s => widgets s /\ known_timers s /\ active_is_open s)); clear e s.
  - intros s s' Hsame (W & K & O).
    split; [now apply (widgets_same_controls s)|].
    destruct Hsame as (_ & _ & _ & A4 & _ & _ & A7 & _ & A9 & _).
    split; [unfold known_timers; now rewrite A9|].
    intros c Hc. rewrite A7 in Hc. specialize (O c Hc).
    unfold contains in *. now rewrite (classes_same_cards c s s' A4).
  - intros card s Hcoh (W & K & O).
    destruct (click_complete card s Hcoh W K O) as (s' & Hr & W' & K' & O' & _).
    rewrite Hr. cbn [state_of]. tauto.
  - intros s _ (W & K & O).
    destruct (onPlayPauseClick_fields s) as (_ & A2 & A3 & A4 & A5 & _ & A7 & _ & A9 & _).
    split; [|split].
    + destruct W as (W1 & W2 & W3). unfold widgets. rewrite A2. auto.
    + unfold known_timers. now rewrite A9.
    + intros c Hc. rewrite A7 in Hc. specialize (O c Hc).
      unfold contains in *. now rewrite (classes_same_cards c s _ A5).
  - intros i s (W & K & O).
    destruct (onEnded_fields i s) as (_ & A2 & A3 & A4 & A5 & _ & A7 & _ & A9 & _).
    split; [|split].
    + unfold widgets. now rewrite A2, A3, A4.
    + unfold known_timers. now rewrite A9.
    + intros c Hc. rewrite A7 in Hc. specialize (O c Hc).
      unfold contains in *. now rewrite (classes_same_cards c s _ A5).
  - intros dt s _ (W & K & O).
    destruct (elapse_controls dt s) as (_ & _ & A3 & A4 & A5 & _ & _ & A8 & _ & A10).
    split; [|split].
    + unfold widgets. now rewrite A3, A4, A5.
    + unfold known_timers. rewrite A10. now apply Forall_filter_known.
    + intros c Hc. rewrite A8 in Hc. specialize (O c Hc).
      apply contains_in. apply contains_in in O. now apply elapse_animate.
Qed.

Lemma complete_reachable (p : Page) (s0 : State) (err : option Error)
    (events : list Event) :
  musicPlayerController p = Installed s0 err ->
  page_songTitle p <> None -> page_progressBar p <> None ->
  page_timeDisplay p <> None ->
  let s := run events s0 in
  coherent s /\ widgets s /\ known_timers s /\ active_is_open s.
Proof.
  intros Hp H1 H2 H3 s.
  pose proof (installed_coherent p s0 err Hp) as Hcoh0.
  destruct (installed_fields p s0 err Hp) as (_ & _ & I3 & I4 & _ & _ & I7 & I8 & I9).
  split; [now apply run_coherent|].
  apply (run_preserved (fun s => widgets s /\ known_timers s /\ active_is_open s));
    [intros e s1; apply complete_step | exact Hcoh0 |].
  split; [unfold widgets; now rewrite I7, I8, I9|].
  split; [unfold known_timers; rewrite I4; constructor|].
  intros c Hc. congruence.
Qed.

Lemma dispatch_click_open (card : nat) (s : State) :
  contains card ANIMATE s = true ->
  dispatch (CardClick card) s = closeCard card s.
Proof.
  intros Hanim. unfold dispatch. cbn [handler].
  unfold handleCardClick. rewrite click_unfold, Hanim. reflexivity.
Qed.

Lemma quiet_same_audio (s s' : State) : quiet s -> same_audio s s' -> quiet s'.
Proof.
  intros (Q1 & Q2 & Q3) (A1 & A2 & A3 & _).
  split; [congruence|]. split; [congruence|].
  intros i a' Hi.
  destruct (track_lookup (audios s) (audios s') i a' A3 Hi) as (a & Ha & Heq).
  destruct (Q3 i a Ha) as [Hp Ht].
  unfold track_state in Heq. injection Heq as _ Hp' Ht'. split; congruence.
Qed.

Lemma closeCard_quiet (card : nat) (s : State) : coherent s -> quiet (closeCard card s).
Proof.
  intros Hcoh. apply (quiet_same_audio (stopAndHidePlayer s));
    [now apply stop_quiet | apply closeCard_same_audio].
Qed.

End PlayerComplete.

(** X16.  On a page with the title, the progress bar and the time label,
    the active card is always shown open, so a click on it always takes the
    close branch: the card loses <<animate>> and gets <<closing>>, no card is
    active and no track is referenced or live afterwards, and the panel is
    hidden. *)
Theorem click_on_active_card_closes_it
    (p : Player.Page) (s0 : Player.State) (err : option Player.Error)
    (events : list Player.Event) (c : nat) :
  Player.musicPlayerController p = Player.Installed s0 err ->
  Player.page_songTitle p <> None -> Player.page_progressBar p <> None ->
  Player.page_timeDisplay p <> None ->
  let s := Player.run events s0 in
  Player.activeCard s = Some c ->
  Player.contains c Player.ANIMATE s = true
  /\ let s' := Player.dispatch (Player.CardClick c) s in
     Player.activeCard s' = None /\ Player.currentAudio s' = None
     /\ Player.isPlaying s' = false
     /\ Player.HIDDEN ∈ Player.musicPlayer s'
     /\ Player.contains c Player.ANIMATE s' = false
     /\ Player.contains c Player.CLOSING s' = true
     /\ Player.live_handles s' = [].
Proof.
  intros Hp H1 H2 H3 s Hact.
  destruct (complete_reachable p s0 err events Hp H1 H2 H3) as (Hcoh & W & K & O).
  fold s in Hcoh, W, K, O. clearbody s.
  pose proof (O c Hact) as Hanim. split; [exact Hanim|].
  cbn zeta. rewrite (dispatch_click_open c s Hanim).
  destruct (closeCard_fields c s) as (A1 & A2 & A3 & _ & A5 & _).
  destruct (contains_is_card c Player.ANIMATE s Hanim) as [k Hk].
  pose proof (closeCard_classes c s (ex_intro _ k Hk)) as Hcls.
  split; [exact A3|]. split; [exact A1|]. split; [exact A2|].
  split; [rewrite A5; set_solver|].
  split; [apply contains_not_in; rewrite Hcls; set_solver|].
  split; [apply contains_in; rewrite Hcls; set_solver|].
  apply quiet_no_live. now apply closeCard_quiet.
Qed.

Lemma click_on_active_card_closes_it_witness :
  let s := Player.run [Player.CardClick 1%nat; Player.Elapse 1500]
             (Player.installed Player.page_full) in
  let s' := Player.dispatch (Player.CardClick 1%nat) s in
  Player.activeCard s' = None /\ Player.live_handles s' = [].
Proof.
  pose proof (click_on_active_card_closes_it Player.page_full
                (Player.installed Player.page_full) None
                [Player.CardClick 1%nat; Player.Elapse 1500] 1%nat eq_refl
                ltac:(discriminate) ltac:(discriminate) ltac:(discriminate)
                ltac:(vm_compute; reflexivity)) as (_ & H).
  cbn zeta in H. destruct H as (H1 & _ & _ & _ & _ & _ & H7).
  split; [exact H1 | exact H7].
Defined.



(** ** Music player: the label of a track *)

Section PlayerLabel.

Import Player.

Lemma closeCard_audios (card : nat) (s : State) :
  audios (closeCard card s) = audios (stopAndHidePlayer s).
Proof. rewrite closeCard_shape. reflexivity. Qed.

Lemma closeCard_frames (card : nat) (s : State) :
  frames (closeCard card s) = frames s.
Proof.
  rewrite closeCard_shape. cbn [frames set_timers set_cards].
  now destruct (stop_fields s) as (_ & _ & _ & _ & _ & _ & _ & _ & _ & _ & _ & ->).
Qed.

Lemma stop_listening (s : State) (i : nat) (a : Audio) :
  audios s !! i = Some a ->
  exists a', audios (stopAndHidePlayer s) !! i = Some a'
             /\ listening a' = listening a.
Proof.
  intros Hi. unfold stopAndHidePlayer.
  destruct (currentAudio s) as [j|]; cbn; [|eauto].
  destruct (decide (j = i)) as [->|Hne].
  - rewrite !list_lookup_alter_eq, Hi. cbn. eauto.
  - rewrite !list_lookup_alter_ne by exact Hne. eauto.
Qed.

(** [updateProgress] while a track of the heap is playing, on a page with
    the bar and the label. *)
Lemma updateProgress_playing (s : State) (i : nat) (a : Audio) (bar : ProgressBar) :
  currentAudio s = Some i -> isPlaying s = true -> audios s !! i = Some a ->
  progressBar s = Some bar -> timeDisplay s <> None ->
  exists s',
    updateProgress s = Return tt s'
    /\ frames s' = S (frames s)
    /\ progressBar s' = Some (mkProgressBar (max bar) (progress_or_0 a))
    /\ timeDisplay s'
       = Some (Time.formatTime (Time.Num (currentTime a)) +:+ " / "
               +:+ Time.formatTime (duration a))
    /\ audios s' = audios s /\ songTitle s' = songTitle s
    /\ playPauseBtn s' = playPauseBtn s.
Proof.
  intros Hi Hp Ha Hbar Hlbl. unfold updateProgress.
  rewrite Hi, Hp, Ha, Hbar. cbn [timeDisplay set_progressBar].
  destruct (timeDisplay s) as [lbl|]; [|congruence].
  eexists. split; [reflexivity|]. cbn. repeat split; reflexivity.
Qed.

Lemma updateProgress_idle (s : State) :
  currentAudio s = None \/ isPlaying s = false -> updateProgress s = Return tt s.
Proof.
  intros [H|H]; unfold updateProgress; rewrite H; [reflexivity|].
  now destruct (currentAudio s).
Qed.

Lemma label_before_duration :
  Time.formatTime (Time.Num 0) +:+ " / " +:+ Time.formatTime Time.NaN
  = "0:00 / NaN:NaN"%string.
Proof. vm_compute. reflexivity. Qed.

(** [finish_track] on a state whose current track is playing, on a page
    with every element. *)
Lemma finish_track_result (m : string) (s : State) (n : nat) (a : Audio)
    (bar : ProgressBar) :
  songTitle s <> None -> currentAudio s = Some n -> isPlaying s = true ->
  audios s !! n = Some a -> progressBar s = Some bar -> timeDisplay s <> None ->
  exists s',
    finish_track m s = Return tt s'
    /\ audios s' = alter audio_listen n (audios s)
    /\ frames s' = S (frames s)
    /\ progressBar s' = Some (mkProgressBar (max bar) (progress_or_0 (audio_listen a)))
    /\ timeDisplay s'
       = Some (Time.formatTime (Time.Num (currentTime a)) +:+ " / "
               +:+ Time.formatTime (duration a))
    /\ songTitle s' = Some (last_segment m)
    /\ playPauseBtn s' = GLYPH_PAUSE.
Proof.
  intros Ht Hn Hp Ha Hbar Hlbl.
  unfold finish_track, bind, modify, set_songTitle_text.
  destruct (songTitle s) as [old|]; [|congruence].
  unfold attach_listeners. cbn [currentAudio set_playPauseBtn set_songTitle].
  rewrite Hn.
  destruct (updateProgress_playing
              (update_audio n audio_listen
                 (set_playPauseBtn GLYPH_PAUSE
                    (set_songTitle (Some (last_segment m)) s)))
              n (audio_listen a) bar)
    as (s' & Hr & G1 & G2 & G3 & G4 & G5 & G6).
  - exact Hn.
  - exact Hp.
  - cbn [audios update_audio set_audios set_playPauseBtn set_songTitle].
    rewrite list_lookup_alter_eq, Ha. reflexivity.
  - exact Hbar.
  - exact Hlbl.
  - exists s'. split; [exact Hr|]. split; [exact G4|]. split; [exact G1|].
    split; [exact G2|]. split; [exact G3|]. split; [exact G5 | exact G6].
Qed.

(** What [playCardMusic] returns on a page with every element. *)
Lemma playCardMusic_result (card : nat) (m : string) (s : State) :
  widgets s ->
  exists s' a bar,
    playCardMusic card m s = Return tt s'
    /\ audios s' = audios (stopAndHidePlayer s) ++ [a]
    /\ src a = m /\ listening a = true /\ currentTime a = 0
    /\ duration a = Time.NaN
    /\ progressBar s' = Some bar /\ value bar = 0%Q
    /\ timeDisplay s' = Some "0:00 / NaN:NaN"%string
    /\ songTitle s' = Some (last_segment m)
    /\ playPauseBtn s' = GLYPH_PAUSE
    /\ frames s' = S (frames s).
Proof.
  intros (W1 & W2 & W3). unfold playCardMusic.
  destruct (stop_fields s) as (_ & _ & _ & _ & _ & _ & _ & _ & C9 & C10 & C11 & C12).
  destruct (start_track_fields m (set_activeCard (Some card) (stopAndHidePlayer s)))
    as (B1 & B2 & _ & _ & _ & _ & _ & _ & B9 & B10 & B11 & B12).
  pose proof (start_track_audios m (set_activeCard (Some card) (stopAndHidePlayer s)))
    as Haud.
  cbn [songTitle progressBar timeDisplay frames audios autoplay set_activeCard]
    in B1, B9, B10, B11, B12, Haud.
  rewrite C9 in B9. rewrite C10 in B10. rewrite C11 in B11. rewrite C12 in B12.
  set (s2 := start_track m (set_activeCard (Some card) (stopAndHidePlayer s))) in *.
  clearbody s2.
  set (a0 := audio_play (autoplay (stopAndHidePlayer s))
               (audio_set_volume (1 # 2) (new_Audio m))) in *.
  assert (Hfresh : src a0 = m /\ listening (audio_listen a0) = true
                   /\ currentTime a0 = 0 /\ duration a0 = Time.NaN
                   /\ progress_or_0 (audio_listen a0) = 0%Q)
    by (repeat split; reflexivity).
  clearbody a0. destruct Hfresh as (Hsrc & Hl & Hct & Hd & Hprog).
  destruct (progressBar s) as [bar|] eqn:Hbar; [|congruence].
  destruct (finish_track_result m s2 (List.length (audios (stopAndHidePlayer s))) a0 bar)
    as (s' & Hr & G1 & G2 & G3 & G4 & G5 & G6).
  - congruence.
  - exact B1.
  - exact B2.
  - rewrite Haud, lookup_app_r by lia. now rewrite Nat.sub_diag.
  - exact B10.
  - congruence.
  - rewrite Hct, Hd, label_before_duration in G4. rewrite Hprog in G3.
    rewrite Haud, alter_last in G1.
    exists s', (audio_listen a0), (mkProgressBar (max bar) 0).
    split; [exact Hr|]. split; [exact G1|].
    split; [exact Hsrc|]. split; [exact Hl|]. split; [exact Hct|].
    split; [exact Hd|]. split; [exact G3|]. split; [reflexivity|].
    split; [exact G4|]. split; [exact G5|]. split; [exact G6 | congruence].
Qed.

(** The metadata listener of a handle that is still the current one. *)
Lemma onLoadedMetadata_current (s : State) (n : nat) (a : Audio) (bar : ProgressBar)
    (d : Z) :
  currentAudio s = Some n -> audios s !! n = Some a -> listening a = true ->
  progressBar s = Some bar -> timeDisplay s <> None ->
  exists s',
    onLoadedMetadata n d s = Return tt s'
    /\ timeDisplay s' = Some ("0:00 / " +:+ Time.formatTime (Time.Num d))
    /\ progressBar s' = Some (mkProgressBar 100 (value bar)).
Proof.
  intros Hn Ha Hl Hbar Hlbl. unfold onLoadedMetadata. cbn zeta.
  cbn [audios update_audio set_audios progressBar currentAudio set_progressBar
       timeDisplay].
  rewrite list_lookup_alter_eq, Ha. cbn [option_map fmap option_fmap].
  cbn [listening audio_set_duration]. rewrite Hl, Hbar, Hn.
  rewrite list_lookup_alter_eq, Ha. cbn [option_map fmap option_fmap].
  destruct (timeDisplay s) as [lbl|]; [|congruence].
  eexists. split; [reflexivity|]. cbn. split; reflexivity.
Qed.

(** The metadata listener of a handle that is no longer referenced. *)
Lemma onLoadedMetadata_late (s : State) (n : nat) (a : Audio) (d : Z) :
  currentAudio s = None -> audios s !! n = Some a -> listening a = true ->
  progressBar s <> None ->
  exists s', onLoadedMetadata n d s = Throw (TypeError "currentAudio is null") s'.
Proof.
  intros Hn Ha Hl Hbar. unfold onLoadedMetadata. cbn zeta.
  cbn [audios update_audio set_audios progressBar currentAudio set_progressBar
       timeDisplay].
  rewrite list_lookup_alter_eq, Ha. cbn [option_map fmap option_fmap].
  cbn [listening audio_set_duration]. rewrite Hl.
  destruct (progressBar s) as [bar|]; [|congruence].
  rewrite Hn. eexists. reflexivity.
Qed.

Lemma dispatch_returned (e : Event) (s s' : State) :
  handler e s = Return tt s' -> dispatch e s = s'.
Proof. intros H. unfold dispatch. now rewrite H. Qed.

End PlayerLabel.

(** X18.  Until the metadata of a track arrive the label reads
    "0:00 / NaN:NaN".  On a page with the title, the bar and the label,
    [playCardMusic] returns with the file name as the title, the bar at 0 and
    that label, because the duration of the new track is still [NaN]; the
    <<loadedmetadata>> event of the track then sets the label to "0:00 / "
    followed by the formatted duration and the maximum of the bar to 100. *)
Theorem label_before_metadata
    (card : nat) (m : string) (s : Player.State) (d : Z) :
  Player.widgets s ->
  exists s' s'' bar,
    Player.playCardMusic card m s = Player.Return tt s'
    /\ Player.songTitle s' = Some (Player.last_segment m)
    /\ Player.timeDisplay s' = Some "0:00 / NaN:NaN"%string
    /\ Player.progressBar s' = Some bar /\ Player.value bar = 0%Q
    /\ Player.onLoadedMetadata (List.length (Player.audios s)) d s'
       = Player.Return tt s''
    /\ Player.timeDisplay s''
       = Some ("0:00 / " +:+ Time.formatTime (Time.Num d))
    /\ Player.progressBar s'' = Some (Player.mkProgressBar 100 0).
Proof.
  intros Hw.
  destruct (playCardMusic_result card m s Hw)
    as (s' & a & bar & Hr & Haud & Hsrc & Hl & Ht & Hd & Hbar & Hval & Hlbl & Htitle & _).
  destruct (playCardMusic_fields card m s) as (A1 & _).
  rewrite Hr in A1. cbn [Player.state_of] in A1.
  assert (Ha : Player.audios s' !! List.length (Player.audios s) = Some a).
  { rewrite Haud, <- (stop_length s), lookup_app_r by lia. now rewrite Nat.sub_diag. }
  destruct (onLoadedMetadata_current s' _ a bar d A1 Ha Hl Hbar) as (s'' & Hr2 & L1 & L2);
    [congruence|].
  exists s', s'', bar. rewrite Hval in L2. repeat split; assumption.
Qed.

Lemma label_before_metadata_witness :
  exists s' s'' bar,
    Player.playCardMusic 0%nat "music/anthem.mp3"
      (Player.installed Player.page_full) = Player.Return tt s'
    /\ Player.songTitle s' = Some (Player.last_segment "music/anthem.mp3")
    /\ Player.timeDisplay s' = Some "0:00 / NaN:NaN"%string
    /\ Player.progressBar s' = Some bar /\ Player.value bar = 0%Q
    /\ Player.onLoadedMetadata
         (List.length (Player.audios (Player.installed Player.page_full))) 185 s'
       = Player.Return tt s''
    /\ Player.timeDisplay s''
       = Some ("0:00 / " +:+ Time.formatTime (Time.Num 185))
    /\ Player.progressBar s'' = Some (Player.mkProgressBar 100 0).
Proof.
  apply (label_before_metadata 0%nat "music/anthem.mp3"
           (Player.installed Player.page_full) 185).
  repeat split; discriminate.
Defined.

(** X19.  A <<loadedmetadata>> event that arrives after its card was closed
    throws.  On a page with the title, the bar and the label, when a card
    with a track is opened and closed again, the listener of the new track,
    which reads the variable [currentAudio] rather than its own track, fails
    with a [TypeError] on [null]. *)
Theorem late_metadata_throws
    (p : Player.Page) (s0 : Player.State) (err : option Player.Error)
    (events : list Player.Event) (c : nat) (m : string) (d : Z) :
  Player.musicPlayerController p = Player.Installed s0 err ->
  Player.page_songTitle p <> None -> Player.page_progressBar p <> None ->
  Player.page_timeDisplay p <> None ->
  let s := Player.run events s0 in
  Player.contains c Player.ANIMATE s = false ->
  Player.truthy (Player.getAttribute_data_music c s) = Some m ->
  let closed := Player.run [Player.CardClick c; Player.CardClick c] s in
  exists s',
    Player.handler (Player.LoadedMetadata (List.length (Player.audios s)) d) closed
    = Player.Throw (Player.TypeError "currentAudio is null") s'.
Proof.
  intros Hp H1 H2 H3 s Hanim Hm closed.
  destruct (complete_reachable p s0 err events Hp H1 H2 H3) as (Hcoh & W & K & O).
  fold s in Hcoh, W, K, O. subst closed. clearbody s.
  destruct (click_complete c s Hcoh W K O) as (s1 & Hr & W1 & K1 & O1 & _ & Hopen).
  destruct (Hopen Hanim) as (sa & sb & Hsa & _ & _ & _ & Hs1 & Hplay).
  rewrite Hm in Hplay. destruct Hplay as [Hplay Hact1].
  assert (Hlen : List.length (Player.audios sa) = List.length (Player.audios s)).
  { destruct Hsa as [->|(a & _ & _ & ->)]; [reflexivity | apply closeCard_length]. }
  assert (Hwa : Player.widgets sa).
  { destruct Hsa as [->|(a & _ & _ & ->)]; [exact W | now apply widgets_closeCard]. }
  destruct (playCardMusic_result c m sa Hwa)
    as (sb' & a & bar & Hr' & Haud & _ & Hl & _).
  rewrite Hplay in Hr'. injection Hr' as <-.
  assert (Ha : Player.audios s1 !! List.length (Player.audios s) = Some a).
  { rewrite Hs1. cbn [Player.audios Player.setTimeout Player.set_timers
                      Player.classList_add Player.set_cards].
    rewrite Haud, <- Hlen, <- (stop_length sa), lookup_app_r by lia.
    now rewrite Nat.sub_diag. }
  assert (Hrun : Player.run [Player.CardClick c; Player.CardClick c] s
                 = Player.closeCard c s1).
  { unfold Player.run. cbn [fold_left].
    rewrite (dispatch_returned (Player.CardClick c) s s1 Hr).
    apply dispatch_click_open. now apply O1. }
  rewrite Hrun. cbn [Player.handler].
  destruct (stop_listening s1 _ a Ha) as (a' & Ha' & Hl').
  destruct (closeCard_fields c s1) as (A1 & _ & _ & _ & _ & _ & _ & _ & _ & A10 & _).
  apply (onLoadedMetadata_late _ _ a').
  - exact A1.
  - now rewrite closeCard_audios.
  - congruence.
  - rewrite A10. now destruct W1 as (_ & ? & _).
Qed.

Lemma late_metadata_throws_witness :
  exists s',
    Player.handler (Player.LoadedMetadata 0%nat 185)
      (Player.run [Player.CardClick 0%nat; Player.CardClick 0%nat]
         (Player.installed Player.page_full))
    = Player.Throw (Player.TypeError "currentAudio is null") s'.
Proof.
  apply (late_metadata_throws Player.page_full (Player.installed Player.page_full)
           None [] 0%nat "music/anthem.mp3" 185 eq_refl);
    try discriminate; vm_compute; reflexivity.
Defined.

(** ** Music player: the timers of the cards *)

Section PlayerTimers.

Import Player.

Lemma classes_add_other (c card : nat) (cls cls' : string) (s : State) :
  cls' <> cls ->
  (cls' ∈ classes c (classList_add card cls s) <-> cls' ∈ classes c s).
Proof.
  intros Hne. destruct (decide (c = card)) as [->|Hc]; [|now rewrite classes_add_ne].
  destruct (cards s !! card) as [k|] eqn:Hcard.
  - rewrite (classes_add_eq card cls s k Hcard). set_solver.
  - unfold classes, classList_add. cbn [cards set_cards].
    rewrite lookup_alter_eq, Hcard. reflexivity.
Qed.

Lemma classes_remove_ne (c card : nat) (cls : string) (s : State) :
  c <> card -> classes c (classList_remove card cls s) = classes c s.
Proof.
  intros Hne. unfold classes, classList_remove. cbn [cards set_cards].
  now rewrite lookup_alter_ne by congruence.
Qed.

Lemma is_card_add (c card : nat) (cls : string) (s : State) :
  (exists k, cards (classList_add card cls s) !! c = Some k)
  <-> exists k, cards s !! c = Some k.
Proof.
  unfold classList_add. cbn [cards set_cards].
  destruct (decide (card = c)) as [->|Hne].
  - rewrite lookup_alter_eq. destruct (cards s !! c); cbn; split; intros [k Hk]; eauto; discriminate.
  - now rewrite lookup_alter_ne.
Qed.

Lemma is_card_remove (c card : nat) (cls : string) (s : State) :
  (exists k, cards (classList_remove card cls s) !! c = Some k)
  <-> exists k, cards s !! c = Some k.
Proof.
  unfold classList_remove. cbn [cards set_cards].
  destruct (decide (card = c)) as [->|Hne].
  - rewrite lookup_alter_eq. destruct (cards s !! c); cbn; split; intros [k Hk]; eauto; discriminate.
  - now rewrite lookup_alter_ne.
Qed.

Lemma is_card_fold (c : nat) (l : list (nat * TimerAction)) :
  forall s, (exists k, cards (fold_left run_timer l s) !! c = Some k)
            <-> exists k, cards s !! c = Some k.
Proof.
  induction l as [|[t a] l IH]; intros s; [reflexivity|].
  cbn [fold_left]. rewrite IH. unfold run_timer. cbn [snd].
  destruct a; [apply is_card_add | apply is_card_remove].
Qed.

(** The timers never add <<closing>>, and removing it is final. *)
Lemma fold_known_timers_closing (c : nat) (l : list (nat * TimerAction)) :
  forall s, Forall (fun e => known_timer e = true) l ->
            CLOSING ∈ classes c (fold_left run_timer l s) ->
            CLOSING ∈ classes c s /\ forall t, (t, RemoveClass c CLOSING) ∉ l.
Proof.
  induction l as [|[t a] l IH]; intros s Hl Hin.
  - split; [exact Hin|]. intros t Ht. now apply elem_of_nil in Ht.
  - cbn [fold_left] in Hin. inversion Hl as [|? ? He Hl']; subst.
    destruct (IH _ Hl' Hin) as [Hin' Hno].
    unfold known_timer in He. cbn [snd] in He. unfold run_timer in Hin'. cbn [snd] in Hin'.
    destruct a as [card cls|card cls]; apply String.eqb_eq in He; subst cls.
    + apply classes_add_other in Hin'; [|discriminate].
      split; [exact Hin'|]. intros t' Ht'.
      apply elem_of_cons in Ht' as [Ht'|Ht']; [discriminate | now apply (Hno t')].
    + destruct (decide (c = card)) as [->|Hne].
      * rewrite classes_remove_eq in Hin'. set_solver.
      * rewrite classes_remove_ne in Hin' by exact Hne.
        split; [exact Hin'|]. intros t' Ht'.
        apply elem_of_cons in Ht' as [Ht'|Ht']; [congruence | now apply (Hno t')].
Qed.

(** The timers never remove <<show-text>>, and one that adds it does. *)
Lemma fold_known_timers_show_text (c : nat) (l : list (nat * TimerAction)) :
  forall s, Forall (fun e => known_timer e = true) l ->
            (exists k, cards s !! c = Some k) ->
            SHOW_TEXT ∈ classes c s \/ (exists t, (t, AddClass c SHOW_TEXT) ∈ l) ->
            SHOW_TEXT ∈ classes c (fold_left run_timer l s).
Proof.
  induction l as [|[t a] l IH]; intros s Hl Hcard Hin.
  - destruct Hin as [Hin|[t Ht]]; [exact Hin | now apply elem_of_nil in Ht].
  - cbn [fold_left]. inversion Hl as [|? ? He Hl']; subst.
    unfold known_timer in He. cbn [snd] in He.
    apply IH; [exact Hl' | |].
    + unfold run_timer. cbn [snd].
      destruct a; [now apply is_card_add | now apply is_card_remove].
    + unfold run_timer. cbn [snd].
      destruct a as [card cls|card cls]; apply String.eqb_eq in He; subst cls.
      * destruct Hin as [Hin|[t' Ht']].
        -- left. destruct (decide (c = card)) as [->|Hne];
             [|now rewrite classes_add_ne].
           destruct Hcard as [k Hk]. rewrite (classes_add_eq card SHOW_TEXT s k Hk).
           set_solver.
        -- apply elem_of_cons in Ht' as [Ht'|Ht']; [|right; now exists t'].
           injection Ht' as _ Hc. subst card. left. destruct Hcard as [k Hk].
           rewrite (classes_add_eq c SHOW_TEXT s k Hk). set_solver.
      * destruct Hin as [Hin|[t' Ht']].
        -- left. destruct (decide (c = card)) as [->|Hne].
           ++ rewrite classes_remove_eq. assert (SHOW_TEXT <> CLOSING) by discriminate.
              set_solver.
           ++ now rewrite classes_remove_ne.
        -- apply elem_of_cons in Ht' as [Ht'|Ht']; [discriminate|]. right. now exists t'.
Qed.

Lemma elapse_cards (dt : nat) (s : State) :
  cards (elapse dt s)
  = cards (fold_left run_timer
             (filter (fun e => fst e <=? clock s + dt)%nat (timers s)) s).
Proof.
  unfold elapse.
  set (due := filter _ (timers s)). set (later := filter _ (timers s)).
  generalize (clock s + dt)%nat as now. intros now.
  clearbody due later. revert s. induction due as [|[t a] due IH]; intros s; [reflexivity|].
  cbn [fold_left].
  assert (Hstep : run_timer (set_clock now (set_timers later s)) (t, a)
                  = set_clock now (set_timers later (run_timer s (t, a)))).
  { unfold run_timer. cbn [snd]. destruct a; reflexivity. }
  rewrite Hstep. apply IH.
Qed.

Lemma elapse_classes (c : nat) (dt : nat) (s : State) :
  classes c (elapse dt s)
  = classes c (fold_left run_timer
                 (filter (fun e => fst e <=? clock s + dt)%nat (timers s)) s).
Proof. unfold classes. now rewrite elapse_cards. Qed.

Lemma due_known (dt : nat) (s : State) :
  known_timers s ->
  Forall (fun e => known_timer e = true)
    (filter (fun e => fst e <=? clock s + dt)%nat (timers s)).
Proof. intros Hk. now apply Forall_filter_known. Qed.

Lemma elem_of_due (x : nat * TimerAction) (now : nat) (q : list (nat * TimerAction)) :
  x ∈ filter (fun e => fst e <=? now)%nat q <-> (fst x <= now)%nat /\ x ∈ q.
Proof.
  rewrite list_elem_of_filter.
  destruct (Nat.leb_spec (fst x) now); split; intros [H1 H2]; split;
    try assumption; try exact I; try lia; try contradiction.
Qed.

Lemma elem_of_later (x : nat * TimerAction) (now : nat) (q : list (nat * TimerAction)) :
  x ∈ filter (fun e => negb (fst e <=? now)%nat) q <-> (now < fst x)%nat /\ x ∈ q.
Proof.
  rewrite list_elem_of_filter.
  destruct (Nat.leb_spec (fst x) now); split; intros [H1 H2]; split;
    try assumption; try exact I; try lia; try contradiction.
Qed.

Lemma closing_step (e : Event) (s : State) :
  coherent s ->
  known_timers s /\ closing_is_pending s ->
  known_timers (dispatch e s) /\ closing_is_pending (dispatch e s).
Proof.
  apply (dispatch_preserved (fun s => known_timers s /\ closing_is_pending s)); clear e s.
  - intros s s' (_ & _ & _ & A4 & _ & _ & _ & A8 & A9 & _) (K & C).
    split; [unfold known_timers; now rewrite A9|].
    intros c Hc. apply contains_in in Hc. rewrite (classes_same_cards c s s' A4) in Hc.
    apply contains_in in Hc. rewrite A8, A9. now apply C.
  - intros card s _.
    apply (click_preserved (fun s => known_timers s /\ closing_is_pending s)); clear card s.
    + intros card s (K & C). split; [now apply known_timers_closeCard|].
      destruct (closeCard_fields card s) as (_ & _ & _ & _ & _ & _ & A7 & A8 & _).
      intros c Hc. rewrite A7, A8.
      destruct (decide (c = card)) as [->|Hne].
      * exists (clock s + 1000)%nat. split; [|lia]. apply elem_of_enqueue. now left.
      * apply contains_in in Hc. rewrite (closeCard_classes_other c card s Hne) in Hc.
        apply contains_in in Hc. destruct (C c Hc) as (t & Ht & Hle). exists t. split; [|exact Hle].
        apply elem_of_enqueue. now right.
    + intros card m s (K & C).
      destruct (playCardMusic_fields card m s) as (_ & _ & _ & _ & A5 & A6 & A7).
      split; [unfold known_timers; now rewrite A7|].
      intros c Hc. apply contains_in in Hc.
      rewrite (classes_same_cards c s _ A5) in Hc. apply contains_in in Hc.
      rewrite A6, A7. now apply C.
    + intros card s (K & C). split; [exact K|].
      intros c Hc. apply contains_in in Hc.
      apply classes_add_other in Hc; [|discriminate].
      apply contains_in in Hc. exact (C c Hc).
    + intros card s (K & C).
      split; [unfold known_timers; cbn; apply Forall_enqueue; [reflexivity | exact K]|].
      intros c Hc. apply contains_in in Hc. rewrite classes_setTimeout in Hc.
      apply contains_in in Hc. destruct (C c Hc) as (t & Ht & Hle). exists t. split; [|exact Hle].
      cbn. apply elem_of_enqueue. now right.
  - intros s _ (K & C).
    destruct (onPlayPauseClick_fields s) as (_ & _ & _ & _ & A5 & _ & _ & A8 & A9 & _).
    split; [unfold known_timers; now rewrite A9|].
    intros c Hc. apply contains_in in Hc. rewrite (classes_same_cards c s _ A5) in Hc.
    apply contains_in in Hc. rewrite A8, A9. now apply C.
  - intros i s (K & C).
    destruct (onEnded_fields i s) as (_ & _ & _ & _ & A5 & _ & _ & A8 & A9 & _).
    split; [unfold known_timers; now rewrite A9|].
    intros c Hc. apply contains_in in Hc. rewrite (classes_same_cards c s _ A5) in Hc.
    apply contains_in in Hc. rewrite A8, A9. now apply C.
  - intros dt s _ (K & C).
    destruct (elapse_controls dt s) as (_ & _ & _ & _ & _ & _ & _ & _ & A9 & A10).
    split; [unfold known_timers; rewrite A10; now apply Forall_filter_known|].
    intros c Hc. apply contains_in in Hc. rewrite elapse_classes in Hc.
    destruct (fold_known_timers_closing c _ s (due_known dt s K) Hc) as [Hin Hno].
    apply contains_in in Hin. destruct (C c Hin) as (t & Ht & Hle).
    exists t. rewrite A9, A10. split; [|lia].
    apply elem_of_later. split; [|exact Ht]. cbn [fst].
    destruct (Nat.le_gt_cases t (clock s + dt)) as [Hdue|Hlater]; [|exact Hlater].
    exfalso. apply (Hno t). apply elem_of_due. now split.
Qed.

Lemma dispatch_elapse (dt : nat) (s : State) : dispatch (Elapse dt) s = elapse dt s.
Proof. reflexivity. Qed.

Lemma run_two (e1 e2 : Event) (s : State) :
  run [e1; e2] s = dispatch e2 (dispatch e1 s).
Proof. reflexivity. Qed.

Lemma run_four (e1 e2 e3 e4 : Event) (s : State) :
  run [e1; e2; e3; e4] s = dispatch e4 (dispatch e3 (dispatch e2 (dispatch e1 s))).
Proof. reflexivity. Qed.

End PlayerTimers.

(** X20.  The class <<closing>> never sticks.  On a page whose cards do
    not carry it in the markup, after any sequence of events, once a second
    goes by without another event no card carries <<closing>>. *)
Theorem closing_class_is_transient
    (p : Player.Page) (s0 : Player.State) (err : option Player.Error)
    (events : list Player.Event) (dt c : nat) :
  Player.musicPlayerController p = Player.Installed s0 err ->
  (forall card k, Player.page_cards p !! card = Some k ->
                  Player.CLOSING ∉ Player.classList k) ->
  (1000 <= dt)%nat ->
  Player.contains c Player.CLOSING
    (Player.run (events ++ [Player.Elapse dt]) s0) = false.
Proof.
  intros Hp Hpage Hdt.
  pose proof (installed_coherent p s0 err Hp) as Hcoh0.
  destruct (installed_fields p s0 err Hp) as (_ & _ & _ & I4 & I5 & _).
  assert (Hinv : Player.known_timers (Player.run events s0)
                 /\ Player.closing_is_pending (Player.run events s0)).
  { apply (run_preserved
             (fun s => Player.known_timers s /\ Player.closing_is_pending s));
      [intros e s; apply closing_step | exact Hcoh0 |].
    split; [unfold Player.known_timers; rewrite I4; constructor|].
    intros card Hc. exfalso. apply contains_in in Hc.
    unfold Player.classes in Hc. rewrite I5 in Hc.
    destruct (Player.page_cards p !! card) as [k|] eqn:Hk; [|set_solver].
    now apply (Hpage card k Hk). }
  unfold Player.run in *. rewrite fold_left_app. cbn [fold_left].
  set (s := fold_left _ events s0) in *. clearbody s.
  destruct Hinv as [K C]. rewrite dispatch_elapse.
  apply contains_not_in. intros Hin. rewrite elapse_classes in Hin.
  destruct (fold_known_timers_closing c _ s (due_known dt s K) Hin) as [Hin' Hno].
  apply contains_in in Hin'. destruct (C c Hin') as (t & Ht & Hle).
  apply (Hno t). apply elem_of_due. split; [cbn [fst]; lia | exact Ht].
Qed.

Lemma closing_class_is_transient_witness :
  Player.contains 0%nat Player.CLOSING
    (Player.run ([Player.CardClick 0%nat; Player.CardClick 0%nat]
                 ++ [Player.Elapse 1000])
       (Player.installed Player.page_full)) = false.
Proof.
  apply (closing_class_is_transient Player.page_full
           (Player.installed Player.page_full) None
           [Player.CardClick 0%nat; Player.CardClick 0%nat] 1000 0%nat eq_refl);
    [|lia].
  intros card k Hk.
  change (Player.page_cards Player.page_full) with Player.sample_cards in Hk.
  unfold Player.sample_cards in Hk.
  apply lookup_insert_Some in Hk as [[_ <-]|[_ Hk]]; [apply not_elem_of_empty|].
  apply lookup_insert_Some in Hk as [[_ <-]|[_ Hk]]; [apply not_elem_of_empty|].
  apply lookup_insert_Some in Hk as [[_ <-]|[_ Hk]]; [apply not_elem_of_empty|].
  now rewrite lookup_empty in Hk.
Defined.

(** X21.  A card that is closed before its text has appeared gets the text
    anyway.  On a page with the title, the bar and the label, when a card is
    opened and closed again within 1200 ms, the timer set on opening is not
    cancelled: once the 1200 ms are over the closed card carries
    <<show-text>> without <<animate>>, and no card is active. *)
Theorem show_text_lands_on_closed_card
    (p : Player.Page) (s0 : Player.State) (err : option Player.Error)
    (events : list Player.Event) (c : nat) (k : Player.Card) (dt1 dt2 : nat) :
  Player.musicPlayerController p = Player.Installed s0 err ->
  Player.page_songTitle p <> None -> Player.page_progressBar p <> None ->
  Player.page_timeDisplay p <> None ->
  let s := Player.run events s0 in
  Player.cards s !! c = Some k ->
  Player.contains c Player.ANIMATE s = false ->
  (dt1 < 1200)%nat -> (1200 <= dt1 + dt2)%nat ->
  let s' := Player.run [Player.CardClick c; Player.Elapse dt1;
                        Player.CardClick c; Player.Elapse dt2] s in
  Player.contains c Player.SHOW_TEXT s' = true
  /\ Player.contains c Player.ANIMATE s' = false
  /\ Player.activeCard s' = None.
Proof.
  intros Hp H1 H2 H3 s Hk Hanim Hdt1 Hdt2 s'.
  destruct (complete_reachable p s0 err events Hp H1 H2 H3) as (Hcoh & W & K & O).
  fold s in Hcoh, W, K, O. subst s'. clearbody s.
  rewrite run_four.
  (* the card opens *)
  destruct (click_complete c s Hcoh W K O) as (s1 & Hr & W1 & K1 & O1 & _ & Hopen).
  destruct (Hopen Hanim) as (sa & sb & Hsa & Hcards & Hclock & Htimers & Hs1 & _).
  rewrite (dispatch_returned (Player.CardClick c) s s1 Hr).
  assert (Hcard_b : exists k', Player.cards sb !! c = Some k').
  { rewrite Hcards. destruct Hsa as [->|(a & _ & _ & ->)]; [now exists k|].
    apply closeCard_keeps_cards. now exists k. }
  assert (Hanim1 : Player.ANIMATE ∈ Player.classes c s1).
  { rewrite Hs1, classes_setTimeout. destruct Hcard_b as [k' Hk'].
    rewrite (classes_add_eq c Player.ANIMATE sb k' Hk').
    apply elem_of_union. left. now apply elem_of_singleton. }
  assert (Hcard1 : exists k', Player.cards s1 !! c = Some k').
  { rewrite Hs1. cbn [Player.cards Player.setTimeout Player.set_timers].
    now apply is_card_add. }
  assert (Htimer1 : ((Player.clock s + 1200)%nat,
                     Player.AddClass c Player.SHOW_TEXT) ∈ Player.timers s1).
  { rewrite Hs1. cbn [Player.timers Player.setTimeout Player.set_timers
                      Player.classList_add Player.set_cards Player.clock].
    rewrite Hclock. apply elem_of_enqueue. now left. }
  assert (Hclock1 : Player.clock s1 = Player.clock s).
  { rewrite Hs1. cbn [Player.clock Player.setTimeout Player.set_timers
                      Player.classList_add Player.set_cards]. exact Hclock. }
  clear Hs1 Hopen Hr Hsa Hcards Htimers Hcard_b sa sb Hclock.
  (* part of the delay goes by *)
  rewrite !dispatch_elapse.
  destruct (elapse_controls dt1 s1) as (_ & _ & _ & _ & _ & _ & _ & _ & E9 & E10).
  assert (K2 : Player.known_timers (Player.elapse dt1 s1)).
  { unfold Player.known_timers. rewrite E10. now apply Forall_filter_known. }
  assert (Hanim2 : Player.contains c Player.ANIMATE (Player.elapse dt1 s1) = true).
  { apply contains_in. now apply elapse_animate. }
  assert (Htimer2 : ((Player.clock s + 1200)%nat,
                     Player.AddClass c Player.SHOW_TEXT)
                    ∈ Player.timers (Player.elapse dt1 s1)).
  { rewrite E10. apply elem_of_later. split; [cbn [fst]; lia | exact Htimer1]. }
  assert (Hcard2 : exists k', Player.cards (Player.elapse dt1 s1) !! c = Some k').
  { rewrite elapse_cards. now apply is_card_fold. }
  rewrite Hclock1 in E9.
  set (s2 := Player.elapse dt1 s1) in *. clearbody s2.
  (* the card closes *)
  rewrite (dispatch_click_open c s2 Hanim2).
  destruct (closeCard_fields c s2) as (_ & _ & A3 & _ & _ & A6 & A7 & A8 & _).
  pose proof (closeCard_classes c s2 Hcard2) as Hcls3.
  assert (K3 : Player.known_timers (Player.closeCard c s2))
    by now apply known_timers_closeCard.
  assert (Hcard3 : exists k', Player.cards (Player.closeCard c s2) !! c = Some k')
    by now apply closeCard_keeps_cards.
  assert (Htimer3 : ((Player.clock s + 1200)%nat,
                     Player.AddClass c Player.SHOW_TEXT)
                    ∈ Player.timers (Player.closeCard c s2)).
  { rewrite A8. apply elem_of_enqueue. now right. }
  rewrite E9 in A7.
  set (s3 := Player.closeCard c s2) in *. clearbody s3.
  (* the rest of the delay goes by *)
  destruct (elapse_controls dt2 s3) as (_ & _ & _ & _ & _ & _ & _ & F8 & _).
  split; [|split].
  - apply contains_in. rewrite elapse_classes.
    apply fold_known_timers_show_text; [now apply due_known | exact Hcard3 |].
    right. exists (Player.clock s + 1200)%nat. apply elem_of_due.
    split; [cbn [fst]; lia | exact Htimer3].
  - apply contains_not_in. intros Hin. apply elapse_animate in Hin; [|exact K3].
    rewrite Hcls3 in Hin. assert (Player.ANIMATE <> Player.CLOSING) by discriminate.
    set_solver.
  - now rewrite F8.
Qed.

Lemma show_text_lands_on_closed_card_witness :
  let s' := Player.run [Player.CardClick 0%nat; Player.Elapse 500;
                        Player.CardClick 0%nat; Player.Elapse 700]
              (Player.installed Player.page_full) in
  Player.contains 0%nat Player.SHOW_TEXT s' = true
  /\ Player.contains 0%nat Player.ANIMATE s' = false
  /\ Player.activeCard s' = None.
Proof.
  apply (show_text_lands_on_closed_card Player.page_full
           (Player.installed Player.page_full) None [] 0%nat
           (Player.mkCard ∅ (Some "music/anthem.mp3"%string)) 500 700 eq_refl);
    try discriminate; try lia; vm_compute; reflexivity.
Defined.

(** ** Music player: the title, the text of a card, the progress loop *)

Section PlayerTitle.

Import Player.

Lemma has_slash_append (a b : string) :
  has_slash (a +:+ b) = (has_slash a || has_slash b)%bool.
Proof.
  induction a as [|x a IH]; [reflexivity|].
  rewrite append_String. cbn [has_slash]. rewrite IH. now rewrite orb_assoc.
Qed.

Lemma last_segment_from_spec (s : string) :
  forall acc,
    has_slash acc = false ->
    has_slash (last_segment_from acc s) = false
    /\ exists pre, acc +:+ s = pre +:+ last_segment_from acc s
                   /\ (pre = EmptyString \/ exists p, pre = p +:+ "/").
Proof.
  induction s as [|c rest IH]; intros acc Hacc; cbn [last_segment_from].
  - split; [exact Hacc|]. exists EmptyString. split; [apply append_nil_r | now left].
  - assert (Hsplit : acc +:+ String c rest = (acc +:+ String c EmptyString) +:+ rest)
      by (now rewrite append_assoc).
    destruct (Ascii.eqb c "/") eqn:Hc.
    + apply Ascii.eqb_eq in Hc. subst c.
      destruct (IH EmptyString eq_refl) as [Hno (pre & Hpre & Hend)].
      split; [exact Hno|].
      exists ((acc +:+ "/") +:+ pre). split.
      * change (EmptyString +:+ rest) with rest in Hpre.
        rewrite Hsplit, (append_assoc (acc +:+ "/") pre). now rewrite <- Hpre.
      * right. destruct Hend as [->|[p ->]].
        -- exists acc. now rewrite append_nil_r.
        -- exists ((acc +:+ "/") +:+ p). now rewrite (append_assoc (acc +:+ "/") p).
    + destruct (IH (acc +:+ String c EmptyString)) as [Hno (pre & Hpre & Hend)].
      * rewrite has_slash_append, Hacc. cbn [has_slash]. now rewrite Hc.
      * split; [exact Hno|]. exists pre. split; [now rewrite Hsplit | exact Hend].
Qed.

Lemma updateProgress_frames_idle (s : State) :
  isPlaying s = false -> updateProgress s = Return tt s.
Proof. intros H. apply updateProgress_idle. now right. Qed.

End PlayerTitle.

(** X22.  The title of a track is its file name: [last_segment], the
    embedding of [musicSrc.split("/").pop()], returns the part of the source
    after its last slash.  The result holds no slash, and the source is the
    result after a prefix that is empty or ends in a slash. *)
Theorem last_segment_is_file_name (musicSrc : string) :
  Player.has_slash (Player.last_segment musicSrc) = false
  /\ exists pre,
       musicSrc = pre +:+ Player.last_segment musicSrc
       /\ (pre = EmptyString \/ exists p, pre = p +:+ "/").
Proof.
  destruct (last_segment_from_spec musicSrc EmptyString eq_refl) as [Hno Hpre].
  split; [exact Hno | exact Hpre].
Qed.

(** X23.  The text of a card appears 1200 ms after the card was opened.  On
    a page with the title, the bar and the label, when a card that is not
    open is clicked and at least 1200 ms go by, the card carries both
    <<animate>> and <<show-text>>. *)
Theorem text_appears_after_opening
    (p : Player.Page) (s0 : Player.State) (err : option Player.Error)
    (events : list Player.Event) (c : nat) (k : Player.Card) (dt : nat) :
  Player.musicPlayerController p = Player.Installed s0 err ->
  Player.page_songTitle p <> None -> Player.page_progressBar p <> None ->
  Player.page_timeDisplay p <> None ->
  let s := Player.run events s0 in
  Player.cards s !! c = Some k ->
  Player.contains c Player.ANIMATE s = false ->
  (1200 <= dt)%nat ->
  let s' := Player.run [Player.CardClick c; Player.Elapse dt] s in
  Player.contains c Player.ANIMATE s' = true
  /\ Player.contains c Player.SHOW_TEXT s' = true.
Proof.
  intros Hp H1 H2 H3 s Hk Hanim Hdt s'.
  destruct (complete_reachable p s0 err events Hp H1 H2 H3) as (Hcoh & W & K & O).
  fold s in Hcoh, W, K, O. subst s'. clearbody s.
  rewrite run_two.
  destruct (click_complete c s Hcoh W K O) as (s1 & Hr & W1 & K1 & O1 & _ & Hopen).
  destruct (Hopen Hanim) as (sa & sb & Hsa & Hcards & Hclock & Htimers & Hs1 & _).
  rewrite (dispatch_returned (Player.CardClick c) s s1 Hr), dispatch_elapse.
  assert (Hcard_b : exists k', Player.cards sb !! c = Some k').
  { rewrite Hcards. destruct Hsa as [->|(a & _ & _ & ->)]; [now exists k|].
    apply closeCard_keeps_cards. now exists k. }
  assert (Hanim1 : Player.ANIMATE ∈ Player.classes c s1).
  { rewrite Hs1, classes_setTimeout. destruct Hcard_b as [k' Hk'].
    rewrite (classes_add_eq c Player.ANIMATE sb k' Hk').
    apply elem_of_union. left. now apply elem_of_singleton. }
  assert (Hcard1 : exists k', Player.cards s1 !! c = Some k').
  { rewrite Hs1. cbn [Player.cards Player.setTimeout Player.set_timers].
    now apply is_card_add. }
  assert (Htimer1 : ((Player.clock s1 + 1200)%nat,
                     Player.AddClass c Player.SHOW_TEXT) ∈ Player.timers s1).
  { rewrite Hs1. cbn [Player.timers Player.setTimeout Player.set_timers
                      Player.classList_add Player.set_cards Player.clock].
    apply elem_of_enqueue. now left. }
  clear Hs1 Hopen Hr Hsa Hcards Htimers Hcard_b sa sb Hclock.
  split.
  - apply contains_in. now apply elapse_animate.
  - apply contains_in. rewrite elapse_classes.
    apply fold_known_timers_show_text; [now apply due_known | exact Hcard1 |].
    right. exists (Player.clock s1 + 1200)%nat. apply elem_of_due.
    split; [cbn [fst]; lia | exact Htimer1].
Qed.

Lemma text_appears_after_opening_witness :
  let s' := Player.run [Player.CardClick 2%nat; Player.Elapse 1200]
              (Player.installed Player.page_full) in
  Player.contains 2%nat Player.ANIMATE s' = true
  /\ Player.contains 2%nat Player.SHOW_TEXT s' = true.
Proof.
  apply (text_appears_after_opening Player.page_full
           (Player.installed Player.page_full) None [] 2%nat
           (Player.mkCard ∅ None) 1200 eq_refl);
    try discriminate; try lia; vm_compute; reflexivity.
Defined.

(** X24.  The progress loop is never cancelled, only starved.  On a page
    with the title, the bar and the label, after any sequence of events: a
    pending animation frame reschedules itself while [isPlaying] is set, so
    the number of pending callbacks stays the same, and dies out otherwise;
    and pausing and resuming, with no frame in between, leaves one callback
    more than before. *)
Theorem progress_loop_callbacks
    (p : Player.Page) (s0 : Player.State) (err : option Player.Error)
    (events : list Player.Event) :
  Player.musicPlayerController p = Player.Installed s0 err ->
  Player.page_songTitle p <> None -> Player.page_progressBar p <> None ->
  Player.page_timeDisplay p <> None ->
  let s := Player.run events s0 in
  (Player.isPlaying s = true ->
   Player.frames (Player.dispatch Player.AnimationFrame s) = Player.frames s
   /\ Player.frames (Player.run [Player.PlayPauseClick; Player.PlayPauseClick] s)
      = S (Player.frames s))
  /\ (Player.isPlaying s = false ->
      Player.frames (Player.dispatch Player.AnimationFrame s)
      = Nat.pred (Player.frames s)).
Proof.
  intros Hp H1 H2 H3 s.
  destruct (complete_reachable p s0 err events Hp H1 H2 H3) as (Hcoh & W & K & O).
  assert (Hpanel : Player.panel s).
  { apply run_preserved; [apply panel_step | now apply (installed_coherent p s0 err) |].
    destruct (installed_fields p s0 err Hp) as (I1 & I2 & I3 & _).
    unfold Player.panel. rewrite I1, I2, I3.
    split; [congruence|]. split; [discriminate | reflexivity]. }
  fold s in Hcoh, W, K, O. clearbody s.
  destruct W as (W1 & W2 & W3). destruct Hpanel as (_ & P2 & _).
  split.
  - intros Hplay.
    destruct (Player.currentAudio s) as [i|] eqn:Hi; [|now contradiction (P2 Hplay)].
    pose proof (Player.coh_current s Hcoh i Hi) as Hlt.
    destruct (lookup_lt_is_Some_2 (Player.audios s) i Hlt) as [a Ha].
    destruct (Player.progressBar s) as [bar|] eqn:Hbar; [|congruence].
    split.
    + unfold Player.dispatch. cbn [Player.handler]. unfold Player.onAnimationFrame.
      destruct (Player.frames s) as [|n] eqn:Hn; [now rewrite Hn|].
      destruct (updateProgress_playing (Player.set_frames n s) i a bar)
        as (s' & Hr & G1 & _); try assumption.
      rewrite Hr. exact G1.
    + rewrite run_two.
      assert (Hpause : Player.dispatch Player.PlayPauseClick s
                       = Player.set_playPauseBtn Player.GLYPH_PLAY
                           (Player.set_isPlaying false
                              (Player.update_audio i Player.audio_pause s))).
      { unfold Player.dispatch. cbn [Player.handler]. unfold Player.onPlayPauseClick.
        now rewrite Hi, Hplay. }
      rewrite Hpause.
      unfold Player.dispatch. cbn [Player.handler]. unfold Player.onPlayPauseClick.
      cbn [Player.currentAudio Player.isPlaying Player.set_playPauseBtn
           Player.set_isPlaying Player.update_audio Player.set_audios].
      rewrite Hi.
      match goal with
      | |- context [Player.updateProgress ?st] =>
          destruct (updateProgress_playing st i
                      (Player.audio_play (Player.autoplay s) (Player.audio_pause a)) bar)
            as (s' & Hr & G1 & _)
      end.
      * exact Hi.
      * reflexivity.
      * cbn [Player.audios Player.set_playPauseBtn Player.set_isPlaying
             Player.update_audio Player.set_audios Player.autoplay].
        rewrite !list_lookup_alter_eq, Ha. reflexivity.
      * exact Hbar.
      * exact W3.
      * rewrite Hr. exact G1.
  - intros Hpause.
    unfold Player.dispatch. cbn [Player.handler]. unfold Player.onAnimationFrame.
    destruct (Player.frames s) as [|n] eqn:Hn; [now rewrite Hn|].
    rewrite updateProgress_frames_idle by exact Hpause. reflexivity.
Qed.

Lemma progress_loop_callbacks_witness :
  let s := Player.run [Player.CardClick 0%nat] (Player.installed Player.page_full) in
  Player.frames (Player.run [Player.PlayPauseClick; Player.PlayPauseClick] s)
  = S (Player.frames s).
Proof.
  pose proof (progress_loop_callbacks Player.page_full
                (Player.installed Player.page_full) None [Player.CardClick 0%nat]
                eq_refl ltac:(discriminate) ltac:(discriminate) ltac:(discriminate))
    as [H _].
  exact (proj2 (H eq_refl)).
Defined.

(** ** Profile overlay: the click listener *)

Section OverlayClick.

Import Overlay.

Lemma trim_start_spaces (ws s : string) :
  all_space ws = true -> trim_start (ws +:+ s) = trim_start s.
Proof.
  induction ws as [|c ws IH]; intros H; [reflexivity|].
  cbn [all_space] in H. apply andb_prop in H as [Hc Hws].
  rewrite append_String. cbn [trim_start]. rewrite Hc. now apply IH.
Qed.

Lemma trim_end_spaces (ws : string) : all_space ws = true -> trim_end ws = EmptyString.
Proof.
  induction ws as [|c ws IH]; intros H; [reflexivity|].
  cbn [all_space] in H. apply andb_prop in H as [Hc Hws].
  cbn [trim_end]. rewrite (IH Hws). now rewrite Hc.
Qed.

Lemma trim_end_append (s ws : string) :
  all_space ws = true -> trim_end (s +:+ ws) = trim_end s.
Proof.
  intros Hws. induction s as [|c s IH]; [now apply trim_end_spaces|].
  rewrite append_String. cbn [trim_end]. now rewrite IH.
Qed.

Lemma trim_start_fixed (s : string) :
  trim_end (trim_start s) = s -> s <> EmptyString -> trim_start s = s.
Proof.
  destruct s as [|c s]; [congruence|]. intros H _.
  cbn [trim_start] in *. destruct (is_space c) eqn:Hc; [|reflexivity].
  exfalso.
  assert (Hlen : forall t, (String.length (trim_end (trim_start t)) <= String.length t)%nat).
  { assert (He : forall t, (String.length (trim_end t) <= String.length t)%nat).
    { induction t as [|d t IHt]; [reflexivity|]. cbn [trim_end].
      destruct (trim_end t) as [|e t'].
      - destruct (is_space d); cbn [String.length]; lia.
      - cbn [String.length] in *. lia. }
    assert (Hs : forall t, (String.length (trim_start t) <= String.length t)%nat).
    { induction t as [|d t IHt]; [reflexivity|]. cbn [trim_start].
      destruct (is_space d); cbn [String.length] in *; lia. }
    intros t. specialize (He (trim_start t)). specialize (Hs t). lia. }
  specialize (Hlen s). rewrite H in Hlen. cbn [String.length] in Hlen. lia.
Qed.

End OverlayClick.

(** X25.  A click on a member opens the profile named in its heading,
    whatever white space surrounds the name in the markup: for a name that
    [trim] leaves as it is, the listener on a heading that holds the name
    between runs of white space does what [openOverlay] does on the name; and
    a member without a heading is ignored. *)
Theorem member_click_opens_trimmed_name
    (name before after : string) (s : Overlay.State) :
  Overlay.trim name = name -> name <> EmptyString ->
  Overlay.all_space before = true -> Overlay.all_space after = true ->
  Overlay.onMemberClick (Some (before +:+ name +:+ after)) s
  = Overlay.openOverlay name s
  /\ Overlay.onMemberClick None s = Overlay.Return s.
Proof.
  intros Hfix Hne Hb Ha. split; [|reflexivity].
  unfold Overlay.onMemberClick. f_equal.
  unfold Overlay.trim in *.
  pose proof (trim_start_fixed name Hfix Hne) as Hstart.
  rewrite Hstart in Hfix.
  rewrite trim_start_spaces by exact Hb.
  assert (Hhead : Overlay.trim_start (name +:+ after) = name +:+ after).
  { destruct name as [|c name]; [congruence|].
    rewrite append_String. cbn [Overlay.trim_start] in *.
    destruct (Overlay.is_space c) eqn:Hc; [|reflexivity].
    exfalso. apply (f_equal String.length) in Hstart.
    assert (Hs : forall t, (String.length (Overlay.trim_start t) <= String.length t)%nat).
    { induction t as [|d t IHt]; [reflexivity|]. cbn [Overlay.trim_start].
      destruct (Overlay.is_space d); cbn [String.length] in *; lia. }
    specialize (Hs name). cbn [String.length] in Hstart. lia. }
  rewrite Hhead, trim_end_append by exact Ha. exact Hfix.
Qed.

Lemma member_click_opens_trimmed_name_witness :
  let nl := String (ascii_of_nat 10) EmptyString in
  Overlay.onMemberClick
    (Some ((nl +:+ "    ") +:+ "Jovan C. Certifico" +:+ (nl +:+ "  ")))
    Overlay.page_blank
  = Overlay.openOverlay "Jovan C. Certifico" Overlay.page_blank.
Proof.
  exact (proj1 (member_click_opens_trimmed_name "Jovan C. Certifico"
                  (String (ascii_of_nat 10) EmptyString +:+ "    ")
                  (String (ascii_of_nat 10) EmptyString +:+ "  ")
                  Overlay.page_blank eq_refl ltac:(discriminate) eq_refl eq_refl)).
Defined.
